(** * go-whosonfirst-pgis: the PostGIS client of index/index.go

    A shallow embedding of [PgisClient] (index/index.go): the connection
    budget [conns], the intersects query ([IntersectsFeature],
    [CountIntersects], [FetchIntersectsAsync]), the per-feature upsert
    ([IndexFeature]), the bulk index pipelines ([IndexMetaFile],
    [IndexFileList], the callback of [IndexDirectory]), [Prune],
    [NewPgisClient] and the endpoint flag of flags/endpoints.go.

    Sequential code is embedded as functions passing the client's mutable
    state explicitly; the goroutines and channels of [IntersectsFeature]
    are embedded as a small-step relation over an explicit
    configuration (one program counter per goroutine, rendezvous on the
    unbuffered channels). *)

From Stdlib Require Import ZArith List String Bool Lia Arith Permutation.
From Stdlib Require Import Relations DecimalString.
Import ListNotations.
Open Scope string_scope.
Open Scope list_scope.
Open Scope Z_scope.

Set Implicit Arguments.

(** ** Go values *)

(** A Go [error] value: the message it carries. *)
Definition error := string.

(** Go's [int] on the 64-bit platforms the client runs on: arithmetic
    wraps around in two's complement. *)
Definition int_min : Z := - 2 ^ 63.
Definition int_max : Z := 2 ^ 63 - 1.
Definition int_wrap (z : Z) : Z := (z + 2 ^ 63) mod 2 ^ 64 - 2 ^ 63.
Definition int_add (a b : Z) : Z := int_wrap (a + b).

Lemma int_wrap_small z : int_min <= z <= int_max -> int_wrap z = z.
Proof.
  unfold int_min, int_max, int_wrap. intros H.
  rewrite Z.mod_small by lia. lia.
Qed.

(** How a call of a sequential function of the client can end. *)
Inductive outcome (A : Type) : Type :=
| Ret (a : A)          (* the call returns [a] *)
| Blocks               (* the call waits for ever on a channel *)
| Panics               (* a run-time panic (index out of range, failed type assertion) *)
| Exits (code : Z).    (* os.Exit(code) *)
Arguments Ret {A} a.
Arguments Blocks {A}.
Arguments Panics {A}.
Arguments Exits {A} code.

(** ** The connection budget: [client.conns]

    [conns := make(chan bool, maxconns)], filled with [maxconns] tokens by
    [NewPgisClient].  The channel only ever carries [true], so its state is
    the number of tokens waiting in it. *)
Module Budget.

(** [<-client.conns] inside [dbconn] / [Connection]: takes one token, or
    waits (for ever, if nobody puts one back) when there is none.  The
    error [dbconn] returns is always [nil]. *)
Definition dbconn (conns : nat) : outcome nat :=
  match conns with
  | O => Blocks
  | S n => Ret n
  end.

(** [client.conns <- true]. *)
Definition release (conns : nat) : nat := S conns.

End Budget.

(** ** Paging arithmetic of [FetchIntersectsAsync] *)
Module Paging.

(** Ceiling of [a / b] for [b > 0]. *)
Definition ceil_div (a b : Z) : Z := - ((- a) / b).

(** [iters := int(math.Ceil(float64(count_expected) / float64(limit)))].
    For operands below 2^53 in magnitude the conversions to float64 are
    exact and the correctly rounded quotient has the ceiling of the exact
    one, so the result is the integer ceiling written here.  From 2^53 on
    the conversions round and the code's value can be smaller (count
    2^53 + 1 with limit 2^53 gives 1, not 2): [iters] is the code's value
    for operands below 2^53 only. *)
Definition iters (count_expected limit : Z) : Z := ceil_div count_expected limit.

(** [for offset := 0; offset <= count_expected; offset += limit]: the
    offsets for which the loop body runs (one goroutine each).  [fuel]
    bounds the number of iterations unfolded. *)
Fixpoint offsets_from (fuel : nat) (offset count_expected limit : Z) : list Z :=
  match fuel with
  | O => []
  | S k =>
      if offset <=? count_expected
      then offset :: offsets_from k (int_add offset limit) count_expected limit
      else []
  end.

(** With [limit >= 1] the loop leaves after at most [count_expected + 1]
    iterations (lemma [offsets_fuel_enough]). *)
Definition offsets (count_expected limit : Z) : list Z :=
  offsets_from (S (Z.to_nat count_expected)) 0 count_expected limit.

End Paging.

(** ** The table [whosonfirst] and the statements [IndexFeature] sends *)
Module Table.

(** The column names that occur in the statements of index.go. *)
Inductive column : Set :=
| c_id | c_parent_id | c_placetype_id | c_is_superseded | c_is_deprecated
| c_meta | c_geom_hash | c_lastmod | c_geom | c_centroid | c_xgeom.

Definition column_eqb (a b : column) : bool :=
  match a, b with
  | c_id, c_id | c_parent_id, c_parent_id | c_placetype_id, c_placetype_id
  | c_is_superseded, c_is_superseded | c_is_deprecated, c_is_deprecated
  | c_meta, c_meta | c_geom_hash, c_geom_hash | c_lastmod, c_lastmod
  | c_geom, c_geom | c_centroid, c_centroid | c_xgeom, c_xgeom => true
  | _, _ => false
  end.

Inductive value : Set :=
| VNull
| VInt (z : Z)
| VText (s : string)
| VGeom (geojson : string).      (* the geometry ST_GeomFromGeoJSON made of [geojson] *)

Definition value_eqb (a b : value) : bool :=
  match a, b with
  | VNull, VNull => true
  | VInt x, VInt y => x =? y
  | VText x, VText y => String.eqb x y
  | VGeom x, VGeom y => String.eqb x y
  | _, _ => false
  end.

(** An expression of a statement: a positional parameter [$n] or the
    literal [ST_GeomFromGeoJSON('s')] that [fmt.Sprintf] pasted in. *)
Inductive expr : Set :=
| EParam (n : nat)
| EGeomFromGeoJSON (s : string).

(** [INSERT INTO whosonfirst (target) VALUES (exprs)
     ON CONFLICT(id) DO UPDATE SET conflict_set]. *)
Record upsert : Set := {
  target : list column;
  exprs : list expr;
  conflict_set : list (column * expr)
}.

Definition row := column -> value.
Definition table := list row.

Definition set (c : column) (v : value) (r : row) : row :=
  fun c' => if column_eqb c' c then v else r c'.

Fixpoint assign (cvs : list (column * value)) (r : row) : row :=
  match cvs with
  | [] => r
  | (c, v) :: rest => assign rest (set c v r)
  end.

Definition empty_row : row := fun _ => VNull.

Section Exec.
(** Whether the store's [ST_GeomFromGeoJSON] accepts a text.  The
    geometry functions belong to the store, not to this repository. *)
Variable geojson_ok : string -> bool.

Definition eval (args : list value) (e : expr) : error + value :=
  match e with
  | EParam n =>
      match nth_error args (Nat.pred n) with
      | Some v => inr v
      | None => inl "there is no parameter"
      end
  | EGeomFromGeoJSON s =>
      if geojson_ok s then inr (VGeom s) else inl "invalid GeoJSON representation"
  end.

Fixpoint eval_all (args : list value) (es : list expr) : error + list value :=
  match es with
  | [] => inr []
  | e :: rest =>
      match eval args e with
      | inl err => inl err
      | inr v =>
          match eval_all args rest with
          | inl err => inl err
          | inr vs => inr (v :: vs)
          end
      end
  end.

Definition has_id (k : value) (r : row) : bool := value_eqb (r c_id) k.

(** [db.Exec(sql, args...)] for an upsert statement: an INSERT whose
    column list and VALUES list differ in length is rejected; a row whose
    [id] is already present is updated by the SET list (the arbiter is
    [ON CONFLICT(id)]), otherwise the new row is added, the columns the
    statement does not name being NULL. *)
Definition Exec (q : upsert) (args : list value) (t : table) : error + table :=
  if negb (Nat.eqb (List.length (target q)) (List.length (exprs q)))
  then inl "INSERT has more target columns than expressions"
  else
    match eval_all args (exprs q), eval_all args (map snd (conflict_set q)) with
    | inl err, _ => inl err
    | _, inl err => inl err
    | inr vs, inr us =>
        let new := assign (combine (target q) vs) empty_row in
        let k := new c_id in
        if existsb (has_id k) t
        then inr (map (fun r => if has_id k r
                                then assign (combine (map fst (conflict_set q)) us) r
                                else r) t)
        else inr (t ++ [new])
    end.
End Exec.

(** What an accepted upsert does to the table: the row with id [k] is
    changed by [upd] when there is one, else [new] is added. *)
Definition upsert_rows (k : value) (new : row) (upd : row -> row) (t : table) : table :=
  if existsb (has_id k) t
  then map (fun r => if has_id k r then upd r else r) t
  else t ++ [new].

(** The rows stored under an id. *)
Definition rows_of (k : Z) (t : table) : list row := filter (has_id (VInt k)) t.

(** The primary key: no two rows share an id. *)
Definition keyed (t : table) : Prop := NoDup (map (fun r : row => r c_id) t).

End Table.

(** ** [IndexFeature]: from a decoded feature to one upsert *)
Module Index.
Import Table.

(** [PgisClient]: the fields [IndexFeature] reads.  The connection budget
    [conns] is mutable and lives in [world]. *)
Record PgisClient : Set := {
  Geometry : string;
  Debug : bool;
  Verbose : bool
}.

(** What the calls of [log] print. *)
Inductive log_line : Set :=
| LogSkippingEarth
| LogGeomTypeIs (geom_type : string)
| LogFailedParent (key : string)
| LogFailedCountry (meta_key : string)
| LogFailedMarshal (meta_key : string) (err : error)
| LogFailedHash (err : error)
| LogInsert (wofid parent ptid superseded deprecated : Z)
            (str_meta geom_hash lastmod st_geojson st_centroid : string)
| LogExecError (err : error)
| LogExecSql (sql : option upsert)
| LogFailedToIndex (msg : string)
| LogCountOkError (count ok errs : Z).

(** The state [IndexFeature] works on: the tokens waiting in
    [client.conns], the table, and what was logged so far. *)
Record world : Type := {
  conns : nat;
  tbl : table;
  logs : list log_line
}.

Definition say (l : list log_line) (w : world) : world :=
  {| conns := conns w; tbl := tbl w; logs := logs w ++ l |}.

Definition nonempty (s : string) : bool := negb (String.eqb s EmptyString).

Definition quote : string := String (Ascii.ascii_of_nat 34) EmptyString.

(** [strconv.Itoa]. *)
Definition Itoa (z : Z) : string := DecimalString.NilZero.string_of_int (Z.to_int z).

(** A finite float64, as the feature decoder reads it from a JSON
    document, and the text [encoding/json] prints for it.  Such a number
    is never NaN or infinite, so [json.Marshal] of the geometry structs
    has no error to return. *)
Class JsonNumber : Type := {
  number : Type;
  fmt_number : number -> string
}.

Section Feature.
Context {JN : JsonNumber}.

(** ** The decoded feature ([geojson.WOFFeature]) through its accessors *)
Record WOFPolygon : Type := {
  OuterRing : list (number * number);             (* Points(): (Lng, Lat) *)
  InteriorRings : list (list (number * number))
}.

Record Meta : Set := {
  meta_Name : string;
  meta_Country : string;
  meta_Repo : string;
  meta_Hierarchy : list (list (string * Z))
}.

Record WOFFeature : Type := {
  Id : Z;                                  (* feature.Id() *)
  geometry_type : string;                  (* body.Path("geometry.type").Data().(string); empty when not a string *)
  geometry : string;                       (* body.Path("geometry").String() *)
  GeomToPolygons : list WOFPolygon;
  bbox : list (option number);             (* body.S("bbox").Children(), each Data() as a float64 or not *)
  lbl_latitude : option number;            (* properties.lbl:latitude, when a float64 *)
  lbl_longitude : option number;
  geom_latitude : option number;           (* properties.geom:latitude, when a float64 *)
  geom_longitude : option number;
  Placetype : string;
  wof_repo : option string;                (* StringProperty("wof:repo") *)
  wof_parent_id : option Z;                (* IntProperty("wof:parent_id") *)
  Deprecated : bool;
  Superseded : bool;
  Name : string;
  wof_country : option string;
  Hierarchy : list (list (string * Z));
  Dumps : string
}.

(** *** [json.Marshal] of the geometry structs *)
Fixpoint join (l : list string) : string :=
  match l with
  | [] => EmptyString
  | [s] => s
  | s :: rest => (s ++ "," ++ join rest)%string
  end.

Definition array (l : list string) : string := ("[" ++ join l ++ "]")%string.

(** [Coords{lng, lat}] *)
Definition marshal_coords (p : number * number) : string :=
  array [fmt_number (fst p); fmt_number (snd p)].

Definition marshal_ring (r : list (number * number)) : string :=
  array (map marshal_coords r).

Definition marshal_struct (type coordinates : string) : string :=
  ("{" ++ quote ++ "type" ++ quote ++ ":" ++ quote ++ type ++ quote ++ ","
       ++ quote ++ "coordinates" ++ quote ++ ":" ++ coordinates ++ "}")%string.

(** The Polygon branch: every polygon of [GeomToPolygons] becomes its
    outer ring followed by its interior rings; the whole is marshalled as
    a [GeometryMultiPoly] of type MultiPolygon. *)
Definition polygon_rings (p : WOFPolygon) : list (list (number * number)) :=
  OuterRing p :: InteriorRings p.

Definition marshal_multi (polys : list WOFPolygon) : string :=
  marshal_struct "MultiPolygon"
    (array (map (fun p => array (map marshal_ring (polygon_rings p))) polys)).

(** The bbox branch: one ring sw, nw, ne, se, sw as a [GeometryPoly]. *)
Definition marshal_bbox (swlon swlat nelon nelat : number) : string :=
  marshal_struct "Polygon"
    (array [marshal_ring [(swlon, swlat); (swlon, nelat); (nelon, nelat);
                          (nelon, swlat); (swlon, swlat)]]).

(** [Geometry{Type: "Point", Coordinates: Coords{lon, lat}}] *)
Definition marshal_point (lon lat : number) : string :=
  marshal_struct "Point" (marshal_coords (lon, lat)).

(** *** Geometry by declared shape (the default, [client.Geometry] empty) *)
Definition default_geometry (f : WOFFeature)
  : list log_line * (error + (string * string)) :=
  let geom_type := geometry_type f in
  if String.eqb geom_type "MultiPolygon" then ([], inr (geometry f, EmptyString))
  else if String.eqb geom_type "Polygon" then
    ([], inr (marshal_multi (GeomToPolygons f), EmptyString))
  else if String.eqb geom_type "Point" then ([], inr (EmptyString, geometry f))
  else ([LogGeomTypeIs geom_type], inl "DO SOMETHING HERE").

(** The pair ([str_geom], [str_centroid]) after the dispatch on
    [client.Geometry]. *)
Definition geometry_filter (client : PgisClient) (f : WOFFeature)
  : outcome (list log_line * (error + (string * string))) :=
  if String.eqb (Geometry client) EmptyString then Ret (default_geometry f)
  else if String.eqb (Geometry client) "bbox" then
    match bbox f with
    | Some swlon :: Some swlat :: Some nelon :: Some nelat :: _ =>
        Ret ([], inr (marshal_bbox swlon swlat nelon nelat, EmptyString))
    | _ => Panics
    end
  else if String.eqb (Geometry client) "centroid" then Ret ([], inr (EmptyString, EmptyString))
  else Ret ([], inl "unknown geometry filter").

(** The block run when [str_centroid] is still empty: the label coordinates when both are
    floats, else the geom: coordinates when both are, else an error. *)
Definition derive_centroid (f : WOFFeature) (str_centroid : string) : error + string :=
  if String.eqb str_centroid EmptyString then
    match lbl_latitude f, lbl_longitude f with
    | Some lat, Some lon => inr (marshal_point lon lat)
    | _, _ =>
        match geom_latitude f, geom_longitude f with
        | Some lat, Some lon => inr (marshal_point lon lat)
        | _, _ => inl "can't find centroid"
        end
    end
  else inr str_centroid.

End Feature.

(** The collaborators [IndexFile] and [IndexFeature] call. *)
Class Collaborators {JN : JsonNumber} : Type := {
  UnmarshalFile : string -> error + WOFFeature;      (* geojson.UnmarshalFile *)
  GetPlacetypeByName : string -> error + Z;          (* the placetype's Id *)
  HashGeomFromFeature : string -> error + string;
  marshal_meta : Meta -> error + string;             (* json.Marshal(meta) *)
  geojson_ok : string -> bool                        (* the store's ST_GeomFromGeoJSON *)
}.

Section WithCollaborators.
Context {JN : JsonNumber} {CO : Collaborators}.

(** *** The values of the row to write *)
Record prepared : Set := {
  p_wofid : Z;
  p_parent : Z;
  p_ptid : Z;
  p_is_superseded : Z;
  p_is_deprecated : Z;
  p_str_meta : string;
  p_geom_hash : string;
  p_lastmod : string;
  p_str_geom : string;
  p_str_centroid : string
}.

Definition st_from (s : string) : string :=
  ("ST_GeomFromGeoJSON('" ++ s ++ "')")%string.

(** The line printed when [client.Verbose] is set; with the default
    geometry the blob is elided. *)
Definition verbose_line (client : PgisClient) (p : prepared) : list log_line :=
  if Verbose client then
    [LogInsert (p_wofid p) (p_parent p) (p_ptid p) (p_is_superseded p) (p_is_deprecated p)
               (p_str_meta p) (p_geom_hash p) (p_lastmod p)
               (if String.eqb (Geometry client) EmptyString
                then "ST_GeomFromGeoJSON('...')" else st_from (p_str_geom p))
               (st_from (p_str_centroid p))]
  else [].

(** Everything [IndexFeature] does between the id test and the write:
    geometry and centroid, placetype, repo, parent, flags, meta, hash and
    timestamp.  [lastmod] is [time.Now()] formatted as RFC 3339. *)
Definition prepare (client : PgisClient) (f : WOFFeature) (lastmod : string)
  : outcome (list log_line * (error + prepared)) :=
  let str_wofid := Itoa (Id f) in
  match geometry_filter client f with
  | Blocks => Blocks
  | Panics => Panics
  | Exits c => Exits c
  | Ret (l0, inl err) => Ret (l0, inl err)
  | Ret (l0, inr (str_geom, str_centroid0)) =>
      match derive_centroid f str_centroid0 with
      | inl err => Ret (l0, inl err)
      | inr str_centroid =>
          match GetPlacetypeByName (Placetype f) with
          | inl err => Ret (l0, inl err)
          | inr ptid =>
              match wof_repo f with
              | None => Ret (l0, inl ("can't find wof:repo for " ++ str_wofid)%string)
              | Some repo =>
                  if String.eqb repo EmptyString
                  then Ret (l0, inl ("missing wof:repo for " ++ str_wofid)%string)
                  else
                    let key := (str_wofid ++ "#" ++ repo)%string in
                    let parent := match wof_parent_id f with Some p => p | None => -1 end in
                    let l1 := match wof_parent_id f with
                              | Some _ => [] | None => [LogFailedParent key] end in
                    let is_deprecated := if Deprecated f then 1 else 0 in
                    let is_superseded := if Superseded f then 1 else 0 in
                    let meta_key := (str_wofid ++ "#meta")%string in
                    let country := match wof_country f with Some c => c | None => "XX" end in
                    let l2 := match wof_country f with
                              | Some _ => [] | None => [LogFailedCountry meta_key] end in
                    let meta := {| meta_Name := Name f; meta_Country := country;
                                   meta_Repo := repo; meta_Hierarchy := Hierarchy f |} in
                    match marshal_meta meta with
                    | inl err => Ret (l0 ++ l1 ++ l2 ++ [LogFailedMarshal meta_key err], inl err)
                    | inr str_meta =>
                        match HashGeomFromFeature (Dumps f) with
                        | inl err => Ret (l0 ++ l1 ++ l2 ++ [LogFailedHash err], inl err)
                        | inr geom_hash =>
                            let p := {| p_wofid := Id f; p_parent := parent; p_ptid := ptid;
                                        p_is_superseded := is_superseded;
                                        p_is_deprecated := is_deprecated;
                                        p_str_meta := str_meta; p_geom_hash := geom_hash;
                                        p_lastmod := lastmod;
                                        p_str_geom := str_geom;
                                        p_str_centroid := str_centroid |} in
                            Ret (l0 ++ l1 ++ l2 ++ verbose_line client p, inr p)
                        end
                    end
              end
          end
      end
  end.

(** *** The three statements *)
Definition cols8 : list column :=
  [c_id; c_parent_id; c_placetype_id; c_is_superseded; c_is_deprecated;
   c_meta; c_geom_hash; c_lastmod].

Definition params8 : list expr :=
  [EParam 1; EParam 2; EParam 3; EParam 4; EParam 5; EParam 6; EParam 7; EParam 8].

Definition set7 : list (column * expr) :=
  [(c_parent_id, EParam 9); (c_placetype_id, EParam 10); (c_is_superseded, EParam 11);
   (c_is_deprecated, EParam 12); (c_meta, EParam 13); (c_geom_hash, EParam 14);
   (c_lastmod, EParam 15)].

Inductive write_shape : Set := GeomAndCentroid | GeomOnly | CentroidOnly.

(** The statement text of each branch, as written in the source. *)
Definition shape_sql (sh : write_shape) (str_geom str_centroid : string) : upsert :=
  let st_geojson := EGeomFromGeoJSON str_geom in
  let st_centroid := EGeomFromGeoJSON str_centroid in
  match sh with
  | GeomAndCentroid =>
      {| target := cols8 ++ [c_geom; c_centroid];
         exprs := params8 ++ [st_geojson; st_centroid];
         conflict_set := set7 ++ [(c_geom, st_geojson); (c_centroid, st_centroid)] |}
  | GeomOnly =>
      {| target := cols8 ++ [c_xgeom; c_centroid];
         exprs := params8 ++ [st_geojson];
         conflict_set := set7 ++ [(c_geom, st_geojson)] |}
  | CentroidOnly =>
      {| target := cols8 ++ [c_centroid];
         exprs := params8 ++ [st_centroid];
         conflict_set := set7 ++ [(c_centroid, st_centroid)] |}
  end.

(** The branch taken; [None] is the last, empty [else]. *)
Definition select_shape (str_geom str_centroid : string) : option write_shape :=
  if nonempty str_geom && nonempty str_centroid then Some GeomAndCentroid
  else if nonempty str_geom then Some GeomOnly
  else if nonempty str_centroid then Some CentroidOnly
  else None.

Definition upsert_sql (str_geom str_centroid : string) : option upsert :=
  option_map (fun sh => shape_sql sh str_geom str_centroid)
             (select_shape str_geom str_centroid).

(** The fifteen arguments of [db.Exec]. *)
Definition exec_args (p : prepared) : list value :=
  [VInt (p_wofid p); VInt (p_parent p); VInt (p_ptid p); VInt (p_is_superseded p);
   VInt (p_is_deprecated p); VText (p_str_meta p); VText (p_geom_hash p);
   VText (p_lastmod p);
   VInt (p_parent p); VInt (p_ptid p); VInt (p_is_superseded p);
   VInt (p_is_deprecated p); VText (p_str_meta p); VText (p_geom_hash p);
   VText (p_lastmod p)].

(** The values a statement of shape [sh] carries: the new row it inserts
    and the change it makes to a row already there. *)
Definition geoms (sh : write_shape) (p : prepared) : list value :=
  match sh with
  | GeomAndCentroid => [VGeom (p_str_geom p); VGeom (p_str_centroid p)]
  | GeomOnly => [VGeom (p_str_geom p)]
  | CentroidOnly => [VGeom (p_str_centroid p)]
  end.

Definition new_row (sh : write_shape) (p : prepared) : row :=
  assign (combine (target (shape_sql sh (p_str_geom p) (p_str_centroid p)))
                  (firstn 8 (exec_args p) ++ geoms sh p)) empty_row.

Definition updated (sh : write_shape) (p : prepared) (r : row) : row :=
  assign (combine (map fst (conflict_set (shape_sql sh (p_str_geom p) (p_str_centroid p))))
                  (skipn 8 (exec_args p) ++ geoms sh p)) r.

(** A stored row carries the values prepared for it: every column of the
    statement, and [geom] when the feature has one. *)
Definition holds (p : prepared) (r : row) : Prop :=
  r c_id = VInt (p_wofid p) /\
  r c_parent_id = VInt (p_parent p) /\
  r c_placetype_id = VInt (p_ptid p) /\
  r c_is_superseded = VInt (p_is_superseded p) /\
  r c_is_deprecated = VInt (p_is_deprecated p) /\
  r c_meta = VText (p_str_meta p) /\
  r c_geom_hash = VText (p_geom_hash p) /\
  r c_lastmod = VText (p_lastmod p) /\
  r c_centroid = VGeom (p_str_centroid p) /\
  (p_str_geom p <> EmptyString -> r c_geom = VGeom (p_str_geom p)).

(** Whether the store accepts the geometry literals of a statement. *)
Definition accepted (sh : write_shape) (p : prepared) : bool :=
  match sh with
  | GeomAndCentroid => geojson_ok (p_str_geom p) && geojson_ok (p_str_centroid p)
  | GeomOnly => false
  | CentroidOnly => geojson_ok (p_str_centroid p)
  end.

(** [db.Exec(sql, ...)].  In the last, empty [else] branch [sql] stays the
    empty string; what the driver does with an empty statement is not
    part of this repository, and no row is written then (the branch is
    never taken: lemma [IndexFacts.select_shape_with_centroid]). *)
Definition exec_sql (sql : option upsert) (args : list value) (t : table) : error + table :=
  match sql with
  | Some q => Exec geojson_ok q args t
  | None => inr t
  end.

(** The block under [if !client.Debug]: take a token, run the statement,
    and give the token back on return (the deferred send).  A rejected
    statement is logged and ends the process with [os.Exit(1)], which
    runs no deferred call. *)
Definition write (p : prepared) (w : world) : outcome (option error) * world :=
  match Budget.dbconn (conns w) with
  | Ret n =>
      let sql := upsert_sql (p_str_geom p) (p_str_centroid p) in
      match exec_sql sql (exec_args p) (tbl w) with
      | inl err =>
          (Exits 1, {| conns := n; tbl := tbl w;
                       logs := logs w ++ [LogExecError err; LogExecSql sql] |})
      | inr t' =>
          (Ret None, {| conns := Budget.release n; tbl := t'; logs := logs w |})
      end
  | Blocks => (Blocks, w)
  | Panics => (Panics, w)
  | Exits c => (Exits c, w)
  end.

(** [IndexFeature(feature, collection)]; the result is the [error]
    returned ([None] for [nil]). *)
Definition IndexFeature (client : PgisClient) (f : WOFFeature) (lastmod : string)
                        (w : world) : outcome (option error) * world :=
  if Id f =? 0 then (Ret None, say [LogSkippingEarth] w)
  else
    match prepare client f lastmod with
    | Ret (l, inl err) => (Ret (Some err), say l w)
    | Ret (l, inr p) =>
        if Debug client then (Ret None, say l w) else write p (say l w)
    | Blocks => (Blocks, w)
    | Panics => (Panics, w)
    | Exits c => (Exits c, w)
    end.

(** [IndexFile(abs_path, collection)]. *)
Definition IndexFile (client : PgisClient) (abs_path lastmod : string) (w : world)
  : outcome (option error) * world :=
  match UnmarshalFile abs_path with
  | inl err => (Ret (Some err), w)
  | inr feature => IndexFeature client feature lastmod w
  end.

End WithCollaborators.
End Index.

(** ** Reading: [CountIntersects], [GetById] and the rows they decode *)
Module Query.

Record PgisRow : Set := {
  Id : Z;
  ParentId : Z;
  PlacetypeId : Z;
  IsSuperseded : Z;
  IsDeprecated : Z;
  Meta : string;
  Geom : string;
  Centroid : string
}.

Record PgisIntersectsOptions : Set := {
  opt_PlacetypeId : Z;
  opt_IsSuperseded : Z;
  opt_IsDeprecated : Z;
  NumProcesses : Z;
  PerPage : Z
}.

Definition NewDefaultPgisIntersectsOptions : PgisIntersectsOptions :=
  {| opt_PlacetypeId := -1; opt_IsSuperseded := 0; opt_IsDeprecated := 0;
     NumProcesses := 4; PerPage := 1000 |}.

(** The two disjoint queries of [IntersectsFeature]: rows whose [geom]
    intersects, and rows without [geom] whose [centroid] intersects
    ([sql_geom] and [sql_centroid], and the two SELECTs with OFFSET and
    LIMIT). *)
Inductive partition : Set := ByGeom | ByCentroid.

(** What the store answers.  [ScanRow] is [row.Scan] inside
    [QueryRowToPgisRow], one result per row of the cursor. *)
Class Store : Type := {
  QueryCount : partition -> string -> PgisIntersectsOptions -> error + Z;
  QueryPage : partition -> string -> PgisIntersectsOptions -> Z -> Z
              -> error + list (error + PgisRow);
  QueryById : Z -> error + PgisRow
}.

Section WithStore.
Context {ST : Store}.

(** [CountIntersects(sql, str_geom, opts)]: returns [(count_rows, nil)] or
    [(-1, err)].  The token taken by [dbconn] is not put back. *)
Definition CountIntersects (p : partition) (str_geom : string)
           (opts : PgisIntersectsOptions) (conns : nat)
  : outcome (Z * option error) * nat :=
  match Budget.dbconn conns with
  | Ret n =>
      match QueryCount p str_geom opts with
      | inl err => (Ret (-1, Some err), n)
      | inr count_rows => (Ret (count_rows, None), n)
      end
  | Blocks => (Blocks, conns)
  | Panics => (Panics, conns)
  | Exits c => (Exits c, conns)
  end.

(** [NewPgisRow] has no error to return, so [QueryRowToPgisRow] fails
    exactly when [Scan] does. *)
Definition QueryRowToPgisRow (scanned : error + PgisRow) : option PgisRow * option error :=
  match scanned with
  | inl err => (None, Some err)
  | inr pgrow => (Some pgrow, None)
  end.

(** [GetById(id)]. *)
Definition GetById (id : Z) (conns : nat)
  : outcome (option PgisRow * option error) * nat :=
  match Budget.dbconn conns with
  | Ret n => (Ret (QueryRowToPgisRow (QueryById id)), n)
  | Blocks => (Blocks, conns)
  | Panics => (Panics, conns)
  | Exits c => (Exits c, conns)
  end.
End WithStore.

End Query.

(** ** [IntersectsFeature]: goroutines and channels

    A configuration holds one program counter per goroutine and the state
    of the buffered channels.  The unbuffered channels ([geom_ch],
    [centroid_ch], [err_ch], [done_ch], [rows_ch], and the [fetch_ch] of each
    call of [FetchIntersectsAsync]) hold nothing: a send and a receive on
    them happen together, as one step of the sender and the receiver. *)
Module Intersects.
Import Query.

(** A value per partition. *)
Record per (A : Type) : Type := { of_geom : A; of_centroid : A }.

Definition get {A} (p : partition) (x : per A) : A :=
  match p with ByGeom => of_geom x | ByCentroid => of_centroid x end.

Definition put {A} (p : partition) (v : A) (x : per A) : per A :=
  match p with
  | ByGeom => {| of_geom := v; of_centroid := of_centroid x |}
  | ByCentroid => {| of_geom := of_geom x; of_centroid := v |}
  end.

Definition partition_eqb (p q : partition) : bool :=
  match p, q with
  | ByGeom, ByGeom | ByCentroid, ByCentroid => true
  | _, _ => false
  end.

(** What travels over the unbuffered channels. *)
Inductive msg : Set :=
| OnCount (p : partition) (c : Z)    (* geom_ch / centroid_ch *)
| OnErr (err : error)                (* err_ch *)
| OnDone                             (* done_ch *)
| OnRow (pg_row : PgisRow)           (* rows_ch *)
| OnFetch (p : partition).           (* fetch_ch of the call for [p] *)

(** The goroutine [go get_count(...)]. *)
Inductive count_pc : Set :=
| CDbconn                   (* in CountIntersects, before <-client.conns *)
| CSendErr (err : error)    (* at err_ch <- err *)
| CSendCount (c : Z)        (* at count_ch <- count_rows *)
| CDeferDone                (* at the deferred done_ch <- true *)
| CExit.                    (* finished, or never started *)

(** The goroutine started for one offset by [FetchIntersectsAsync]. *)
Inductive page_pc : Set :=
| PThrottle                                         (* at <-throttle_ch *)
| PSendRow (pg_row : PgisRow) (rest : list (error + PgisRow))   (* at rows_ch <- pg_row *)
| PSendErr (err : error)                            (* at err_ch <- err *)
| PDeferFetch                                       (* at the deferred fetch_ch <- true *)
| PDeferThrottle                                    (* at the deferred throttle_ch <- true *)
| PExit.

Record page : Set := { pg_part : partition; pg_offset : Z; pg_pc : page_pc }.

(** The goroutine that called [IntersectsFeature].  [FetchIntersectsAsync]
    is called without [go], so its body runs here, its deferred send
    included. *)
Inductive main_pc : Set :=
| MCountLoop (n : Z)               (* for n := 2; n > 0; { select ... } *)
| MIfCount (p : partition)         (* if count_geom > 0 / if count_centroid > 0 *)
| MFetchDbconn (p : partition)     (* FetchIntersectsAsync: at client.dbconn() *)
| MFetchWait (p : partition) (i : Z)   (* for i := iters; i > 0; { <-fetch_ch } *)
| MFetchDefer (p : partition)      (* at the deferred done_ch <- true *)
| MFetchLoop (f : Z)               (* for f := fetching; f > 0; { select ... } *)
| MReturn (rows : option (list PgisRow)) (err : option error).

(** The main goroutine is inside [FetchIntersectsAsync]. *)
Definition in_fetch (pc : main_pc) : Prop :=
  match pc with
  | MFetchDbconn _ | MFetchWait _ _ | MFetchDefer _ => True
  | MCountLoop _ | MIfCount _ | MFetchLoop _ | MReturn _ _ => False
  end.

(** The local variables of [IntersectsFeature]. *)
Record regs : Set := {
  count : per Z;            (* count_geom, count_centroid *)
  count_total : Z;
  fetching : Z;
  rows : list PgisRow
}.

Record config : Type := {
  conns : nat;              (* tokens in client.conns *)
  main : main_pc;
  vars : regs;
  counters : per count_pc;
  throttle : per nat;       (* tokens in the throttle_ch of each fetch call *)
  pages : list page
}.

(** *** Sends *)

(** The send a count goroutine is waiting at, and where it goes next. *)
Definition count_offer (p : partition) (pc : count_pc) : option (msg * count_pc) :=
  match pc with
  | CSendCount c => Some (OnCount p c, CDeferDone)
  | CSendErr err => Some (OnErr err, CDeferDone)
  | CDeferDone => Some (OnDone, CExit)
  | CDbconn | CExit => None
  end.

(** [for r.Next() { pg_row, err := QueryRowToPgisRow(r); ... }]: where the
    page goroutine stops next. *)
Definition scan (rs : list (error + PgisRow)) : page_pc :=
  match rs with
  | [] => PDeferFetch
  | inl err :: _ => PSendErr err
  | inr pg_row :: rest => PSendRow pg_row rest
  end.

Definition page_offer (p : partition) (pc : page_pc) : option (msg * page_pc) :=
  match pc with
  | PSendRow pg_row rest => Some (OnRow pg_row, scan rest)
  | PSendErr err => Some (OnErr err, PDeferFetch)
  | PDeferFetch => Some (OnFetch p, PDeferThrottle)
  | PThrottle | PDeferThrottle | PExit => None
  end.

(** *** Receives

    What the main goroutine does with a message, when it is at a receive
    for the message's channel. *)
Definition main_recv (m : msg) (pc : main_pc) (v : regs) : option (main_pc * regs) :=
  match pc with
  | MCountLoop n =>
      if 0 <? n then
        match m with
        | OnCount p c =>
            Some (MCountLoop n,
                  {| count := put p c (count v);
                     count_total := int_add (count_total v) c;
                     fetching := fetching v; rows := rows v |})
        | OnErr err => Some (MReturn None (Some err), v)
        | OnDone => Some (MCountLoop (n - 1), v)
        | OnRow _ | OnFetch _ => None
        end
      else None
  | MFetchWait p i =>
      if 0 <? i then
        match m with
        | OnFetch q => if partition_eqb p q then Some (MFetchWait p (i - 1), v) else None
        | _ => None
        end
      else None
  | MFetchLoop f =>
      if 0 <? f then
        match m with
        | OnRow pg_row =>
            Some (MFetchLoop f,
                  {| count := count v; count_total := count_total v;
                     fetching := fetching v; rows := rows v ++ [pg_row] |})
        | OnErr err => Some (MReturn None (Some err), v)
        | OnDone => Some (MFetchLoop (f - 1), v)
        | OnCount _ _ | OnFetch _ => None
        end
      else None
  | MIfCount _ | MFetchDbconn _ | MFetchDefer _ | MReturn _ _ => None
  end.

(** [get_count] only sends, and a page goroutine receives from nothing
    but the throttle channel of its call: neither has a receive for a
    message on the unbuffered channels. *)
Definition count_recv (m : msg) (pc : count_pc) : option count_pc := None.
Definition page_recv (m : msg) (pc : page_pc) : option page_pc := None.

(** *** Steps of the main goroutine *)

(** After the test of partition [p]: the test of the next partition, or
    the collecting loop. *)
Definition after_if (p : partition) (v : regs) : main_pc :=
  match p with
  | ByGeom => MIfCount ByCentroid
  | ByCentroid => MFetchLoop (fetching v)
  end.

(** The one send of the main goroutine: the deferred [done_ch <- true] of
    [FetchIntersectsAsync].  Once it is taken the call returns, [fetching]
    is incremented and the code after the [if] goes on. *)
Definition main_offer (pc : main_pc) (v : regs) : option (msg * main_pc * regs) :=
  match pc with
  | MFetchDefer p =>
      let v' := {| count := count v; count_total := count_total v;
                   fetching := int_add (fetching v) 1; rows := rows v |} in
      Some (OnDone, after_if p v', v')
  | _ => None
  end.

Definition main_local (pc : main_pc) (v : regs) : option main_pc :=
  match pc with
  | MCountLoop n => if 0 <? n then None else Some (MIfCount ByGeom)
  | MIfCount p => if 0 <? get p (count v) then Some (MFetchDbconn p) else Some (after_if p v)
  | MFetchWait p i => if 0 <? i then None else Some (MFetchDefer p)
  | MFetchLoop f => if 0 <? f then None else Some (MReturn (Some (rows v)) None)
  | MFetchDbconn _ | MFetchDefer _ | MReturn _ _ => None
  end.

(** The goroutines [FetchIntersectsAsync] starts: one per offset. *)
Definition spawn (p : partition) (count_expected limit : Z) : list page :=
  map (fun offset => {| pg_part := p; pg_offset := offset; pg_pc := PThrottle |})
      (Paging.offsets count_expected limit).

Section Steps.
Context {ST : Store}.
Variable str_geom : string.
Variable opts : PgisIntersectsOptions.

(** [r, err := db.Query(sql, ..., offset, limit)] and the first row. *)
Definition page_query (pg : page) : page_pc :=
  match QueryPage (pg_part pg) str_geom opts (pg_offset pg) (PerPage opts) with
  | inl err => PSendErr err
  | inr rs => scan rs
  end.

(** The arguments for which the set-up of [FetchIntersectsAsync] comes
    to its waiting loop: a negative capacity makes [make] panic, a limit
    below one or an offset that wraps around keeps the loop over the
    offsets running for ever. *)
Definition fetch_args_ok (count_expected : Z) : Prop :=
  0 <= NumProcesses opts /\ 1 <= PerPage opts /\
  count_expected + PerPage opts <= int_max.

Definition count_result (r : Z * option error) : count_pc :=
  match r with
  | (_, Some err) => CSendErr err
  | (count_rows, None) => CSendCount count_rows
  end.

Inductive step : config -> config -> Prop :=
(* a count goroutine runs CountIntersects *)
| step_count_query s p r n :
    get p (counters s) = CDbconn ->
    CountIntersects p str_geom opts (conns s) = (Ret r, n) ->
    step s {| conns := n; main := main s; vars := vars s;
              counters := put p (count_result r) (counters s);
              throttle := throttle s; pages := pages s |}
(* a count goroutine sends, the main goroutine receives *)
| step_count_send s p m pc' mpc' v' :
    count_offer p (get p (counters s)) = Some (m, pc') ->
    main_recv m (main s) (vars s) = Some (mpc', v') ->
    step s {| conns := conns s; main := mpc'; vars := v';
              counters := put p pc' (counters s);
              throttle := throttle s; pages := pages s |}
(* the main goroutine leaves a loop or takes a branch *)
| step_main_local s mpc' :
    main_local (main s) (vars s) = Some mpc' ->
    step s {| conns := conns s; main := mpc'; vars := vars s;
              counters := counters s; throttle := throttle s; pages := pages s |}
(* FetchIntersectsAsync up to its waiting loop: the token, iters, the
   throttle channel and its tokens, one goroutine per offset *)
| step_fetch_start s p n :
    main s = MFetchDbconn p ->
    Budget.dbconn (conns s) = Ret n ->
    fetch_args_ok (get p (count (vars s))) ->
    step s {| conns := n;
              main := MFetchWait p (Paging.iters (get p (count (vars s))) (PerPage opts));
              vars := vars s; counters := counters s;
              throttle := put p (Z.to_nat (NumProcesses opts)) (throttle s);
              pages := pages s ++ spawn p (get p (count (vars s))) (PerPage opts) |}
(* a page goroutine takes a throttle token and runs its query *)
| step_page_query s l1 pg l2 k :
    pages s = l1 ++ pg :: l2 ->
    pg_pc pg = PThrottle ->
    get (pg_part pg) (throttle s) = S k ->
    step s {| conns := conns s; main := main s; vars := vars s;
              counters := counters s;
              throttle := put (pg_part pg) k (throttle s);
              pages := l1 ++ {| pg_part := pg_part pg; pg_offset := pg_offset pg;
                                pg_pc := page_query pg |} :: l2 |}
(* a page goroutine sends, the main goroutine receives *)
| step_page_send s l1 pg l2 m pc' mpc' v' :
    pages s = l1 ++ pg :: l2 ->
    page_offer (pg_part pg) (pg_pc pg) = Some (m, pc') ->
    main_recv m (main s) (vars s) = Some (mpc', v') ->
    step s {| conns := conns s; main := mpc'; vars := v';
              counters := counters s; throttle := throttle s;
              pages := l1 ++ {| pg_part := pg_part pg; pg_offset := pg_offset pg;
                                pg_pc := pc' |} :: l2 |}
(* the main goroutine sends, another goroutine receives *)
| step_main_send_count s m mpc' v' p pc' :
    main_offer (main s) (vars s) = Some (m, mpc', v') ->
    count_recv m (get p (counters s)) = Some pc' ->
    step s {| conns := conns s; main := mpc'; vars := v';
              counters := put p pc' (counters s);
              throttle := throttle s; pages := pages s |}
| step_main_send_page s m mpc' v' l1 pg l2 pc' :
    main_offer (main s) (vars s) = Some (m, mpc', v') ->
    pages s = l1 ++ pg :: l2 ->
    page_recv m (pg_pc pg) = Some pc' ->
    step s {| conns := conns s; main := mpc'; vars := v';
              counters := counters s; throttle := throttle s;
              pages := l1 ++ {| pg_part := pg_part pg; pg_offset := pg_offset pg;
                                pg_pc := pc' |} :: l2 |}
(* a page goroutine puts its throttle token back *)
| step_page_release s l1 pg l2 :
    pages s = l1 ++ pg :: l2 ->
    pg_pc pg = PDeferThrottle ->
    step s {| conns := conns s; main := main s; vars := vars s;
              counters := counters s;
              throttle := put (pg_part pg) (S (get (pg_part pg) (throttle s))) (throttle s);
              pages := l1 ++ {| pg_part := pg_part pg; pg_offset := pg_offset pg;
                                pg_pc := PExit |} :: l2 |}.

(** Configurations reached from [s]. *)
Definition reaches : config -> config -> Prop := clos_refl_trans_n1 config step.

(** Every run from [s] comes, after finitely many steps and without
    getting stuck before, to a configuration where [IntersectsFeature] has
    returned a result satisfying [Q]. *)
Inductive returns (Q : option (list PgisRow) -> option error -> Prop) : config -> Prop :=
| returns_now s rows err :
    main s = MReturn rows err -> Q rows err -> returns Q s
| returns_later s :
    (exists s', step s s') ->
    (forall s', step s s' -> returns Q s') ->
    returns Q s.

End Steps.

Definition zero_regs : regs :=
  {| count := {| of_geom := 0; of_centroid := 0 |}; count_total := 0;
     fetching := 0; rows := [] |}.

(** The configuration at the call [IntersectsFeature(f, opts)] with
    [conns] tokens in the budget; [geometry] is [gjson.GetBytes(f,
    "geometry")] when it exists.  Without it the function returns before
    any goroutine is started. *)
Definition init (geometry : option string) (conns : nat) : config :=
  match geometry with
  | None =>
      {| conns := conns; main := MReturn None (Some "Feature is missing a geometry");
         vars := zero_regs;
         counters := {| of_geom := CExit; of_centroid := CExit |};
         throttle := {| of_geom := O; of_centroid := O |}; pages := [] |}
  | Some _ =>
      {| conns := conns; main := MCountLoop 2; vars := zero_regs;
         counters := {| of_geom := CDbconn; of_centroid := CDbconn |};
         throttle := {| of_geom := O; of_centroid := O |}; pages := [] |}
  end.

End Intersects.

(** ** The bulk index pipelines *)
Module Bulk.
Import Table Index.

Section WithCollaborators.
Context {JN : JsonNumber} {CO : Collaborators}.

(** A task of a pipeline: the path handed to [IndexFile] and the time its
    [IndexFeature] reads from the clock. *)
Definition task : Set := (string * string)%type.

(** The goroutines of [IndexMetaFile] and [IndexFileList], each running
    [client.IndexFile(path, collection)] and dropping what it returns.
    The channel of GOMAXPROCS tokens bounds how many run at once, not what
    they do.  A task touches the shared state once, at its statement, so
    the tasks take effect in some order; [tasks] lists them in that order.
    A task that ends the process, panics or waits for ever ends the run. *)
Fixpoint run_tasks (client : PgisClient) (tasks : list task) (w : world)
  : outcome unit * world :=
  match tasks with
  | [] => (Ret tt, w)
  | (path, lastmod) :: rest =>
      match IndexFile client path lastmod w with
      | (Ret _, w') => run_tasks client rest w'
      | (Blocks, w') => (Blocks, w')
      | (Panics, w') => (Panics, w')
      | (Exits c, w') => (Exits c, w')
      end
  end.

Definition after_tasks (r : outcome unit * world) (err : option error)
  : outcome (option error) * world :=
  match r with
  | (Ret _, w') => (Ret err, w')
  | (Blocks, w') => (Blocks, w')
  | (Panics, w') => (Panics, w')
  | (Exits c, w') => (Exits c, w')
  end.

(** [IndexFileList(abs_path, collection)]: [file] is what [os.Open] and
    the scanner give, an error or the lines. *)
Definition IndexFileList (client : PgisClient) (file : error + list task) (w : world)
  : outcome (option error) * world :=
  match file with
  | inl err => (Ret (Some err), w)
  | inr tasks => after_tasks (run_tasks client tasks w) None
  end.

(** A row of the meta file as [reader.Read()] gives it: an error, or the
    row with its [path] column when it has one. *)
Definition csv_row : Set := (error + option string)%type.

(** [filepath.Join(data_root, rel_path)], of the standard library: the
    elements that are not empty joined by the separator, and the result
    cleaned. *)
Variable filepath_Join : string -> string -> string.

(** The loop over the rows of the meta file: the tasks of the goroutines
    started before the first row that makes [IndexMetaFile] return, and
    the error returned there ([None] when every row is read, up to
    [io.EOF]).  Each row comes with the clock reading of its task. *)
Fixpoint meta_tasks (data_root : string) (rows : list (csv_row * string))
  : list task * option error :=
  match rows with
  | [] => ([], None)
  | (inl err, _) :: _ => ([], Some err)
  | (inr None, _) :: _ => ([], Some "missing 'path' column in meta file")
  | (inr (Some rel_path), lastmod) :: rest =>
      let (ts, err) := meta_tasks data_root rest in
      ((filepath_Join data_root rel_path, lastmod) :: ts, err)
  end.

(** How a call of [IndexMetaFile] ends.

    [Finished r]: the call is over, or waits for ever, with no goroutine
    of its own left behind: the reader could not be made, or every row
    was read and [wg.Wait()] has waited for every goroutine.

    [Abandoned err started]: a row cannot be read or has no [path]
    column.  The loop has asked for a goroutine for each row before it,
    those of [started], and starts none for a row after it; at the row
    the function returns [err] without [wg.Wait()].  The goroutines of
    [started] run on their own: which of them have run when the function
    returns is the scheduler's, and so is whether the loop gets to the
    row at all when GOMAXPROCS of them wait for a token for ever, or
    whether one of them ends the process first.  So no state is given. *)
Inductive meta_end : Type :=
| Finished (r : outcome (option error) * world)
| Abandoned (err : error) (started : list task).

(** [IndexMetaFile(csv_path, collection, data_root)]; [reader] is what
    [csv.NewDictReaderFromPath] gives, an error or the rows. *)
Definition IndexMetaFile (client : PgisClient) (data_root : string)
           (reader : error + list (csv_row * string)) (w : world) : meta_end :=
  match reader with
  | inl err => Finished (Ret (Some err), w)
  | inr rows =>
      match meta_tasks data_root rows with
      | (ts, None) => Finished (after_tasks (run_tasks client ts w) None)
      | (ts, Some err) => Abandoned err ts
      end
  end.

(** Rows of a meta file that can be read and have a path column, each
    with the clock reading of its task, and the tasks started for them. *)
Definition with_path (good : list (string * string)) : list (csv_row * string) :=
  map (fun x => (inr (Some (fst x)), snd x)) good.

Definition tasks_under (data_root : string) (good : list (string * string)) : list task :=
  map (fun x => (filepath_Join data_root (fst x), snd x)) good.

(** The error with which a row makes [IndexMetaFile] return, if it
    does. *)
Definition row_error (r : csv_row) : option error :=
  match r with
  | inl err => Some err
  | inr None => Some "missing 'path' column in meta file"
  | inr (Some _) => None
  end.

(** The counters of [IndexDirectory]. *)
Record tally : Set := { t_count : Z; t_ok : Z; t_errs : Z }.

(** One call of the callback [cb] of [IndexDirectory], on a file whose
    name matches [(\d+)\.geojson$]: the item is counted, and either
    counted as ok or counted as an error, logged and handed back as the
    error of the callback.  [IndexDirectory] gives [cb] to [crawl.Crawl]
    (go-whosonfirst-crawl, not part of this repository), which decides
    which files the callback is called with, from which goroutines, and
    what an error of the callback does to the walk; so the callback is
    what is modelled of the directory pipeline. *)
Definition cb (client : PgisClient) (t : task) (c : tally) (w : world)
  : outcome (option error) * (tally * world) :=
  let c1 := {| t_count := t_count c + 1; t_ok := t_ok c; t_errs := t_errs c |} in
  match IndexFile client (fst t) (snd t) w with
  | (Ret (Some err), w') =>
      let msg := ("failed to index " ++ fst t ++ ", because " ++ err)%string in
      (Ret (Some msg),
       ({| t_count := t_count c1; t_ok := t_ok c1; t_errs := t_errs c1 + 1 |},
        say [LogFailedToIndex msg] w'))
  | (Ret None, w') =>
      (Ret None, ({| t_count := t_count c1; t_ok := t_ok c1 + 1; t_errs := t_errs c1 |}, w'))
  | (Blocks, w') => (Blocks, (c1, w'))
  | (Panics, w') => (Panics, (c1, w'))
  | (Exits code, w') => (Exits code, (c1, w'))
  end.

(** Whether [IndexFile] returns an error for a task: the decoder's, or
    one found while preparing the row.  It does not depend on the
    table. *)
Definition fails (client : PgisClient) (t : task) : bool :=
  match UnmarshalFile (fst t) with
  | inl _ => true
  | inr f =>
      if Index.Id f =? 0 then false
      else match prepare client f (snd t) with
           | Ret (_, inl _) => true
           | _ => false
           end
  end.

(** The lines a pipeline adds to the log for failed items. *)
Definition failures_logged (l : list log_line) : nat :=
  List.length (filter (fun x => match x with LogFailedToIndex _ => true | _ => false end) l).

End WithCollaborators.
End Bulk.

(** ** [NewPgisClient] and [Connection] *)
Module Client.
Import Index.

(** What [sql.Open("postgres", dsn)] and [db.Ping()] answer. *)
Class Driver : Type := {
  Open : string -> option error;
  Ping : string -> option error
}.

(** The two [fmt.Sprintf] of the data source name. *)
Definition dsn_of (host : string) (port : Z) (user password dbname : string) : string :=
  if String.eqb password EmptyString
  then ("host=" ++ host ++ " port=" ++ Itoa port ++ " user=" ++ user
        ++ " dbname=" ++ dbname ++ " sslmode=disable")%string
  else ("host=" ++ host ++ " port=" ++ Itoa port ++ " user=" ++ user
        ++ " password=" ++ password ++ " dbname=" ++ dbname ++ " sslmode=disable")%string.

(** The client made: the exported fields, the data source name and the
    tokens put into [conns]. *)
Record made : Set := {
  client : PgisClient;
  dsn : string;
  conns : nat
}.

(** [NewPgisClient(host, port, user, password, dbname, maxconns)]:
    [(client, nil)] or [(nil, err)].  [make(chan bool, maxconns)] panics for
    a negative size; the loop then sends [maxconns] tokens into a channel
    that has room for as many. *)
Definition NewPgisClient {D : Driver} (host : string) (port : Z)
           (user password dbname : string) (maxconns : Z) : outcome (made + error) :=
  let dsn := dsn_of host port user password dbname in
  match Open dsn with
  | Some err => Ret (inr err)
  | None =>
      match Ping dsn with
      | Some err => Ret (inr err)
      | None =>
          if maxconns <? 0 then Panics
          else Ret (inl {| client := {| Geometry := EmptyString; Debug := false;
                                        Verbose := false |};
                           dsn := dsn;
                           conns := Z.to_nat maxconns |})
      end
  end.

(** [Connection()]: as [dbconn], a token is taken and the handle
    returned; giving the token back is left to the caller. *)
Definition Connection (conns : nat) : outcome nat := Budget.dbconn conns.

End Client.

(** ** [Prune]: rows whose file is gone *)
Module Prune.
Import Table.

(** What [Prune] asks of the decoder and of the file system. *)
Class Files : Type := {
  UnmarshalRepo : string -> error + string;    (* json.Unmarshal(str_meta, &meta), then meta.Repo *)
  Id2AbsPath : string -> Z -> error + string;  (* uri.Id2AbsPath(data, wofid) *)
  IsNotExist : string -> bool                  (* os.IsNotExist of the error of os.Stat(wof_path) *)
}.

(** What [Prune] prints. *)
Inductive line : Set :=
| LogPage (offset limit count_rows : Z)        (* the SELECT and the count *)
| LogNotExist (wof_path : string).

Record state : Type := {
  conns : nat;
  tbl : table;
  out : list line
}.

Definition log (l : list line) (w : state) : state :=
  {| conns := conns w; tbl := tbl w; out := out w ++ l |}.

(** [limit := 100000] *)
Definition limit : Z := 100000.

(** [rows.Scan(&wofid, &str_meta)]: an int64 and a string.  The text of
    the error is the driver's. *)
Definition Scan (r : row) : error + (Z * string) :=
  match r c_id, r c_meta with
  | VInt wofid, VText str_meta => inr (wofid, str_meta)
  | _, _ => inl "sql: Scan error"
  end.

(** [SELECT COUNT(id) FROM whosonfirst]: the rows whose id is not NULL. *)
Definition count_rows (t : table) : Z :=
  Z.of_nat (List.length (filter (fun r => negb (value_eqb (r c_id) VNull)) t)).

(** [SELECT id, meta FROM whosonfirst OFFSET offset LIMIT limit], the rows
    in the order of the table. *)
Definition page_of (offset : Z) (t : table) : list row :=
  firstn (Z.to_nat limit) (skipn (Z.to_nat offset) t).

(** [DELETE FROM whosonfirst WHERE id=$1].  On the table of this model
    neither this statement nor the two SELECTs have an error to return. *)
Definition Delete (wofid : Z) (t : table) : table :=
  filter (fun r => negb (has_id (VInt wofid) r)) t.

Section WithFiles.
Context {FS : Files}.
Variable procs : nat.            (* runtime.GOMAXPROCS(0) *)
Variable data_root : string.
Variable delete : bool.

(** The goroutine of a row up to [os.Stat]: the path of its file, when
    the meta text decodes and the path can be made.  [filepath.Join] is
    written without the cleaning it does. *)
Definition path_of (wofid : Z) (str_meta : string) : option string :=
  match UnmarshalRepo str_meta with
  | inl _ => None
  | inr repo =>
      match Id2AbsPath (data_root ++ "/" ++ repo ++ "/data")%string wofid with
      | inl _ => None
      | inr wof_path => Some wof_path
      end
  end.

(** The path the goroutine reports as missing. *)
Definition missing (wofid : Z) (str_meta : string) : option string :=
  match path_of wofid str_meta with
  | Some wof_path => if IsNotExist wof_path then Some wof_path else None
  | None => None
  end.

(** The goroutine started for a row.  With [delete] it takes a token,
    deletes the rows of the id and gives the token back. *)
Definition check (wofid : Z) (str_meta : string) (w : state) : outcome unit * state :=
  match missing wofid str_meta with
  | None => (Ret tt, w)
  | Some wof_path =>
      let w1 := log [LogNotExist wof_path] w in
      if delete then
        match Budget.dbconn (conns w1) with
        | Ret n =>
            (Ret tt, {| conns := Budget.release n; tbl := Delete wofid (tbl w1);
                        out := out w1 |})
        | Blocks => (Blocks, w1)
        | Panics => (Panics, w1)
        | Exits c => (Exits c, w1)
        end
      else (Ret tt, w1)
  end.

(** [for rows.Next() { ... }] and [wg.Wait()] over the rows of one page;
    [blocked] counts the goroutines of the page that wait for ever.  Each
    of them keeps a slot of [throttle], so the loop itself waits for ever
    at [<-throttle] once there are [procs] of them, and [wg.Wait()] does
    when there is one.  A row that cannot be scanned makes [Prune] return
    ([Ret (Some err)]); [Ret None] is the end of the page.  Up to
    GOMAXPROCS goroutines of a page run at once, each touching the shared
    state at its log line and at its DELETE; here they take effect one
    after the other in the order of the rows, which gives the log lines of
    a page an order that in the code is the scheduler's. *)
Fixpoint scan_page (rows : list row) (blocked : nat) (w : state)
  : outcome (option error) * state :=
  match rows with
  | [] => if Nat.eqb blocked 0 then (Ret None, w) else (Blocks, w)
  | r :: rest =>
      match Scan r with
      | inl err => (Ret (Some err), w)
      | inr (wofid, str_meta) =>
          if Nat.leb procs blocked then (Blocks, w)
          else
            match check wofid str_meta w with
            | (Ret _, w') => scan_page rest blocked w'
            | (Blocks, w') => scan_page rest (S blocked) w'
            | (Panics, w') => (Panics, w')
            | (Exits c, w') => (Exits c, w')
            end
      end
  end.

(** [for offset := 0; offset < count_rows; offset += limit]; [fuel] bounds
    the iterations unfolded (lemma [PruneFacts.pages_fuel_enough]). *)
Fixpoint pages (fuel : nat) (offset count : Z) (w : state)
  : outcome (option error) * state :=
  match fuel with
  | O => (Blocks, w)
  | S k =>
      if offset <? count then
        let w1 := log [LogPage offset limit count] w in
        match scan_page (page_of offset (tbl w1)) 0 w1 with
        | (Ret None, w') => pages k (int_add offset limit) count w'
        | other => other
        end
      else (Ret None, w)
  end.

(** [Prune(data_root, delete)].  The token of the first [dbconn] is not
    given back. *)
Definition Prune (w : state) : outcome (option error) * state :=
  match Budget.dbconn (conns w) with
  | Ret n =>
      let w0 := {| conns := n; tbl := tbl w; out := out w |} in
      pages (S (Z.to_nat (count_rows (tbl w0)))) 0 (count_rows (tbl w0)) w0
  | Blocks => (Blocks, w)
  | Panics => (Panics, w)
  | Exits c => (Exits c, w)
  end.

End WithFiles.
End Prune.

(** ** The [-endpoint] flag (flags/endpoints.go) *)
Module Flags.
Import Index.

(** [type Endpoints []string] *)
Definition Endpoints : Set := list string.

Definition newline : string := String (Ascii.ascii_of_nat 10) EmptyString.

(** [strings.Join(elems, sep)] *)
Fixpoint Join (elems : list string) (sep : string) : string :=
  match elems with
  | [] => EmptyString
  | [s] => s
  | s :: rest => (s ++ sep ++ Join rest sep)%string
  end.

(** [func (e *Endpoints) String() string] *)
Definition Endpoints_String (e : Endpoints) : string := Join e newline.

(** [func (e *Endpoints) Set(value string) error]: the value after the
    call and the error returned. *)
Definition Endpoints_Set (e : Endpoints) (value : string) : Endpoints * option error :=
  (e ++ [value], None).

(** [func (e *Endpoints) ToClients() ([]*client.PgisClient, error)] *)
Definition Endpoints_ToClients (e : Endpoints) : list PgisClient * option error :=
  ([], None).

End Flags.

(** ** Sample data: a placetype table, a few features, a store *)
Module Sample.
Import Table Index.

(** Coordinates as integers, printed in decimal. *)
#[local] Instance numbers : JsonNumber := {| number := Z; fmt_number := Itoa |}.

Definition feature (id : Z) (shape : string) (geom_lat geom_lon : option Z) : WOFFeature :=
  {| Index.Id := id;
     geometry_type := shape;
     geometry := "{geometry}";
     GeomToPolygons := [{| OuterRing := [(0, 0); (0, 1); (1, 1); (0, 0)];
                           InteriorRings := [] |}];
     bbox := [Some 0; Some 0; Some 1; Some 1];
     lbl_latitude := None;
     lbl_longitude := None;
     geom_latitude := geom_lat;
     geom_longitude := geom_lon;
     Placetype := "locality";
     wof_repo := Some "whosonfirst-data";
     wof_parent_id := Some 85633793;
     Deprecated := false;
     Superseded := false;
     Name := "Somewhere";
     wof_country := Some "US";
     Hierarchy := [];
     Dumps := "{feature}" |}.

Definition a_point : WOFFeature := feature 101 "Point" (Some 37) (Some (-122)).
Definition a_polygon : WOFFeature := feature 102 "Polygon" (Some 37) (Some (-122)).
Definition a_line : WOFFeature := feature 103 "LineString" (Some 37) (Some (-122)).
Definition a_polygon_without_centroid : WOFFeature := feature 104 "Polygon" None None.
Definition earth : WOFFeature := feature 0 "LineString" None None.

#[local] Instance collaborators : Collaborators :=
  {| UnmarshalFile := fun path =>
       if String.eqb path "101.geojson" then inr a_point
       else if String.eqb path "102.geojson" then inr a_polygon
       else if String.eqb path "103.geojson" then inr a_line
       else if String.eqb path "104.geojson" then inr a_polygon_without_centroid
       else inl "no such file";
     GetPlacetypeByName := fun name =>
       if String.eqb name "locality" then inr 102312319 else inl "Invalid placetype";
     HashGeomFromFeature := fun _ => inr "d41d8cd9";
     marshal_meta := fun m => inr (meta_Name m);
     geojson_ok := fun _ => true |}.

Definition client : PgisClient :=
  {| Geometry := EmptyString; Debug := false; Verbose := false |}.

Definition by_centroid : PgisClient :=
  {| Geometry := "centroid"; Debug := false; Verbose := false |}.


Definition stamp1 : string := "2017-07-01T10:00:00Z".
Definition stamp2 : string := "2017-07-02T10:00:00Z".

(** Values with a geometry and no centroid, as the geometry-only branch of
    the write expects them. *)
Definition geometry_only_values : prepared :=
  {| p_wofid := 102; p_parent := 85633793; p_ptid := 102312319;
     p_is_superseded := 0; p_is_deprecated := 0;
     p_str_meta := "Somewhere"; p_geom_hash := "d41d8cd9"; p_lastmod := stamp1;
     p_str_geom := "{geometry}"; p_str_centroid := EmptyString |}.

(** A fresh client with ten tokens and an empty table. *)
Definition w0 : world := {| conns := 10; tbl := []; logs := [] |}.

(** A store with one row matching by geometry and none by centroid. *)
Definition a_row : Query.PgisRow :=
  {| Query.Id := 101; Query.ParentId := 85633793; Query.PlacetypeId := 102312319;
     Query.IsSuperseded := 0; Query.IsDeprecated := 0; Query.Meta := "{}";
     Query.Geom := "{geometry}"; Query.Centroid := "{centroid}" |}.

Definition one_match : Query.Store :=
  {| Query.QueryCount := fun p _ _ =>
       match p with Query.ByGeom => inr 1 | Query.ByCentroid => inr 0 end;
     Query.QueryPage := fun p _ _ offset _ =>
       match p with
       | Query.ByGeom => if offset =? 0 then inr [inr a_row] else inr []
       | Query.ByCentroid => inr []
       end;
     Query.QueryById := fun _ => inr a_row |}.

(** A store in which nothing matches. *)
Definition no_match : Query.Store :=
  {| Query.QueryCount := fun _ _ _ => inr 0;
     Query.QueryPage := fun _ _ _ _ _ => inr [];
     Query.QueryById := fun _ => inl "sql: no rows in result set" |}.

(** A store whose count by centroid fails. *)
Definition failing_count : Query.Store :=
  {| Query.QueryCount := fun p _ _ =>
       match p with Query.ByGeom => inr 1 | Query.ByCentroid => inl "pq: canceling statement" end;
     Query.QueryPage := fun _ _ _ _ _ => inr [];
     Query.QueryById := fun _ => inr a_row |}.

End Sample.


(** ** More sample data: features with missing members, a strict store *)
Module Fixtures.
Import Table Index.
#[local] Existing Instance Sample.numbers.

(** A Point without wof:parent_id and wof:country. *)
Definition orphan : WOFFeature :=
  {| Index.Id := 105;
     geometry_type := "Point";
     geometry := "{point}";
     GeomToPolygons := [];
     bbox := [Some 0; Some 0; Some 0; Some 0];
     lbl_latitude := None;
     lbl_longitude := None;
     geom_latitude := Some 37;
     geom_longitude := Some (-122);
     Placetype := "locality";
     wof_repo := Some "whosonfirst-data";
     wof_parent_id := None;
     Deprecated := false;
     Superseded := true;
     Name := "Nowhere";
     wof_country := None;
     Hierarchy := [];
     Dumps := "{feature}" |}.

(** A polygon whose bbox member has two numbers only. *)
Definition boxless : WOFFeature :=
  {| Index.Id := 106;
     geometry_type := "Polygon";
     geometry := "{geometry}";
     GeomToPolygons := [];
     bbox := [Some 0; Some 1];
     lbl_latitude := Some 37;
     lbl_longitude := Some (-122);
     geom_latitude := None;
     geom_longitude := None;
     Placetype := "locality";
     wof_repo := Some "whosonfirst-data";
     wof_parent_id := Some 85633793;
     Deprecated := false;
     Superseded := false;
     Name := "Somewhere";
     wof_country := Some "US";
     Hierarchy := [];
     Dumps := "{feature}" |}.

Definition by_bbox : PgisClient :=
  {| Geometry := "bbox"; Debug := false; Verbose := false |}.

Definition by_tiles : PgisClient :=
  {| Geometry := "tiles"; Debug := false; Verbose := false |}.

(** The sample collaborators with a store that refuses the text
    [{geometry}] as GeoJSON. *)
Definition strict : Collaborators :=
  {| UnmarshalFile := @UnmarshalFile _ Sample.collaborators;
     GetPlacetypeByName := @GetPlacetypeByName _ Sample.collaborators;
     HashGeomFromFeature := @HashGeomFromFeature _ Sample.collaborators;
     marshal_meta := fun m => inr (meta_Name m ++ "/" ++ meta_Country m)%string;
     geojson_ok := fun s => negb (String.eqb s "{geometry}") |}.

(** A table of two rows, and a file system in which the file of the
    second is gone. *)
Definition stored_row (id : Z) : row :=
  assign [(c_id, VInt id); (c_meta, VText "{}")] empty_row.

Definition stored : table := [stored_row 101; stored_row 102].

Definition files : Prune.Files :=
  {| Prune.UnmarshalRepo := fun str_meta =>
       if String.eqb str_meta EmptyString then inl "unexpected end of JSON input"
       else inr "whosonfirst-data";
     Prune.Id2AbsPath := fun data wofid => inr (data ++ "/" ++ Itoa wofid ++ ".geojson")%string;
     Prune.IsNotExist := fun wof_path =>
       String.eqb wof_path "/data/whosonfirst-data/data/102.geojson" |}.

(** A file system in which no file is left. *)
Definition no_files : Prune.Files :=
  {| Prune.UnmarshalRepo := fun _ => inr "whosonfirst-data";
     Prune.Id2AbsPath := fun data wofid => inr (data ++ "/" ++ Itoa wofid ++ ".geojson")%string;
     Prune.IsNotExist := fun _ => true |}.

(** A full page of rows, with the ids from 1 on. *)
Definition full_page : table :=
  map stored_row (map Z.of_nat (seq 1 (Z.to_nat Prune.limit))).

End Fixtures.
(** * Properties *)

(** ** Paging lemmas *)
Module PagingFacts.
Import Paging.

Lemma ceil_div_exact a b : 0 < b -> (b | a) -> ceil_div a b = a / b.
Proof.
  intros Hb [k ->]. unfold ceil_div.
  rewrite <- Z.mul_opp_l, !Z.div_mul by lia. lia.
Qed.

Lemma ceil_div_inexact a b : 0 < b -> ~ (b | a) -> ceil_div a b = a / b + 1.
Proof.
  intros Hb Hnd. unfold ceil_div.
  assert (Hm : a mod b <> 0).
  { intros E. apply Hnd. apply Z.mod_divide; lia. }
  pose proof (Z.div_mod a b ltac:(lia)) as E.
  pose proof (Z.mod_pos_bound a b Hb) as B.
  assert (- a = (- (a / b) - 1) * b + (b - a mod b)) by lia.
  assert ((- a) / b = - (a / b) - 1).
  { symmetry. apply Z.div_unique with (r := b - a mod b); lia. }
  lia.
Qed.

(** Number of loop iterations from [offset] on, without wrap-around. *)
Lemma offsets_from_length fuel : forall offset count limit,
  1 <= limit -> 0 <= offset -> count + limit <= int_max ->
  count - offset < Z.of_nat fuel ->
  Z.of_nat (List.length (offsets_from fuel offset count limit)) =
    if offset <=? count then (count - offset) / limit + 1 else 0.
Proof.
  induction fuel as [|k IH]; intros offset count limit Hl Ho Hmax Hf.
  - simpl. destruct (Z.leb_spec offset count); lia.
  - cbn [offsets_from]. destruct (Z.leb_spec offset count) as [Hle|Hgt]; [|reflexivity].
    cbn [List.length]. rewrite Nat2Z.inj_succ.
    unfold int_add. rewrite int_wrap_small by (unfold int_min; lia).
    rewrite IH by lia.
    destruct (Z.leb_spec (offset + limit) count) as [Hle'|Hgt'].
    + replace (count - offset) with ((count - (offset + limit)) + 1 * limit) by lia.
      rewrite Z.div_add by lia. lia.
    + rewrite (Z.div_small (count - offset)) by lia. lia.
Qed.

(** More fuel than [count_expected + 1] unfolds no further iteration. *)
Lemma offsets_fuel_enough fuel : forall offset count limit,
  1 <= limit -> 0 <= offset -> count + limit <= int_max ->
  count - offset < Z.of_nat fuel ->
  offsets_from (S fuel) offset count limit = offsets_from fuel offset count limit.
Proof.
  induction fuel as [|k IH]; intros offset count limit Hl Ho Hmax Hf.
  - simpl. destruct (Z.leb_spec offset count); [lia|reflexivity].
  - change (offsets_from (S (S k)) offset count limit)
      with (if offset <=? count
            then offset :: offsets_from (S k) (int_add offset limit) count limit
            else []).
    cbn [offsets_from]. destruct (Z.leb_spec offset count) as [Hle|Hgt]; [|reflexivity].
    f_equal. unfold int_add. rewrite int_wrap_small by (unfold int_min; lia).
    apply IH; lia.
Qed.

Lemma offsets_length count limit :
  1 <= limit -> 0 <= count -> count + limit <= int_max ->
  Z.of_nat (List.length (offsets count limit)) = count / limit + 1.
Proof.
  intros Hl Hc Hmax. unfold offsets.
  rewrite offsets_from_length by lia.
  destruct (Z.leb_spec 0 count); [|lia]. now rewrite Z.sub_0_r.
Qed.

Lemma iters_spec count limit :
  1 <= limit ->
  iters count limit = if count mod limit =? 0 then count / limit else count / limit + 1.
Proof.
  intros Hl. unfold iters.
  destruct (Z.eqb_spec (count mod limit) 0) as [E|E].
  - apply ceil_div_exact; [lia|]. apply Z.mod_divide; lia.
  - apply ceil_div_inexact; [lia|]. intros D. apply E. apply Z.mod_divide in D; lia.
Qed.

(** C2 (the code misses the claim by one): for a page size [P >= 1] and an
    expected count [N >= 0], both below 2^53 (where the float64 computation
    of [iters] is exact), FetchIntersectsAsync starts one goroutine for
    each offset 0, P, 2P, ... up to and including N, that is, N / P + 1 of
    them, while the number of completion signals it waits for is
    iters = ceil(N / P).  The two agree unless P divides N; when P divides N
    (N = 0 included) one goroutine more is started than is waited for. *)
Theorem fetch_spawned_versus_drained (p : Query.partition) (N P : Z) :
  1 <= P < 2 ^ 53 -> 0 <= N < 2 ^ 53 ->
  Z.of_nat (List.length (Intersects.spawn p N P)) = N / P + 1 /\
  iters N P = (if N mod P =? 0 then N / P else N / P + 1) /\
  ((P | N) -> Z.of_nat (List.length (Intersects.spawn p N P)) = iters N P + 1).
Proof.
  intros HP HN.
  assert (Hmax : N + P <= int_max).
  { unfold int_max. change (2 ^ 53) with 9007199254740992 in *.
    change (2 ^ 63) with 9223372036854775808. lia. }
  assert (L : Z.of_nat (List.length (Intersects.spawn p N P)) = N / P + 1).
  { unfold Intersects.spawn. rewrite length_map. apply offsets_length; lia. }
  split; [exact L|]. split; [apply iters_spec; lia|].
  intros D. rewrite L, iters_spec by lia.
  apply Z.mod_divide in D; [|lia]. rewrite D. reflexivity.
Qed.

(** The default page size with exactly one page of rows: two goroutines
    are started, one completion signal is waited for. *)
Lemma fetch_spawned_versus_drained_witness :
  1 <= 1000 < 2 ^ 53 /\ 0 <= 1000 < 2 ^ 53 /\
  Z.of_nat (List.length (Intersects.spawn Query.ByGeom 1000 1000)) = 2 /\
  iters 1000 1000 = 1.
Proof.
  pose proof (fetch_spawned_versus_drained Query.ByGeom (N := 1000) (P := 1000)) as H.
  assert (H1 : 1 <= 1000 < 2 ^ 53) by (split; [lia|reflexivity]).
  assert (H2 : 0 <= 1000 < 2 ^ 53) by (split; [lia|reflexivity]).
  specialize (H H1 H2). destruct H as (Ha & Hb & _).
  split; [exact H1|]. split; [exact H2|]. split; assumption.
Defined.

End PagingFacts.


(** ** The upsert on a keyed table *)
Module TableFacts.
Import Table.

Lemma value_eqb_eq a b : value_eqb a b = true <-> a = b.
Proof.
  destruct a, b; simpl; split; intros H; try discriminate; try reflexivity.
  - apply Z.eqb_eq in H. now subst.
  - injection H as ->. apply Z.eqb_refl.
  - apply String.eqb_eq in H. now subst.
  - injection H as ->. apply String.eqb_refl.
  - apply String.eqb_eq in H. now subst.
  - injection H as ->. apply String.eqb_refl.
Qed.

Lemma value_eqb_neq a b : value_eqb a b = false <-> a <> b.
Proof.
  split.
  - intros H E. apply value_eqb_eq in E. congruence.
  - intros H. destruct (value_eqb a b) eqn:E; [|reflexivity].
    apply value_eqb_eq in E. contradiction.
Qed.

Section Upsert.
Variables (k : value) (new : row) (upd : row -> row).
Hypothesis new_id : new c_id = k.
Hypothesis upd_id : forall r, upd r c_id = r c_id.

Lemma map_ids (t : table) :
  map (fun r : row => r c_id) (map (fun r => if has_id k r then upd r else r) t)
  = map (fun r : row => r c_id) t.
Proof.
  rewrite map_map. apply map_ext. intros r.
  destruct (has_id k r); [apply upd_id|reflexivity].
Qed.

Lemma existsb_false_not_in (t : table) :
  existsb (has_id k) t = false -> ~ In k (map (fun r : row => r c_id) t).
Proof.
  intros E Hin. apply in_map_iff in Hin as (r & Hr & Hin).
  assert (existsb (has_id k) t = true).
  { apply existsb_exists. exists r. split; [exact Hin|].
    unfold has_id. now apply value_eqb_eq. }
  congruence.
Qed.

Lemma upsert_keyed (t : table) : keyed t -> keyed (upsert_rows k new upd t).
Proof.
  unfold keyed, upsert_rows. intros K.
  destruct (existsb (has_id k) t) eqn:E.
  - now rewrite map_ids.
  - rewrite map_app. simpl. rewrite new_id.
    apply NoDup_app; [exact K | repeat constructor; simpl; tauto | ].
    intros x Hx [<-|[]]. now apply (existsb_false_not_in t).
Qed.

Lemma filter_absent (t : table) :
  existsb (has_id k) t = false -> filter (has_id k) t = [].
Proof.
  induction t as [|r t IH]; simpl; [reflexivity|].
  intros E. apply orb_false_iff in E as [E1 E2]. rewrite E1. auto.
Qed.

Lemma map_absent (t : table) :
  existsb (has_id k) t = false ->
  map (fun r => if has_id k r then upd r else r) t = t.
Proof.
  induction t as [|r t IH]; simpl; [reflexivity|].
  intros E. apply orb_false_iff in E as [E1 E2]. rewrite E1. f_equal. auto.
Qed.

Lemma has_id_upd r : has_id k (upd r) = has_id k r.
Proof. unfold has_id. now rewrite upd_id. Qed.

(** On a keyed table the update touches the one row with the id. *)
Lemma update_present (t : table) :
  keyed t -> existsb (has_id k) t = true ->
  exists r0, filter (has_id k) t = [r0] /\
    filter (has_id k) (map (fun r => if has_id k r then upd r else r) t) = [upd r0].
Proof.
  unfold keyed. induction t as [|r t IH]; simpl; intros K E; [discriminate|].
  inversion K as [|x l Hnotin K' [Hx Hl]]. clear x l Hx Hl.
  destruct (has_id k r) eqn:Hr.
  - assert (Hk : r c_id = k) by (now apply value_eqb_eq).
    assert (Ht : existsb (has_id k) t = false).
    { destruct (existsb (has_id k) t) eqn:Et; [|reflexivity].
      exfalso. apply Hnotin. apply existsb_exists in Et as (r' & Hin & Hr').
      apply in_map_iff. exists r'. split; [|exact Hin].
      apply value_eqb_eq in Hr'. congruence. }
    exists r. simpl. rewrite has_id_upd, Hr, (map_absent t Ht), (filter_absent t Ht).
    split; reflexivity.
  - simpl in E. simpl. rewrite Hr. apply IH; assumption.
Qed.

(** After the upsert exactly one row has the id: the new row when the id
    was absent, the updated one otherwise. *)
Lemma upsert_rows_of (t : table) :
  keyed t ->
  exists r, filter (has_id k) (upsert_rows k new upd t) = [r] /\
            ((filter (has_id k) t = [] /\ r = new) \/
             (exists r0, filter (has_id k) t = [r0] /\ r = upd r0)).
Proof.
  unfold upsert_rows. intros K.
  destruct (existsb (has_id k) t) eqn:E.
  - destruct (@update_present t K E) as (r0 & H0 & H1).
    exists (upd r0). split; [exact H1|]. right. now exists r0.
  - exists new. pose proof (filter_absent t E) as F.
    rewrite filter_app, F. simpl.
    unfold has_id at 1. rewrite new_id.
    assert (value_eqb k k = true) as -> by (now apply value_eqb_eq).
    split; [reflexivity|]. left. split; reflexivity.
Qed.

(** The rows stored under another id are left as they were. *)
Lemma upsert_rows_other (k' : value) (t : table) :
  k' <> k ->
  filter (has_id k') (upsert_rows k new upd t) = filter (has_id k') t.
Proof.
  intros Hne. unfold upsert_rows.
  assert (Hnew : has_id k' new = false).
  { unfold has_id. rewrite new_id. apply value_eqb_neq. congruence. }
  destruct (existsb (has_id k) t) eqn:E.
  - clear E. induction t as [|r t IH]; simpl; [reflexivity|].
    destruct (has_id k r) eqn:Hr.
    + assert (Hk : r c_id = k) by (now apply value_eqb_eq).
      assert (H1 : has_id k' r = false).
      { unfold has_id. rewrite Hk. apply value_eqb_neq. congruence. }
      assert (H2 : has_id k' (upd r) = false).
      { unfold has_id. rewrite upd_id, Hk. apply value_eqb_neq. congruence. }
      rewrite H1, H2. exact IH.
    + destruct (has_id k' r); [f_equal|]; exact IH.
  - rewrite filter_app. simpl. rewrite Hnew. apply app_nil_r.
Qed.
End Upsert.

End TableFacts.

(** ** [IndexFeature] *)
Module IndexFacts.
Import Table Index TableFacts.

Lemma nonempty_true s : nonempty s = true <-> s <> EmptyString.
Proof.
  unfold nonempty. destruct (String.eqb_spec s EmptyString); simpl; split;
    intros; congruence.
Qed.

Lemma nonempty_false s : nonempty s = false <-> s = EmptyString.
Proof.
  unfold nonempty. destruct (String.eqb_spec s EmptyString); simpl; split;
    intros; congruence.
Qed.

Section WithCollaborators.
Context {JN : JsonNumber} {CO : Collaborators}.

Lemma marshal_struct_nonempty t c : marshal_struct t c <> EmptyString.
Proof. unfold marshal_struct. simpl. discriminate. Qed.

(** Whatever the shape, a centroid that was derived is not empty. *)
Lemma derive_centroid_nonempty f c0 c :
  derive_centroid f c0 = inr c -> c <> EmptyString.
Proof.
  unfold derive_centroid.
  destruct (String.eqb_spec c0 EmptyString) as [E|E].
  - destruct (lbl_latitude f), (lbl_longitude f), (geom_latitude f), (geom_longitude f);
      intros H; inversion H; apply marshal_struct_nonempty.
  - intros H; inversion H; subst; exact E.
Qed.

(** What a successful [prepare] went through. *)
Lemma prepare_inv client f lastmod l p :
  prepare client f lastmod = Ret (l, inr p) ->
  exists l0 c0,
    geometry_filter client f = Ret (l0, inr (p_str_geom p, c0)) /\
    derive_centroid f c0 = inr (p_str_centroid p) /\
    GetPlacetypeByName (Placetype f) = inr (p_ptid p) /\
    p_wofid p = Index.Id f /\ p_lastmod p = lastmod.
Proof.
  unfold prepare.
  destruct (geometry_filter client f) as [[l0 [e|[sg c0]]]| | |]; try discriminate.
  destruct (derive_centroid f c0) as [e|sc] eqn:Ec; try discriminate.
  destruct (GetPlacetypeByName (Placetype f)) as [e|ptid] eqn:Ep; try discriminate.
  destruct (wof_repo f) as [repo|]; try discriminate.
  destruct (String.eqb repo EmptyString); try discriminate.
  destruct (marshal_meta _) as [e|str_meta]; try discriminate.
  destruct (HashGeomFromFeature _) as [e|h]; try discriminate.
  intros H. inversion H; subst; clear H. simpl.
  exists l0, c0. repeat split; assumption.
Qed.

Lemma prepare_centroid_nonempty client f lastmod l p :
  prepare client f lastmod = Ret (l, inr p) -> p_str_centroid p <> EmptyString.
Proof.
  intros H. apply prepare_inv in H as (l0 & c0 & _ & Hc & _).
  now apply derive_centroid_nonempty in Hc.
Qed.

(** With a centroid, the branch taken is never the geometry-only one nor
    the empty one. *)
Lemma select_shape_with_centroid g c :
  c <> EmptyString ->
  select_shape g c = Some (if nonempty g then GeomAndCentroid else CentroidOnly).
Proof.
  intros Hc. apply nonempty_true in Hc. unfold select_shape. rewrite Hc.
  destruct (nonempty g); reflexivity.
Qed.

(** The statement without a centroid column value is rejected: ten
    columns, nine values. *)
Lemma Exec_GeomOnly g c args t :
  Exec geojson_ok (shape_sql GeomOnly g c) args t
  = inl "INSERT has more target columns than expressions".
Proof. reflexivity. Qed.

Lemma Exec_shape sh p t :
  forall t', Exec geojson_ok (shape_sql sh (p_str_geom p) (p_str_centroid p))
                  (exec_args p) t = inr t' ->
  sh <> GeomOnly /\ accepted sh p = true /\
  t' = upsert_rows (VInt (p_wofid p)) (new_row sh p) (updated sh p) t.
Proof.
  intros t'. destruct sh; [| rewrite Exec_GeomOnly; discriminate |].
  - unfold Exec, accepted. cbn.
    destruct (geojson_ok (p_str_geom p)); [|discriminate].
    destruct (geojson_ok (p_str_centroid p)); [|discriminate].
    cbn. intros H. split; [discriminate|]. split; [reflexivity|].
    unfold upsert_rows. destruct (existsb _ t); inversion H; reflexivity.
  - unfold Exec, accepted. cbn.
    destruct (geojson_ok (p_str_centroid p)); [|discriminate].
    cbn. intros H. split; [discriminate|]. split; [reflexivity|].
    unfold upsert_rows. destruct (existsb _ t); inversion H; reflexivity.
Qed.

Lemma new_row_id sh p : new_row sh p c_id = VInt (p_wofid p).
Proof. destruct sh; reflexivity. Qed.

Lemma updated_id sh p r : updated sh p r c_id = r c_id.
Proof. destruct sh; reflexivity. Qed.

Lemma new_row_holds sh p :
  sh <> GeomOnly -> (sh = CentroidOnly -> p_str_geom p = EmptyString) ->
  holds p (new_row sh p).
Proof.
  intros H1 H2. destruct sh; try congruence; unfold holds; cbn;
    repeat split; try reflexivity.
  intros H. exfalso. apply H. now apply H2.
Qed.

Lemma updated_holds sh p r :
  sh <> GeomOnly -> (sh = CentroidOnly -> p_str_geom p = EmptyString) ->
  r c_id = VInt (p_wofid p) ->
  holds p (updated sh p r).
Proof.
  intros H1 H2 Hid. destruct sh; try congruence; unfold holds; cbn;
    repeat split; try reflexivity; try assumption.
  intros H. exfalso. apply H. now apply H2.
Qed.

(** The write, when it returns: one accepted statement of a shape with a
    centroid, the token given back, nothing logged. *)
Lemma write_inv p w w' :
  p_str_centroid p <> EmptyString ->
  write p w = (Ret None, w') ->
  let sh := if nonempty (p_str_geom p) then GeomAndCentroid else CentroidOnly in
  accepted sh p = true /\
  conns w' = conns w /\ logs w' = logs w /\
  tbl w' = upsert_rows (VInt (p_wofid p)) (new_row sh p) (updated sh p) (tbl w).
Proof.
  intros Hc. unfold write, upsert_sql.
  rewrite (select_shape_with_centroid (p_str_geom p) Hc).
  destruct (conns w) as [|n] eqn:En; simpl; [discriminate|].
  set (sh := if nonempty (p_str_geom p) then GeomAndCentroid else CentroidOnly).
  destruct (Exec _ _ _ _) as [e|t'] eqn:Ex; [discriminate|].
  intros H. inversion H; subst; clear H. simpl.
  apply Exec_shape in Ex as (_ & Ha & Ht).
  unfold Budget.release. repeat split; assumption.
Qed.

(** What a returned, effective [IndexFeature] leaves in the table. *)
Lemma IndexFeature_written client f lastmod w w' :
  Debug client = false -> Index.Id f <> 0 -> keyed (tbl w) ->
  IndexFeature client f lastmod w = (Ret None, w') ->
  exists l p sh r,
    prepare client f lastmod = Ret (l, inr p) /\
    select_shape (p_str_geom p) (p_str_centroid p) = Some sh /\
    sh <> GeomOnly /\
    rows_of (Index.Id f) (tbl w') = [r] /\ holds p r /\
    keyed (tbl w') /\
    (forall k, k <> Index.Id f -> rows_of k (tbl w') = rows_of k (tbl w)) /\
    conns w' = conns w /\
    (rows_of (Index.Id f) (tbl w) = [] -> sh = CentroidOnly -> r c_geom = VNull).
Proof.
  intros Hd Hid K. unfold IndexFeature.
  destruct (Z.eqb_spec (Index.Id f) 0) as [E|_]; [contradiction|].
  destruct (prepare client f lastmod) as [[l [e|p]]| | |] eqn:Ep; try discriminate.
  rewrite Hd. intros Hw.
  pose proof (prepare_centroid_nonempty _ _ _ Ep) as Hc.
  pose proof (prepare_inv _ _ _ Ep) as (l0 & c0 & _ & _ & _ & Hwid & _).
  apply (write_inv _ _ Hc) in Hw. cbv zeta in Hw.
  set (sh := if nonempty (p_str_geom p) then GeomAndCentroid else CentroidOnly) in *.
  destruct Hw as (Ha & Hconns & Hlogs & Ht).
  assert (Hsh : sh <> GeomOnly) by (subst sh; destruct (nonempty _); discriminate).
  assert (Hg : sh = CentroidOnly -> p_str_geom p = EmptyString).
  { subst sh. destruct (nonempty (p_str_geom p)) eqn:N; [discriminate|].
    intros _. now apply nonempty_false. }
  assert (Kw : keyed (tbl (say l w))) by exact K.
  destruct (@upsert_rows_of (VInt (p_wofid p)) (new_row sh p) (updated sh p)
              (new_row_id sh p) (updated_id sh p) (tbl (say l w)) Kw)
    as (r & Hr & Hcase).
  exists l, p, sh, r. rewrite <- Hwid.
  split; [reflexivity|]. split; [now apply select_shape_with_centroid|].
  split; [exact Hsh|]. unfold rows_of. rewrite Ht.
  split; [exact Hr|]. split.
  { destruct Hcase as [[_ ->]|(r0 & H0 & ->)].
    - now apply new_row_holds.
    - apply updated_holds; try assumption.
      assert (Hin : In r0 (filter (has_id (VInt (p_wofid p))) (tbl (say l w))))
        by (rewrite H0; now left).
      apply filter_In in Hin as [_ Hin]. now apply value_eqb_eq in Hin. }
  split; [apply upsert_keyed; [apply new_row_id|apply updated_id|exact Kw]|].
  split.
  { intros k Hk. apply upsert_rows_other; [apply new_row_id|apply updated_id|].
    congruence. }
  split; [exact Hconns|].
  intros Hnone Hco. destruct Hcase as [[_ ->]|(r0 & H0 & _)].
  - rewrite Hco. reflexivity.
  - simpl in H0. rewrite Hnone in H0. discriminate.
Qed.


Lemma default_geometry_cases f :
  (geometry_type f = "MultiPolygon" ->
     default_geometry f = ([], inr (geometry f, EmptyString))) /\
  (geometry_type f = "Polygon" ->
     default_geometry f = ([], inr (marshal_multi (GeomToPolygons f), EmptyString))) /\
  (geometry_type f = "Point" ->
     default_geometry f = ([], inr (EmptyString, geometry f))) /\
  (geometry_type f <> "MultiPolygon" -> geometry_type f <> "Polygon" ->
   geometry_type f <> "Point" ->
     default_geometry f = ([LogGeomTypeIs (geometry_type f)], inl "DO SOMETHING HERE")).
Proof.
  unfold default_geometry. repeat split.
  - intros ->. reflexivity.
  - intros ->. reflexivity.
  - intros ->. reflexivity.
  - intros H1 H2 H3.
    destruct (String.eqb_spec (geometry_type f) "MultiPolygon"); [contradiction|].
    destruct (String.eqb_spec (geometry_type f) "Polygon"); [contradiction|].
    destruct (String.eqb_spec (geometry_type f) "Point"); [contradiction|].
    reflexivity.
Qed.

Lemma derive_centroid_from_coordinates f c :
  derive_centroid f EmptyString = inr c ->
  exists lon lat, c = marshal_point lon lat /\
    ((lbl_latitude f = Some lat /\ lbl_longitude f = Some lon) \/
     (geom_latitude f = Some lat /\ geom_longitude f = Some lon)).
Proof.
  unfold derive_centroid. simpl.
  destruct (lbl_latitude f) as [a|], (lbl_longitude f) as [b|],
           (geom_latitude f) as [a'|], (geom_longitude f) as [b'|];
    intros H; inversion H; subst; eauto 6.
Qed.

(** The label coordinates come first: the geom: coordinates are used
    when one of them is missing. *)
Lemma derive_centroid_label_first f c :
  derive_centroid f EmptyString = inr c ->
  exists lon lat, c = marshal_point lon lat /\
    ((lbl_latitude f = Some lat /\ lbl_longitude f = Some lon) \/
     ((lbl_latitude f = None \/ lbl_longitude f = None) /\
      geom_latitude f = Some lat /\ geom_longitude f = Some lon)).
Proof.
  unfold derive_centroid. simpl.
  destruct (lbl_latitude f) as [a|], (lbl_longitude f) as [b|],
           (geom_latitude f) as [a'|], (geom_longitude f) as [b'|];
    intros H; inversion H; subst; eauto 8.
Qed.

(** An accepted statement of a shape with a centroid is the upsert of
    its values. *)
Lemma Exec_accepted sh p t :
  sh <> GeomOnly -> accepted sh p = true ->
  Exec geojson_ok (shape_sql sh (p_str_geom p) (p_str_centroid p)) (exec_args p) t
  = inr (upsert_rows (VInt (p_wofid p)) (new_row sh p) (updated sh p) t).
Proof.
  intros Hsh Ha. destruct sh; [| contradiction |]; unfold Exec, accepted in *; cbn in *.
  - apply andb_prop in Ha as [Hg Hc]. rewrite Hg, Hc. cbn.
    unfold upsert_rows. destruct (existsb _ t); reflexivity.
  - rewrite Ha. cbn. unfold upsert_rows. destruct (existsb _ t); reflexivity.
Qed.

(** The write with a token at hand and a statement the store accepts:
    it returns nil, the token is back, the table is upserted. *)
Lemma write_returns p w n :
  p_str_centroid p <> EmptyString -> conns w = S n ->
  geojson_ok (p_str_centroid p) = true ->
  (p_str_geom p <> EmptyString -> geojson_ok (p_str_geom p) = true) ->
  let sh := if nonempty (p_str_geom p) then GeomAndCentroid else CentroidOnly in
  write p w = (Ret None,
               {| conns := S n;
                  tbl := upsert_rows (VInt (p_wofid p)) (new_row sh p) (updated sh p) (tbl w);
                  logs := logs w |}).
Proof.
  intros Hc Hn Hok Hgeom sh. unfold write, upsert_sql.
  rewrite (select_shape_with_centroid (p_str_geom p) Hc). fold sh.
  rewrite Hn. cbn [Budget.dbconn option_map exec_sql].
  rewrite Exec_accepted; [reflexivity| |].
  - subst sh. destruct (nonempty _); discriminate.
  - subst sh. unfold accepted. destruct (nonempty (p_str_geom p)) eqn:N; [|exact Hok].
    apply nonempty_true in N. rewrite (Hgeom N), Hok. reflexivity.
Qed.

(** C7 (as amended): with the default geometry mode, a Point feature is
    prepared with an empty geometry and a non-empty centroid (the text of
    its geometry member, when that is not empty); a Polygon or
    MultiPolygon feature with a non-empty geometry and the centroid
    marshalled from its label coordinates, or else (when one of them is
    missing) from its geom: coordinates.
    When the feature is not skipped (id other than 0), its row is prepared
    without error, the run is not a dry run, a token is at hand and the
    store accepts the GeoJSON texts of the statement, IndexFeature
    returns nil, gives the token back and, on a
    table keyed by id, leaves exactly one row for the id and the rows of
    the other ids as they were; the row carries the prepared values, for a
    Polygon or MultiPolygon the non-empty geometry; for a Point its geom
    is NULL when the id was not stored before, and otherwise the geom of
    the row that was stored: the centroid-only statement does not name
    geom.  For any other shape the preparation fails, IndexFeature returns
    that error for every feature it does not skip, and the table and the
    budget are left as they were. *)
Theorem geometry_shape_dispatch client f lastmod w :
  Geometry client = EmptyString ->
  (geometry_type f = "Point" ->
     forall l p, prepare client f lastmod = Ret (l, inr p) ->
       p_str_geom p = EmptyString /\ p_str_centroid p <> EmptyString /\
       (geometry f <> EmptyString -> p_str_centroid p = geometry f)) /\
  (geometry_type f = "Polygon" \/
   (geometry_type f = "MultiPolygon" /\ geometry f <> EmptyString) ->
     forall l p, prepare client f lastmod = Ret (l, inr p) ->
       p_str_geom p <> EmptyString /\ p_str_centroid p <> EmptyString /\
       exists lon lat, p_str_centroid p = marshal_point lon lat /\
         ((lbl_latitude f = Some lat /\ lbl_longitude f = Some lon) \/
          ((lbl_latitude f = None \/ lbl_longitude f = None) /\
           geom_latitude f = Some lat /\ geom_longitude f = Some lon))) /\
  (forall n l p,
     Index.Id f <> 0 -> Debug client = false -> keyed (tbl w) -> conns w = S n ->
     prepare client f lastmod = Ret (l, inr p) ->
     geojson_ok (p_str_centroid p) = true ->
     (p_str_geom p <> EmptyString -> geojson_ok (p_str_geom p) = true) ->
     exists w' r,
       IndexFeature client f lastmod w = (Ret None, w') /\
       conns w' = conns w /\ logs w' = logs w ++ l /\
       rows_of (Index.Id f) (tbl w') = [r] /\ holds p r /\
       (forall k, k <> Index.Id f -> rows_of k (tbl w') = rows_of k (tbl w)) /\
       (geometry_type f = "Polygon" \/
        (geometry_type f = "MultiPolygon" /\ geometry f <> EmptyString) ->
          r c_geom = VGeom (p_str_geom p) /\ p_str_geom p <> EmptyString) /\
       (geometry_type f = "Point" ->
          (rows_of (Index.Id f) (tbl w) = [] /\ r c_geom = VNull) \/
          (exists r0, rows_of (Index.Id f) (tbl w) = [r0] /\ r c_geom = r0 c_geom))) /\
  (geometry_type f <> "MultiPolygon" -> geometry_type f <> "Polygon" ->
   geometry_type f <> "Point" ->
     prepare client f lastmod
     = Ret ([LogGeomTypeIs (geometry_type f)], inl "DO SOMETHING HERE") /\
     (Index.Id f <> 0 ->
      IndexFeature client f lastmod w
        = (Ret (Some "DO SOMETHING HERE"),
           say [LogGeomTypeIs (geometry_type f)] w)) /\
     tbl (snd (IndexFeature client f lastmod w)) = tbl w /\
     conns (snd (IndexFeature client f lastmod w)) = conns w).
Proof.
  intros Hg.
  destruct (default_geometry_cases f) as (Hmp & Hpoly & Hpt & Hother).
  assert (Hgf : geometry_filter client f = Ret (default_geometry f)).
  { unfold geometry_filter. rewrite Hg. reflexivity. }
  assert (Point : geometry_type f = "Point" ->
            forall l p, prepare client f lastmod = Ret (l, inr p) ->
              p_str_geom p = EmptyString /\ p_str_centroid p <> EmptyString /\
              (geometry f <> EmptyString -> p_str_centroid p = geometry f)).
  { intros Ht l p Hp.
    pose proof (prepare_centroid_nonempty _ _ _ Hp) as Hc.
    apply prepare_inv in Hp as (l0 & c0 & Hf & Hd & _).
    rewrite Hgf, (Hpt Ht) in Hf. inversion Hf as [[Hl Hs Hc0]]. subst c0.
    split; [reflexivity|]. split; [exact Hc|].
    intros Hne. unfold derive_centroid in Hd.
    destruct (String.eqb_spec (geometry f) EmptyString) as [E|_]; [contradiction|].
    now inversion Hd. }
  assert (Poly : geometry_type f = "Polygon" \/
                 (geometry_type f = "MultiPolygon" /\ geometry f <> EmptyString) ->
            forall l p, prepare client f lastmod = Ret (l, inr p) ->
              p_str_geom p <> EmptyString /\ p_str_centroid p <> EmptyString /\
              exists lon lat, p_str_centroid p = marshal_point lon lat /\
                ((lbl_latitude f = Some lat /\ lbl_longitude f = Some lon) \/
                 ((lbl_latitude f = None \/ lbl_longitude f = None) /\
                  geom_latitude f = Some lat /\ geom_longitude f = Some lon))).
  { intros Ht l p Hp.
    pose proof (prepare_centroid_nonempty _ _ _ Hp) as Hc.
    apply prepare_inv in Hp as (l0 & c0 & Hf & Hd & _).
    rewrite Hgf in Hf.
    destruct Ht as [Ht|[Ht Hne]].
    + rewrite (Hpoly Ht) in Hf. inversion Hf as [[Hl Hs Hc0]]. subst c0.
      split; [apply marshal_struct_nonempty|]. split; [exact Hc|].
      now apply derive_centroid_label_first.
    + rewrite (Hmp Ht) in Hf. inversion Hf as [[Hl Hs Hc0]]. subst c0.
      split; [exact Hne|]. split; [exact Hc|].
      now apply derive_centroid_label_first. }
  split; [exact Point|]. split; [exact Poly|]. split.
  - intros n l p Hid Hdbg K Hn Hp Hok Hgeom.
    pose proof (prepare_centroid_nonempty _ _ _ Hp) as Hc.
    pose proof (prepare_inv _ _ _ Hp) as (l0 & c0 & _ & _ & _ & Hwid & _).
    set (sh := if nonempty (p_str_geom p) then GeomAndCentroid else CentroidOnly).
    assert (Hrun : IndexFeature client f lastmod w
                   = (Ret None,
                      {| conns := S n;
                         tbl := upsert_rows (VInt (p_wofid p)) (new_row sh p)
                                            (updated sh p) (tbl w);
                         logs := logs w ++ l |})).
    { unfold IndexFeature.
      destruct (Z.eqb_spec (Index.Id f) 0) as [E|_]; [contradiction|].
      rewrite Hp, Hdbg.
      apply (@write_returns p (say l w) n Hc Hn Hok Hgeom). }
    assert (Hsh : sh <> GeomOnly) by (subst sh; destruct (nonempty _); discriminate).
    assert (Hempty : sh = CentroidOnly -> p_str_geom p = EmptyString).
    { subst sh. destruct (nonempty (p_str_geom p)) eqn:N; [discriminate|].
      intros _. now apply nonempty_false. }
    destruct (@upsert_rows_of (VInt (p_wofid p)) (new_row sh p) (updated sh p)
                (new_row_id sh p) (updated_id sh p) (tbl w) K)
      as (r & Hr & Hcase).
    eexists. exists r. split; [exact Hrun|]. cbn [conns tbl logs].
    rewrite <- Hwid. unfold rows_of.
    split; [now symmetry|]. split; [reflexivity|]. split; [exact Hr|]. split.
    { destruct Hcase as [[_ ->]|(r0 & H0 & ->)].
      - now apply new_row_holds.
      - apply updated_holds; try assumption.
        assert (Hin : In r0 (filter (has_id (VInt (p_wofid p))) (tbl w)))
          by (rewrite H0; now left).
        apply filter_In in Hin as [_ Hin]. now apply value_eqb_eq in Hin. }
    split.
    { intros k Hk. apply upsert_rows_other; [apply new_row_id|apply updated_id|].
      congruence. }
    split.
    { intros Ht. destruct (Poly Ht l p Hp) as (Hne & _). split; [|exact Hne].
      assert (Hs : sh = GeomAndCentroid).
      { subst sh. apply nonempty_true in Hne. now rewrite Hne. }
      destruct Hcase as [[_ ->]|(r0 & _ & ->)]; rewrite Hs; reflexivity. }
    intros Ht. destruct (Point Ht l p Hp) as (Hnone & _).
    assert (Hs : sh = CentroidOnly).
    { subst sh. apply nonempty_false in Hnone. now rewrite Hnone. }
    destruct Hcase as [[H0 ->]|(r0 & H0 & ->)].
    + left. split; [exact H0|]. rewrite Hs. reflexivity.
    + right. exists r0. split; [exact H0|]. rewrite Hs. reflexivity.
  - intros H1 H2 H3.
    assert (E : prepare client f lastmod
                = Ret ([LogGeomTypeIs (geometry_type f)], inl "DO SOMETHING HERE")).
    { unfold prepare. rewrite Hgf, (Hother H1 H2 H3). reflexivity. }
    split; [exact E|]. unfold IndexFeature. rewrite E.
    destruct (Z.eqb_spec (Index.Id f) 0) as [Hz|Hz].
    + split; [intros Hid; contradiction|]. split; reflexivity.
    + split; [intros _; reflexivity|]. split; reflexivity.
Qed.

(** C8 (as amended): indexing the same feature twice, effectively (not a
    dry run, id other than 0, both calls returning nil), on a table keyed
    by id leaves exactly one row for that id; the row carries the values
    of the second call in every column its statement sets: id, parent,
    placetype, flags, meta, hash, lastmod and centroid, and geom when the
    second call has a geometry (a centroid-only statement leaves geom as it
    was).  Every other id keeps its rows and the budget is as before.  The
    statement is of the geometry-and-centroid or of the centroid-only
    shape, never of the geometry-only one. *)
Theorem index_twice_one_record client1 client2 f lastmod1 lastmod2 w w1 w2 :
  Debug client1 = false -> Debug client2 = false ->
  Index.Id f <> 0 -> keyed (tbl w) ->
  IndexFeature client1 f lastmod1 w = (Ret None, w1) ->
  IndexFeature client2 f lastmod2 w1 = (Ret None, w2) ->
  exists l p sh r,
    prepare client2 f lastmod2 = Ret (l, inr p) /\
    p_lastmod p = lastmod2 /\
    select_shape (p_str_geom p) (p_str_centroid p) = Some sh /\
    sh <> GeomOnly /\
    rows_of (Index.Id f) (tbl w2) = [r] /\ holds p r /\
    keyed (tbl w2) /\
    (forall k, k <> Index.Id f -> rows_of k (tbl w2) = rows_of k (tbl w)) /\
    conns w2 = conns w.
Proof.
  intros Hdbg1 Hdbg2 Hid K H1 H2.
  destruct (@IndexFeature_written client1 f lastmod1 w w1 Hdbg1 Hid K H1)
    as (l1 & p1 & sh1 & r1 & _ & _ & _ & _ & _ & K1 & Ho1 & Hc1 & _).
  destruct (@IndexFeature_written client2 f lastmod2 w1 w2 Hdbg2 Hid K1 H2)
    as (l & p & sh & r & Hp & Hsh & Hne & Hr & Hh & K2 & Ho2 & Hc2 & _).
  exists l, p, sh, r.
  split; [exact Hp|].
  split; [now apply prepare_inv in Hp as (? & ? & _ & _ & _ & _ & ?)|].
  split; [exact Hsh|]. split; [exact Hne|]. split; [exact Hr|].
  split; [exact Hh|]. split; [exact K2|]. split; [|congruence].
  intros k Hk. rewrite (Ho2 k Hk). now apply Ho1.
Qed.


(** C10: a feature whose id is 0 is skipped: IndexFeature returns nil at
    once, whatever its geometry, placetype, repo or coordinates are, logs
    that it skips it, executes no statement and takes no token. *)
Theorem zero_id_is_skipped client f lastmod w :
  Index.Id f = 0 ->
  IndexFeature client f lastmod w = (Ret None, say [LogSkippingEarth] w) /\
  tbl (snd (IndexFeature client f lastmod w)) = tbl w /\
  conns (snd (IndexFeature client f lastmod w)) = conns w.
Proof.
  intros E. unfold IndexFeature. rewrite E. simpl. repeat split.
Qed.

End WithCollaborators.
#[local] Existing Instance Sample.numbers.
#[local] Existing Instance Sample.collaborators.

(** The sample Point indexed into the empty table, and the sample
    LineString. *)
Lemma geometry_shape_dispatch_witness :
  Geometry Sample.client = EmptyString /\ Index.Id Sample.a_point <> 0 /\
  (exists w' r,
     IndexFeature Sample.client Sample.a_point Sample.stamp1 Sample.w0 = (Ret None, w') /\
     conns w' = 10%nat /\
     rows_of 101 (tbl w') = [r] /\
     r c_centroid = VGeom "{geometry}" /\ r c_geom = VNull) /\
  IndexFeature Sample.client Sample.a_line Sample.stamp1 Sample.w0
  = (Ret (Some "DO SOMETHING HERE"), say [LogGeomTypeIs "LineString"] Sample.w0).
Proof.
  assert (H1 : Geometry Sample.client = EmptyString) by reflexivity.
  assert (H2 : Index.Id Sample.a_point <> 0) by (simpl; lia).
  assert (H3 : Index.Id Sample.a_line <> 0) by (simpl; lia).
  pose proof (@geometry_shape_dispatch Sample.numbers Sample.collaborators
                Sample.client Sample.a_point Sample.stamp1 Sample.w0 H1)
    as (Hpoint & _ & Hstored & _).
  pose proof (@geometry_shape_dispatch Sample.numbers Sample.collaborators
                Sample.client Sample.a_line Sample.stamp1 Sample.w0 H1)
    as (_ & _ & _ & Hother).
  split; [exact H1|]. split; [exact H2|]. split.
  - assert (K : keyed (tbl Sample.w0)) by constructor.
    destruct (@prepare Sample.numbers Sample.collaborators
                Sample.client Sample.a_point Sample.stamp1) as [[l [e|p]]| | |] eqn:Ep;
      try discriminate.
    assert (Hc : p_str_centroid p = "{geometry}").
    { destruct (Hpoint eq_refl l p eq_refl) as (_ & _ & Hc). apply Hc. discriminate. }
    destruct (Hstored 9%nat l p H2 eq_refl K eq_refl eq_refl eq_refl (fun _ => eq_refl))
      as (w' & r & Hrun & Hconns & _ & Hr & Hh & _ & _ & Hgeom).
    exists w', r. split; [exact Hrun|]. split; [exact Hconns|]. split; [exact Hr|].
    destruct Hh as (_ & _ & _ & _ & _ & _ & _ & _ & Hcen & _).
    split; [now rewrite Hcen, Hc|].
    destruct (Hgeom eq_refl) as [[_ Hnull]|(r0 & H0 & _)]; [exact Hnull|discriminate].
  - assert (N1 : geometry_type Sample.a_line <> "MultiPolygon") by (simpl; discriminate).
    assert (N2 : geometry_type Sample.a_line <> "Polygon") by (simpl; discriminate).
    assert (N3 : geometry_type Sample.a_line <> "Point") by (simpl; discriminate).
    destruct (Hother N1 N2 N3) as (_ & Hrun & _). exact (Hrun H3).
Defined.

(** C7, the claim as stated fails.  The sample polygon is indexed with
    the default geometry, and then a Point feature of the same id, with the
    default geometry as well: the Point is prepared with an empty geometry
    and written by the centroid-only statement, which does not name geom;
    IndexFeature returns nil, and the one row left for the id has the
    centroid and the timestamp of the Point and still the geometry of the
    polygon.  The record of a Point feature has a geometry. *)
Lemma point_keeps_stored_geometry :
  let pt := Sample.feature 102 "Point" (Some 37) (Some (-122)) in
  let run1 := IndexFeature Sample.client Sample.a_polygon Sample.stamp1 Sample.w0 in
  let run2 := IndexFeature Sample.client pt Sample.stamp2 (snd run1) in
  Geometry Sample.client = EmptyString /\ geometry_type pt = "Point" /\
  fst run1 = Ret None /\ fst run2 = Ret None /\
  (exists l p, prepare Sample.client pt Sample.stamp2 = Ret (l, inr p) /\
               p_str_geom p = EmptyString /\ p_str_centroid p = "{geometry}") /\
  exists r, rows_of 102 (tbl (snd run2)) = [r] /\
            r c_lastmod = VText Sample.stamp2 /\
            r c_centroid = VGeom "{geometry}" /\
            r c_geom = VGeom (marshal_multi (GeomToPolygons Sample.a_polygon)) /\
            r c_geom <> VNull.
Proof.
  split; [reflexivity|]. split; [reflexivity|]. split; [reflexivity|].
  split; [reflexivity|].
  split; [eexists; eexists; split; [reflexivity|split; reflexivity]|].
  eexists. split; [reflexivity|]. split; [reflexivity|]. split; [reflexivity|].
  split; [reflexivity|discriminate].
Qed.

(** C8, the claim as stated fails.  The sample polygon is indexed with
    the default geometry and then again with the centroid filter: the one
    row left carries the timestamp of the second call and still the
    geometry of the first, although the second call has no geometry; the
    centroid-only statement does not name geom.  And the geometry-only
    shape is no upsert at all: with a geometry and no centroid the write
    picks the statement that names ten columns for nine values; the store
    rejects it, the process exits and no row is stored for the id. *)
Lemma rewrite_keeps_first_geometry :
  let run1 := IndexFeature Sample.client Sample.a_polygon Sample.stamp1 Sample.w0 in
  let run2 := IndexFeature Sample.by_centroid Sample.a_polygon Sample.stamp2 (snd run1) in
  (fst run1 = Ret None /\ fst run2 = Ret None /\
   (exists l p, prepare Sample.by_centroid Sample.a_polygon Sample.stamp2
                = Ret (l, inr p) /\ p_str_geom p = EmptyString) /\
   exists r, rows_of 102 (tbl (snd run2)) = [r] /\
             r c_lastmod = VText Sample.stamp2 /\
             r c_geom = VGeom (marshal_multi (GeomToPolygons Sample.a_polygon))) /\
  (select_shape (p_str_geom Sample.geometry_only_values)
                (p_str_centroid Sample.geometry_only_values) = Some GeomOnly /\
   fst (write Sample.geometry_only_values Sample.w0) = Exits 1 /\
   rows_of (p_wofid Sample.geometry_only_values)
           (tbl (snd (write Sample.geometry_only_values Sample.w0))) = []).
Proof.
  split.
  - split; [reflexivity|]. split; [reflexivity|].
    split; [eexists; eexists; split; reflexivity|].
    eexists. split; [reflexivity|]. split; reflexivity.
  - repeat split.
Qed.

(** The sample polygon indexed twice into the empty table. *)
Lemma index_twice_one_record_witness :
  let run1 := @IndexFeature Sample.numbers Sample.collaborators
                Sample.client Sample.a_polygon Sample.stamp1 Sample.w0 in
  let run2 := @IndexFeature Sample.numbers Sample.collaborators
                Sample.client Sample.a_polygon Sample.stamp2 (snd run1) in
  Debug Sample.client = false /\ Index.Id Sample.a_polygon <> 0 /\
  keyed (tbl Sample.w0) /\
  run1 = (Ret None, snd run1) /\ run2 = (Ret None, snd run2) /\
  exists r, rows_of 102 (tbl (snd run2)) = [r] /\
            r c_lastmod = VText Sample.stamp2 /\
            r c_id = VInt 102 /\ conns (snd run2) = 10%nat.
Proof.
  intros run1 run2.
  assert (H1 : Debug Sample.client = false) by reflexivity.
  assert (H2 : Index.Id Sample.a_polygon <> 0) by (simpl; lia).
  assert (H3 : keyed (tbl Sample.w0)) by constructor.
  assert (H4 : run1 = (Ret None, snd run1)) by reflexivity.
  assert (H5 : run2 = (Ret None, snd run2)) by reflexivity.
  destruct (@index_twice_one_record Sample.numbers Sample.collaborators
              Sample.client Sample.client Sample.a_polygon Sample.stamp1 Sample.stamp2
              Sample.w0 (snd run1) (snd run2) H1 H1 H2 H3 H4 H5)
    as (l & p & sh & r & Hp & Hlm & _ & _ & Hr & Hh & _ & _ & Hc).
  repeat split; try assumption.
  exists r. split; [exact Hr|].
  destruct Hh as (Hid & _ & _ & _ & _ & _ & _ & Hl & _).
  split; [congruence|]. split; [|exact Hc].
  rewrite Hid. apply prepare_inv in Hp as (_ & _ & _ & _ & _ & -> & _). reflexivity.
Defined.


(** The sample feature with id 0 has a shape and a lack of coordinates
    that would each be an error; it is skipped all the same. *)
Lemma zero_id_is_skipped_witness :
  Index.Id Sample.earth = 0 /\
  @IndexFeature Sample.numbers Sample.collaborators
    Sample.client Sample.earth Sample.stamp1 Sample.w0
  = (Ret None, say [LogSkippingEarth] Sample.w0) /\
  exists l err, @prepare Sample.numbers Sample.collaborators
                  Sample.client Sample.earth Sample.stamp1 = Ret (l, inl err).
Proof.
  assert (H : Index.Id Sample.earth = 0) by reflexivity.
  destruct (@zero_id_is_skipped Sample.numbers Sample.collaborators
              Sample.client Sample.earth Sample.stamp1 Sample.w0 H) as (Hr & _).
  split; [exact H|]. split; [exact Hr|].
  eexists; eexists; reflexivity.
Defined.

End IndexFacts.

(** ** The budget when reading *)
Module QueryFacts.
Import Query.

(** C3 (the code breaks the claim): [CountIntersects] and [GetById]
    return, on success and on failure alike, with one token less in the
    budget than they found, and so does the set-up of
    [FetchIntersectsAsync]: the token [dbconn] took is never put back.
    ([IndexFeature] does put its token back: lemma
    [IndexFacts.IndexFeature_written].) *)
Theorem reading_keeps_the_token {ST : Store} (p : partition) (str_geom : string)
        (opts : PgisIntersectsOptions) (id : Z) (n : nat) :
  (exists r, CountIntersects p str_geom opts (S n) = (Ret r, n)) /\
  (exists r, GetById id (S n) = (Ret r, n)) /\
  (forall s s' i, Intersects.main s = Intersects.MFetchDbconn p ->
                  Intersects.step str_geom opts s s' ->
                  Intersects.main s' = Intersects.MFetchWait p i ->
                  Intersects.conns s = S (Intersects.conns s')).
Proof.
  split; [|split].
  - unfold CountIntersects. simpl. destruct (QueryCount p str_geom opts); eauto.
  - unfold GetById. simpl. eauto.
  - intros s s' i Hm Hs Hm'.
    inversion Hs; subst; simpl in Hm'; try congruence; try discriminate.
    + rewrite Hm in *. simpl in *. destruct m; discriminate.
    + rewrite Hm in *. simpl in *. discriminate.
    + simpl. unfold Budget.dbconn in *. destruct (Intersects.conns s); [discriminate|].
      congruence.
    + rewrite Hm in *. simpl in *. destruct m; discriminate.
Qed.
End QueryFacts.

(** ** [IntersectsFeature]: what holds in every configuration *)
Module IntersectsFacts.
Import Query Intersects.

Section Invariant.
Context {ST : Store}.
Variable str_geom : string.
Variable opts : PgisIntersectsOptions.

(** The answer of the store to the count of a partition. *)
Definition answer (p : partition) : error + Z := QueryCount p str_geom opts.

(** A count goroutine waits to send what the store answered. *)
Definition faithful (p : partition) (pc : count_pc) : Prop :=
  match pc with
  | CSendErr err => answer p = inl err
  | CSendCount c => answer p = inr c
  | CDbconn | CDeferDone | CExit => True
  end.

(** Inside the counting loop, a goroutine past its send has sent a count,
    which the main goroutine keeps. *)
Definition sent (p : partition) (pc : count_pc) (v : regs) : Prop :=
  match pc with
  | CDeferDone | CExit => answer p = inr (get p (count v))
  | CDbconn | CSendErr _ | CSendCount _ => True
  end.

Definition live (pc : count_pc) : Z :=
  match pc with CExit => 0 | _ => 1 end.

Definition counted (v : regs) : Prop :=
  forall q, answer q = inr (get q (count v)).

(** No page goroutine, no row collected, no fetch stage entered. *)
Definition quiet (s : config) : Prop :=
  pages s = [] /\ rows (vars s) = [] /\ fetching (vars s) = 0.

(** The two ways [IntersectsFeature] returns once its goroutines run:
    with the error of a count and no rows, or, when neither count is
    positive, with the empty list. *)
Definition result_ok (rs : option (list PgisRow)) (e : option error) : Prop :=
  (rs = None /\ exists p err, e = Some err /\ answer p = inl err) \/
  (rs = Some [] /\ e = None /\ forall q, exists c, answer q = inr c /\ c <= 0).

Definition inv (s : config) : Prop :=
  faithful ByGeom (of_geom (counters s)) /\
  faithful ByCentroid (of_centroid (counters s)) /\
  match main s with
  | MCountLoop n =>
      quiet s /\
      n = live (of_geom (counters s)) + live (of_centroid (counters s)) /\
      sent ByGeom (of_geom (counters s)) (vars s) /\
      sent ByCentroid (of_centroid (counters s)) (vars s)
  | MIfCount p =>
      quiet s /\ counted (vars s) /\
      (p = ByCentroid -> get ByGeom (count (vars s)) <= 0)
  | MFetchDbconn _ | MFetchWait _ _ | MFetchDefer _ =>
      counted (vars s) /\ exists q, 0 < get q (count (vars s))
  | MFetchLoop f =>
      quiet s /\ f = 0 /\ counted (vars s) /\
      forall q, get q (count (vars s)) <= 0
  | MReturn rs e => pages s = [] /\ result_ok rs e
  end.

Lemma CountIntersects_inv p cn r n :
  CountIntersects p str_geom opts cn = (Ret r, n) ->
  cn = S n /\ faithful p (count_result r) /\ live (count_result r) = 1 /\
  (forall v, sent p (count_result r) v).
Proof.
  unfold CountIntersects. destruct cn as [|k]; simpl; [discriminate|].
  unfold faithful, answer.
  destruct (QueryCount p str_geom opts) as [e|c] eqn:A; intros H; inversion H; subst;
    simpl; auto.
Qed.

Lemma inv_init geometry cn : inv (init (Some geometry) cn).
Proof. unfold inv, quiet. simpl. repeat split. Qed.

Ltac break :=
  repeat match goal with
  | H : _ /\ _ |- _ => destruct H
  | H : exists _, _ |- _ => destruct H
  | H : Some _ = Some _ |- _ => inversion H; subst; clear H
  | H : (_, _) = (_, _) |- _ => inversion H; subst; clear H
  | H : None = Some _ |- _ => discriminate H
  | H : Some _ = None |- _ => discriminate H
  | H : False |- _ => destruct H
  | H : ?l = [], H' : ?l = _ ++ _ :: _ |- _ => rewrite H in H'
  | H : [] = _ ++ _ :: _ |- _ => apply app_cons_not_nil in H; destruct H
  | H : _ ++ _ :: _ = [] |- _ => symmetry in H; apply app_cons_not_nil in H; destruct H
  | H : (if ?b then _ else _) = _ |- _ => destruct b eqn:?
  end.

Lemma get_put_same {A} p (x : A) c : get p (put p x c) = x.
Proof. destruct p; reflexivity. Qed.

Lemma counted_put p c v :
  answer p = inr c ->
  (forall q, q <> p -> answer q = inr (get q (count v))) ->
  forall q, answer q = inr (get q (put p c (count v))).
Proof.
  intros Hp Hq q. destruct p, q; simpl; auto; apply Hq; discriminate.
Qed.

Ltac finish :=
  simpl in *; break; unfold counted, result_ok in *; simpl in *;
  repeat split; auto; try lia; try congruence; eauto;
  try solve [left; split; eauto];
  try solve [intros []; simpl in *; eauto; try lia; try congruence].

Lemma inv_step s s' : inv s -> step str_geom opts s s' -> inv s'.
Proof.
  intros HI Hs. destruct s as [cn mn v [cg cc] th pgs].
  unfold inv, quiet in *. simpl in *.
  inversion Hs; subst; simpl in *; clear Hs.
  - (* a count goroutine runs its query *)
    match goal with H : CountIntersects _ _ _ _ = _ |- _ =>
      apply CountIntersects_inv in H as (_ & Hf & Hl & Hsent) end.
    destruct p; simpl in *; subst; destruct mn; break; simpl;
      repeat split; auto; try lia; try (apply Hsent); rewrite ?Hl; simpl; eauto.
  - (* a count goroutine sends *)
    destruct mn; simpl in *; try discriminate.
    + destruct (0 <? n) eqn:Hn; [|discriminate].
      apply Z.ltb_lt in Hn.
      destruct p, cg, cc, m; simpl in *; try discriminate; finish.
    + destruct (0 <? i); [|discriminate].
      destruct p, cg, cc, m; simpl in *; try discriminate.
    + destruct (0 <? f) eqn:Hf; [|discriminate].
      apply Z.ltb_lt in Hf. break. lia.
  - (* the main goroutine alone *)
    destruct mn; simpl in *; try discriminate.
    + destruct (Z.ltb_spec 0 n); [discriminate|].
      destruct cg, cc; simpl in *; finish.
    + destruct (Z.ltb_spec 0 (get p (count v))); [finish|].
      destruct p; simpl in *; finish.
    + destruct (Z.ltb_spec 0 i); [discriminate|]. finish.
    + destruct (Z.ltb_spec 0 f); [discriminate|]. finish.
      right. match goal with H : rows v = [] |- _ => rewrite H end.
      repeat split. intros q. eauto.
  - (* FetchIntersectsAsync is entered *)
    match goal with H : mn = _ |- _ => subst mn end. finish.
  - (* a page goroutine runs its query *)
    destruct mn; finish.
  - (* a page goroutine sends *)
    destruct mn; simpl in *; try discriminate;
      try (destruct m; simpl in *; try discriminate); finish.
  - (* the main goroutine sends: nobody receives *)
    discriminate.
  - discriminate.
  - (* a page goroutine puts its throttle token back *)
    destruct mn; finish.
Qed.

Lemma inv_reaches s s' : inv s -> reaches str_geom opts s s' -> inv s'.
Proof.
  intros HI HR. induction HR as [| s' s'' Hs HR IH].
  - exact HI.
  - now apply (inv_step IH).
Qed.

(** *** When no count is positive or one fails *)

(** The answers with which the fetch stage is not entered. *)
Definition never_fetches : Prop :=
  (exists p err, answer p = inl err) \/
  (forall q, exists c, answer q = inr c /\ c <= 0).

Lemma counted_positive v q :
  never_fetches -> counted v -> 0 < get q (count v) -> False.
Proof.
  intros [(p & err & Hp)|Hall] Hc Hq.
  - rewrite (Hc p) in Hp. discriminate.
  - destruct (Hall q) as (c & Hc' & Hle). rewrite (Hc q) in Hc'.
    inversion Hc'. lia.
Qed.

Lemma never_in_fetch s : never_fetches -> inv s -> ~ in_fetch (main s) /\ pages s = [].
Proof.
  intros NF (_ & _ & HI). unfold quiet in HI.
  destruct (main s); simpl; break; split; auto;
    exfalso; eapply counted_positive; eauto.
Qed.

(** Tokens are there for the count goroutines still to take one. *)
Definition waiting (pc : count_pc) : nat :=
  match pc with CDbconn => 1 | _ => 0 end.

Definition budget (s : config) : Prop :=
  (waiting (of_geom (counters s)) + waiting (of_centroid (counters s)) <= conns s)%nat.

Definition crank (pc : count_pc) : nat :=
  match pc with
  | CDbconn => 3
  | CSendErr _ | CSendCount _ => 2
  | CDeferDone => 1
  | CExit => 0
  end.

Definition mrank (pc : main_pc) : nat :=
  match pc with
  | MCountLoop _ => 5
  | MIfCount ByGeom => 4
  | MIfCount ByCentroid => 3
  | MFetchLoop _ => 2
  | MFetchDbconn _ | MFetchWait _ _ | MFetchDefer _ | MReturn _ _ => 0
  end.

(** The steps left at most. *)
Definition measure (s : config) : nat :=
  (mrank (main s) + crank (of_geom (counters s)) + crank (of_centroid (counters s)))%nat.

Ltac fields :=
  cbn [conns main vars counters throttle pages of_geom of_centroid get put
       waiting crank mrank count_offer main_recv main_local after_if] in *.

Lemma quiet_step s s' :
  never_fetches -> inv s -> step str_geom opts s s' ->
  (budget s -> budget s') /\ (measure s' < measure s)%nat.
Proof.
  intros NF HI Hs.
  destruct (never_in_fetch NF HI) as [Hnf Hpg].
  destruct HI as (_ & _ & HI).
  destruct s as [cn mn v [cg cc] th pgs].
  unfold budget, measure, quiet in *. fields.
  inversion Hs; subst; fields; clear Hs.
  - match goal with H : CountIntersects _ _ _ _ = _ |- _ =>
      apply CountIntersects_inv in H as (-> & _ & _ & _) end.
    destruct r as [c0 [e0|]]; destruct p; fields;
      match goal with H : _ = CDbconn |- _ => rewrite H end; fields;
      (split; [intros ?|]); simpl in *; lia.
  - destruct mn; fields; try discriminate.
    + destruct (0 <? n); [|discriminate].
      destruct p; fields;
        match goal with
        | H : count_offer _ ?c = Some _ |- _ => destruct c; fields; try discriminate
        end; break; fields; break; fields;
        (split; [intros ?|]); simpl in *; lia.
    + destruct (0 <? i); [|discriminate].
      match goal with
      | H : count_offer _ ?c = Some _ |- _ => destruct c; fields; try discriminate
      end; break; fields; discriminate.
    + break. subst. simpl in *. discriminate.
  - destruct mn; fields; try discriminate.
    + destruct (0 <? n); [discriminate|]. break. fields. (split; [intros ?|]); simpl in *; lia.
    + destruct (Z.ltb_spec 0 (get p (count v))).
      * exfalso. destruct HI as (_ & Hc & _). eapply counted_positive; eauto.
      * break. destruct p; fields; (split; [intros ?|]); simpl in *; lia.
    + destruct (0 <? i); discriminate || (exfalso; apply Hnf; exact I).
    + destruct (0 <? f); [discriminate|]. break. fields. (split; [intros ?|]); simpl in *; lia.
  - match goal with H : mn = _ |- _ => subst mn end. exfalso. apply Hnf. exact I.
  - exfalso. eapply app_cons_not_nil; eassumption.
  - exfalso. eapply app_cons_not_nil; eassumption.
  - discriminate.
  - discriminate.
  - exfalso. eapply app_cons_not_nil; eassumption.
Qed.

(** A count goroutine waiting to send its error. *)
Definition pending (s : config) : Prop :=
  exists p err, get p (counters s) = CSendErr err.

Definition returned (s : config) : Prop :=
  exists rs e, main s = MReturn rs e.

(** The error stays pending until the main goroutine takes it, and
    returns. *)
Lemma pending_step s s' :
  step str_geom opts s s' -> pending s -> pending s' \/ returned s'.
Proof.
  intros Hs (p & err & Hp). unfold pending, returned.
  destruct s as [cn mn v [cg cc] th pgs]. fields.
  inversion Hs; subst; fields; clear Hs;
    try (left; exists p, err; exact Hp); try discriminate.
  - left. exists p, err. destruct p, p0; fields; congruence.
  - destruct p, p0; fields; subst; fields;
      try first [ left; exists ByGeom, err; reflexivity
                | left; exists ByCentroid, err; reflexivity ].
    + break. destruct mn; fields; try discriminate.
      * destruct (0 <? n); [|discriminate]. break. right. do 2 eexists. reflexivity.
      * destruct (0 <? i); discriminate.
      * destruct (0 <? f); [|discriminate]. break. right. do 2 eexists. reflexivity.
    + break. destruct mn; fields; try discriminate.
      * destruct (0 <? n); [|discriminate]. break. right. do 2 eexists. reflexivity.
      * destruct (0 <? i); discriminate.
      * destruct (0 <? f); [|discriminate]. break. right. do 2 eexists. reflexivity.
Qed.

(** What keeps a run going: tokens for the counts still to start, or an
    error waiting to be taken. *)
Definition able (s : config) : Prop := budget s \/ pending s \/ returned s.

Lemma CountIntersects_returns p n :
  exists r, CountIntersects p str_geom opts (S n) = (Ret r, n).
Proof.
  unfold CountIntersects. simpl. destruct (QueryCount p str_geom opts); eauto.
Qed.

(** Before the return some goroutine can always move. *)
Lemma quiet_progress s :
  never_fetches -> inv s -> able s ->
  (forall rs e, main s <> MReturn rs e) ->
  exists s', step str_geom opts s s'.
Proof.
  intros NF HI HA Hnr.
  destruct (never_in_fetch NF HI) as [Hnf _].
  destruct HI as (_ & _ & HI).
  destruct HA as [HB|[(p0 & err0 & Hp0)|(rs & e & Hr)]];
    [| | exfalso; eapply Hnr; exact Hr].
  2:{ destruct s as [cn mn v [cg cc] th pgs]. unfold quiet in *. fields.
      destruct mn; fields; try (exfalso; apply Hnf; exact I).
      - assert (Hn : (0 <? n) = true).
        { apply Z.ltb_lt. destruct HI as (_ & -> & _).
          destruct p0; fields; subst; [destruct cc | destruct cg]; simpl; lia. }
        destruct p0; fields; subst.
        + eexists. eapply step_count_send with (p := ByGeom);
            fields; [reflexivity|rewrite Hn; reflexivity].
        + eexists. eapply step_count_send with (p := ByCentroid);
            fields; [reflexivity|rewrite Hn; reflexivity].
      - destruct (0 <? get p (count v)) eqn:Hp;
          eexists; eapply step_main_local; fields; rewrite Hp; reflexivity.
      - destruct HI as (_ & -> & _).
        eexists. eapply step_main_local. fields. reflexivity.
      - exfalso. eapply Hnr. reflexivity. }
  destruct s as [cn mn v [cg cc] th pgs].
  unfold budget, quiet in *. fields.
  destruct mn; fields; try (exfalso; apply Hnf; exact I).
  - destruct (0 <? n) eqn:Hn.
    + destruct HI as (_ & Hlive & _).
      assert (Hsome : cg <> CExit \/ cc <> CExit).
      { destruct cg; [left; discriminate ..|]. destruct cc; [right; discriminate ..|].
        simpl in Hlive. subst n. discriminate. }
      destruct Hsome as [Hc|Hc].
      * destruct cg as [|e|c| |]; try contradiction.
        -- destruct cn as [|k]; [simpl in HB; lia|].
           destruct (CountIntersects_returns ByGeom k) as (r & Hr).
           eexists. eapply step_count_query with (p := ByGeom); [reflexivity|exact Hr].
        -- eexists. eapply step_count_send with (p := ByGeom);
             fields; [reflexivity|rewrite Hn; reflexivity].
        -- eexists. eapply step_count_send with (p := ByGeom);
             fields; [reflexivity|rewrite Hn; reflexivity].
        -- eexists. eapply step_count_send with (p := ByGeom);
             fields; [reflexivity|rewrite Hn; reflexivity].
      * destruct cc as [|e|c| |]; try contradiction.
        -- destruct cn as [|k]; [simpl in HB; lia|].
           destruct (CountIntersects_returns ByCentroid k) as (r & Hr).
           eexists. eapply step_count_query with (p := ByCentroid); [reflexivity|exact Hr].
        -- eexists. eapply step_count_send with (p := ByCentroid);
             fields; [reflexivity|rewrite Hn; reflexivity].
        -- eexists. eapply step_count_send with (p := ByCentroid);
             fields; [reflexivity|rewrite Hn; reflexivity].
        -- eexists. eapply step_count_send with (p := ByCentroid);
             fields; [reflexivity|rewrite Hn; reflexivity].
    + eexists. eapply step_main_local. fields. rewrite Hn. reflexivity.
  - destruct (0 <? get p (count v)) eqn:Hp;
      eexists; eapply step_main_local; fields; rewrite Hp; reflexivity.
  - destruct HI as (_ & -> & _).
    eexists. eapply step_main_local. fields. reflexivity.
  - exfalso. eapply Hnr. reflexivity.
Qed.

Lemma returns_weaken (Q Q' : option (list PgisRow) -> option error -> Prop) s :
  (forall rs e, Q rs e -> Q' rs e) ->
  returns str_geom opts Q s -> returns str_geom opts Q' s.
Proof.
  intros HQ HR. induction HR as [s rs e Hm Hq | s Hex Hall IH].
  - eapply returns_now; eauto.
  - apply returns_later; auto.
Qed.

(** With tokens for both counts, and answers that do not lead into the
    fetch stage, every run returns, with one of the two results. *)
Lemma able_step s s' :
  never_fetches -> inv s -> step str_geom opts s s' ->
  (forall rs e, main s <> MReturn rs e) -> able s -> able s'.
Proof.
  intros NF HI Hs Hnr [HB|[HP|(rs & e & Hr)]].
  - left. now apply (quiet_step NF HI Hs).
  - right. now apply (pending_step Hs).
  - exfalso. eapply Hnr. exact Hr.
Qed.

Lemma quiet_returns (m : nat) : forall s,
  never_fetches -> inv s -> able s -> (measure s <= m)%nat ->
  returns str_geom opts result_ok s.
Proof.
  induction m as [|m IH]; intros s NF HI HB Hm.
  - destruct (main s) as [n|p|p|p i|p|f|rs e] eqn:Em;
      try (destruct (never_in_fetch NF HI) as [Hnf _]; rewrite Em in Hnf;
           exfalso; apply Hnf; exact I);
      try (unfold measure in Hm; rewrite Em in Hm; simpl in Hm;
           try destruct p; simpl in Hm; lia).
    eapply returns_now; [exact Em|].
    destruct HI as (_ & _ & HI). rewrite Em in HI. apply HI.
  - destruct (main s) as [n|p|p|p i|p|f|rs e] eqn:Em;
      try (destruct (never_in_fetch NF HI) as [Hnf _]; rewrite Em in Hnf;
           exfalso; apply Hnf; exact I).
    4:{ eapply returns_now; [exact Em|].
        destruct HI as (_ & _ & HI). rewrite Em in HI. apply HI. }
    all: apply returns_later;
      [ apply quiet_progress; auto; intros rs e; rewrite Em; discriminate
      | intros s' Hs; destruct (quiet_step NF HI Hs) as [_ Hlt];
        apply IH; auto;
        [ eapply inv_step; eauto
        | eapply able_step; eauto; intros rs e; rewrite Em; discriminate
        | lia ] ].
Qed.

Lemma budget_init cn : (2 <= cn)%nat -> budget (init (Some str_geom) cn).
Proof. unfold budget. simpl. lia. Qed.

Lemma measure_init cn : measure (init (Some str_geom) cn) = 11%nat.
Proof. reflexivity. Qed.

(** C1 (the code breaks the claim): when both counts succeed and their
    total is positive, no run of IntersectsFeature ever returns, neither
    rows nor an error.  The main goroutine calls FetchIntersectsAsync
    itself (there is no [go]), so nobody receives the rows the page
    goroutines send nor the deferred [done_ch <- true] of the call. *)
Theorem positive_total_never_returns (cn : nat) (c1 c2 : Z) :
  QueryCount ByGeom str_geom opts = inr c1 ->
  QueryCount ByCentroid str_geom opts = inr c2 ->
  0 < c1 + c2 ->
  (forall s, reaches str_geom opts (init (Some str_geom) cn) s ->
             forall rs e, main s <> MReturn rs e) /\
  (forall Q, ~ returns str_geom opts Q (init (Some str_geom) cn)).
Proof.
  intros H1 H2 Hpos.
  assert (Hno : forall s, inv s -> forall rs e, main s <> MReturn rs e).
  { intros s (_ & _ & HI) rs e Em. rewrite Em in HI.
    destruct HI as (_ & [(_ & p & err & _ & Hp)|(_ & _ & Hall)]).
    - unfold answer in Hp. destruct p; congruence.
    - destruct (Hall ByGeom) as (a & Ha & Hle).
      destruct (Hall ByCentroid) as (b & Hb & Hle').
      unfold answer in *. assert (a = c1) by congruence.
      assert (b = c2) by congruence. lia. }
  split.
  - intros s HR. apply Hno. eapply inv_reaches; [apply inv_init|exact HR].
  - intros Q HR.
    assert (HI : inv (init (Some str_geom) cn)) by apply inv_init.
    revert HI. induction HR as [s rs e Hm Hq | s Hex Hall IH]; intros HI.
    + exact (Hno s HI rs e Hm).
    + destruct Hex as (s' & Hs). apply (IH s' Hs). eapply inv_step; eauto.
Qed.

(** C4: when the count of either partition fails, no page goroutine is
    ever started and the fetch stage is never entered; IntersectsFeature
    can only return a nil list with the error of a failed count (the
    first it receives).  Once a count operation has returned its error,
    every run does return so, whatever the other count does; and from the
    call on every run does, when the budget has a token for each of the
    two counts. *)
Theorem count_error_fails_fast (cn : nat) :
  (exists p err, QueryCount p str_geom opts = inl err) ->
  (forall s, reaches str_geom opts (init (Some str_geom) cn) s ->
     pages s = [] /\ ~ in_fetch (main s) /\
     forall rs e, main s = MReturn rs e ->
       rs = None /\ exists p err, e = Some err /\ QueryCount p str_geom opts = inl err) /\
  (forall s, reaches str_geom opts (init (Some str_geom) cn) s ->
     (exists p err, get p (counters s) = CSendErr err) ->
     returns str_geom opts
       (fun rs e => rs = None /\
                    exists p err, e = Some err /\ QueryCount p str_geom opts = inl err)
       s) /\
  ((2 <= cn)%nat ->
   returns str_geom opts
     (fun rs e => rs = None /\
                  exists p err, e = Some err /\ QueryCount p str_geom opts = inl err)
     (init (Some str_geom) cn)).
Proof.
  intros (p0 & err0 & H0).
  assert (NF : never_fetches) by (left; exists p0, err0; exact H0).
  assert (HQ : forall rs e, result_ok rs e ->
             rs = None /\
             exists p err, e = Some err /\ QueryCount p str_geom opts = inl err).
  { intros rs e [(-> & p & err & -> & Hp)|(_ & _ & Hall)].
    - split; [reflexivity|]. exists p, err. split; [reflexivity|exact Hp].
    - destruct (Hall p0) as (c & Hc & _). unfold answer in Hc. congruence. }
  split; [|split].
  - intros s HR.
    assert (HI : inv s) by (eapply inv_reaches; [apply inv_init|exact HR]).
    destruct (never_in_fetch NF HI) as [Hnf Hpg].
    split; [exact Hpg|]. split; [exact Hnf|].
    intros rs e Em. apply HQ. destruct HI as (_ & _ & HI). rewrite Em in HI. apply HI.
  - intros s HR HP.
    assert (HI : inv s) by (eapply inv_reaches; [apply inv_init|exact HR]).
    apply returns_weaken with (Q := result_ok); [exact HQ|].
    apply quiet_returns with (m := measure s);
      [exact NF | exact HI | right; left; exact HP | lia].
  - intros Hcn. apply returns_weaken with (Q := result_ok); [exact HQ|].
    apply quiet_returns with (m := 11%nat);
      [exact NF | apply inv_init | left; now apply budget_init
      | rewrite measure_init; lia].
Qed.

(** C5: when both counts are zero, no page goroutine is ever started and
    the fetch stage is never entered; IntersectsFeature can only return
    the empty list with a nil error.  Once both count operations have their
    token, every run does return so; and from the call on every run does,
    when the budget has a token for each of the two counts. *)
Theorem zero_counts_return_empty (cn : nat) :
  QueryCount ByGeom str_geom opts = inr 0 ->
  QueryCount ByCentroid str_geom opts = inr 0 ->
  (forall s, reaches str_geom opts (init (Some str_geom) cn) s ->
     pages s = [] /\ ~ in_fetch (main s) /\
     forall rs e, main s = MReturn rs e -> rs = Some [] /\ e = None) /\
  (forall s, reaches str_geom opts (init (Some str_geom) cn) s ->
     (forall p, get p (counters s) <> CDbconn) ->
     returns str_geom opts (fun rs e => rs = Some [] /\ e = None) s) /\
  ((2 <= cn)%nat ->
   returns str_geom opts (fun rs e => rs = Some [] /\ e = None)
           (init (Some str_geom) cn)).
Proof.
  intros H1 H2.
  assert (NF : never_fetches).
  { right. intros q. exists 0. unfold answer. destruct q; split; auto; lia. }
  assert (HQ : forall rs e, result_ok rs e -> rs = Some [] /\ e = None).
  { intros rs e [(_ & p & err & _ & Hp)|(-> & -> & _)].
    - unfold answer in Hp. destruct p; congruence.
    - split; reflexivity. }
  split; [|split].
  - intros s HR.
    assert (HI : inv s) by (eapply inv_reaches; [apply inv_init|exact HR]).
    destruct (never_in_fetch NF HI) as [Hnf Hpg].
    split; [exact Hpg|]. split; [exact Hnf|].
    intros rs e Em. apply HQ. destruct HI as (_ & _ & HI). rewrite Em in HI. apply HI.
  - intros s HR Hstarted.
    assert (HI : inv s) by (eapply inv_reaches; [apply inv_init|exact HR]).
    assert (HB : budget s).
    { unfold budget. pose proof (Hstarted ByGeom) as Hg.
      pose proof (Hstarted ByCentroid) as Hc. simpl in Hg, Hc.
      destruct (of_geom (counters s)), (of_centroid (counters s));
        simpl; try contradiction; lia. }
    apply returns_weaken with (Q := result_ok); [exact HQ|].
    apply quiet_returns with (m := measure s);
      [exact NF | exact HI | left; exact HB | lia].
  - intros Hcn. apply returns_weaken with (Q := result_ok); [exact HQ|].
    apply quiet_returns with (m := 11%nat);
      [exact NF | apply inv_init | left; now apply budget_init
      | rewrite measure_init; lia].
Qed.

End Invariant.

(** One matching row, the default options, ten tokens: the call hangs. *)
Lemma positive_total_never_returns_witness :
  @QueryCount Sample.one_match ByGeom "{geometry}" NewDefaultPgisIntersectsOptions = inr 1 /\
  @QueryCount Sample.one_match ByCentroid "{geometry}" NewDefaultPgisIntersectsOptions = inr 0 /\
  0 < 1 + 0 /\
  (forall s, @reaches Sample.one_match "{geometry}" NewDefaultPgisIntersectsOptions
               (init (Some "{geometry}") 10) s ->
             forall rs e, main s <> MReturn rs e).
Proof.
  assert (H1 : @QueryCount Sample.one_match ByGeom "{geometry}"
                 NewDefaultPgisIntersectsOptions = inr 1) by reflexivity.
  assert (H2 : @QueryCount Sample.one_match ByCentroid "{geometry}"
                 NewDefaultPgisIntersectsOptions = inr 0) by reflexivity.
  assert (H3 : 0 < 1 + 0) by lia.
  destruct (@positive_total_never_returns Sample.one_match "{geometry}"
              NewDefaultPgisIntersectsOptions 10 1 0 H1 H2 H3) as [Hn _].
  repeat split; assumption.
Defined.

(** The count by centroid fails, ten tokens. *)
Lemma count_error_fails_fast_witness :
  (exists p err, @QueryCount Sample.failing_count p "{geometry}"
                   NewDefaultPgisIntersectsOptions = inl err) /\
  (2 <= 10)%nat /\
  @returns Sample.failing_count "{geometry}" NewDefaultPgisIntersectsOptions
    (fun rs e => rs = None /\ e = Some "pq: canceling statement")
    (init (Some "{geometry}") 10).
Proof.
  assert (H1 : exists p err, @QueryCount Sample.failing_count p "{geometry}"
                 NewDefaultPgisIntersectsOptions = inl err).
  { exists ByCentroid, "pq: canceling statement". reflexivity. }
  assert (H2 : (2 <= 10)%nat) by lia.
  destruct (@count_error_fails_fast Sample.failing_count "{geometry}"
              NewDefaultPgisIntersectsOptions 10 H1) as (_ & _ & Hr).
  split; [exact H1|]. split; [exact H2|].
  eapply returns_weaken; [|exact (Hr H2)].
  intros rs e (-> & p & err & -> & Hp). split; [reflexivity|].
  destruct p; simpl in Hp; inversion Hp. reflexivity.
Defined.

(** Nothing matches, ten tokens. *)
Lemma zero_counts_return_empty_witness :
  @QueryCount Sample.no_match ByGeom "{geometry}" NewDefaultPgisIntersectsOptions = inr 0 /\
  @QueryCount Sample.no_match ByCentroid "{geometry}" NewDefaultPgisIntersectsOptions = inr 0 /\
  (2 <= 10)%nat /\
  @returns Sample.no_match "{geometry}" NewDefaultPgisIntersectsOptions
    (fun rs e => rs = Some [] /\ e = None) (init (Some "{geometry}") 10).
Proof.
  assert (H1 : @QueryCount Sample.no_match ByGeom "{geometry}"
                 NewDefaultPgisIntersectsOptions = inr 0) by reflexivity.
  assert (H2 : @QueryCount Sample.no_match ByCentroid "{geometry}"
                 NewDefaultPgisIntersectsOptions = inr 0) by reflexivity.
  assert (H3 : (2 <= 10)%nat) by lia.
  destruct (@zero_counts_return_empty Sample.no_match "{geometry}"
              NewDefaultPgisIntersectsOptions 10 H1 H2) as (_ & _ & Hr).
  repeat split; try assumption. exact (Hr H3).
Defined.

(** A run on that input, step by step, to the configuration in which it
    stays: the main goroutine waits on [fetch_ch] for the one page, the
    page goroutine waits on [rows_ch] with its row, and nothing can move. *)
Lemma reaches_first {ST : Store} g o s s1 s2 :
  step g o s s1 -> reaches g o s1 s2 -> reaches g o s s2.
Proof.
  intros Hs HR. induction HR as [|y z Hyz HR IH].
  - eapply Relation_Operators.rtn1_trans; [exact Hs|apply rtn1_refl].
  - eapply Relation_Operators.rtn1_trans; [exact Hyz|exact IH].
Qed.

Definition stuck : config :=
  {| conns := 7; main := MFetchWait ByGeom 1;
     vars := {| count := {| of_geom := 1; of_centroid := 0 |}; count_total := 1;
                fetching := 0; rows := [] |};
     counters := {| of_geom := CExit; of_centroid := CExit |};
     throttle := {| of_geom := 3%nat; of_centroid := O |};
     pages := [{| pg_part := ByGeom; pg_offset := 0;
                  pg_pc := PSendRow Sample.a_row [] |}] |}.

Lemma one_match_run_gets_stuck :
  @reaches Sample.one_match "{geometry}" NewDefaultPgisIntersectsOptions
    (init (Some "{geometry}") 10) stuck /\
  (forall s', ~ @step Sample.one_match "{geometry}" NewDefaultPgisIntersectsOptions
                  stuck s').
Proof.
  split.
  - unfold init.
    eapply reaches_first;
      [eapply step_count_query with (p := ByGeom); reflexivity | cbn].
    eapply reaches_first;
      [eapply step_count_query with (p := ByCentroid); reflexivity | cbn].
    eapply reaches_first;
      [eapply step_count_send with (p := ByGeom); reflexivity | cbn].
    eapply reaches_first;
      [eapply step_count_send with (p := ByCentroid); reflexivity | cbn].
    eapply reaches_first;
      [eapply step_count_send with (p := ByGeom); reflexivity | cbn].
    eapply reaches_first;
      [eapply step_count_send with (p := ByCentroid); reflexivity | cbn].
    eapply reaches_first; [eapply step_main_local; reflexivity | cbn].
    eapply reaches_first; [eapply step_main_local; reflexivity | cbn].
    eapply reaches_first;
      [ eapply step_fetch_start with (p := ByGeom);
        [reflexivity | reflexivity | unfold fetch_args_ok, int_max; simpl; lia]
      | cbn ].
    eapply reaches_first;
      [eapply step_page_query with (l1 := []); reflexivity | cbn].
    apply rtn1_refl.
  - intros s' Hs. inversion Hs; subst; simpl in *; try discriminate.
    + destruct p; discriminate.
    + destruct p; discriminate.
    + destruct l1 as [|a [|b l1]]; simpl in *; try discriminate.
      inversion H; subst. discriminate.
    + destruct l1 as [|a [|b l1]]; simpl in *; try discriminate.
      inversion H; subst. simpl in *. inversion H0; subst. discriminate.
    + destruct l1 as [|a [|b l1]]; simpl in *; try discriminate.
      inversion H; subst. discriminate.
Qed.

End IntersectsFacts.

(** ** The bulk pipelines *)
Module BulkFacts.
Import Table Index Bulk.

(** Two results with the same outcome, table and budget (the logs may
    differ). *)
Definition agree {A} (r1 r2 : outcome A * world) : Prop :=
  fst r1 = fst r2 /\ tbl (snd r1) = tbl (snd r2) /\ conns (snd r1) = conns (snd r2).

Lemma agree_refl {A} (r : outcome A * world) : agree r r.
Proof. repeat split. Qed.

Lemma agree_trans {A} (r1 r2 r3 : outcome A * world) :
  agree r1 r2 -> agree r2 r3 -> agree r1 r3.
Proof. unfold agree. intros (? & ? & ?) (? & ? & ?). repeat split; congruence. Qed.

Section WithCollaborators.
Context {JN : JsonNumber} {CO : Collaborators}.

(** [IndexFeature] reads the table and the budget, not the log. *)
Lemma IndexFeature_agree client f lastmod w1 w2 :
  tbl w1 = tbl w2 -> conns w1 = conns w2 ->
  agree (IndexFeature client f lastmod w1) (IndexFeature client f lastmod w2).
Proof.
  intros Ht Hc. unfold IndexFeature.
  destruct (Index.Id f =? 0); [repeat split; assumption|].
  destruct (prepare client f lastmod) as [[l [e|p]]| | |];
    try (repeat split; assumption).
  destruct (Debug client); [repeat split; assumption|].
  unfold write. simpl. rewrite Ht, Hc.
  destruct (Budget.dbconn (conns w2)); try (repeat split; assumption).
  destruct (exec_sql _ _ _); repeat split.
Qed.

Lemma IndexFile_agree client path lastmod w1 w2 :
  tbl w1 = tbl w2 -> conns w1 = conns w2 ->
  agree (IndexFile client path lastmod w1) (IndexFile client path lastmod w2).
Proof.
  intros Ht Hc. unfold IndexFile.
  destruct (UnmarshalFile path); [repeat split; assumption|].
  now apply IndexFeature_agree.
Qed.

(** A failing item: [IndexFile] returns its error and leaves the table
    and the budget as they were. *)
Lemma fails_IndexFile client t w :
  fails client t = true ->
  exists err, fst (IndexFile client (fst t) (snd t) w) = Ret (Some err) /\
              tbl (snd (IndexFile client (fst t) (snd t) w)) = tbl w /\
              conns (snd (IndexFile client (fst t) (snd t) w)) = conns w.
Proof.
  unfold fails, IndexFile, IndexFeature.
  destruct (UnmarshalFile (fst t)) as [e|f]; [intros _; exists e; repeat split|].
  destruct (Index.Id f =? 0); [discriminate|].
  destruct (prepare client f (snd t)) as [[l [e|p]]| | |]; try discriminate.
  intros _. exists e. repeat split.
Qed.

(** And only a failing item: an error [IndexFile] returns is the
    decoder's or was found while preparing the row. *)
Lemma IndexFile_error_fails client t w err :
  fst (IndexFile client (fst t) (snd t) w) = Ret (Some err) -> fails client t = true.
Proof.
  unfold fails, IndexFile, IndexFeature.
  destruct (UnmarshalFile (fst t)) as [e|f]; [reflexivity|].
  destruct (Index.Id f =? 0); [discriminate|].
  destruct (prepare client f (snd t)) as [[l [e|p]]| | |]; try discriminate;
    [reflexivity|].
  destruct (Debug client); [discriminate|].
  unfold write. destruct (Budget.dbconn _); try discriminate.
  destruct (exec_sql _ _ _); discriminate.
Qed.

Lemma run_tasks_agree client tasks : forall w1 w2,
  tbl w1 = tbl w2 -> conns w1 = conns w2 ->
  agree (run_tasks client tasks w1) (run_tasks client tasks w2).
Proof.
  induction tasks as [|[path lastmod] rest IH]; intros w1 w2 Ht Hc; simpl.
  - repeat split; assumption.
  - destruct (IndexFile_agree client path lastmod w1 w2 Ht Hc) as (Ho & Ht' & Hc').
    destruct (IndexFile client path lastmod w1) as [o1 w1'].
    destruct (IndexFile client path lastmod w2) as [o2 w2'].
    simpl in *. subst o2.
    destruct o1; try (repeat split; assumption). now apply IH.
Qed.

Lemma run_tasks_without_failing client tasks : forall w,
  agree (run_tasks client tasks w)
        (run_tasks client (filter (fun t => negb (fails client t)) tasks) w).
Proof.
  induction tasks as [|[path lastmod] rest IH]; intros w; simpl.
  - apply agree_refl.
  - destruct (fails client (path, lastmod)) eqn:F; simpl.
    + destruct (fails_IndexFile client (path, lastmod) w F) as (err & Ho & Ht & Hc).
      simpl in *.
      destruct (IndexFile client path lastmod w) as [o w1]. simpl in *. subst o.
      eapply agree_trans; [apply IH|]. now apply run_tasks_agree.
    + destruct (IndexFile client path lastmod w) as [o w1].
      destruct o; try apply agree_refl. apply IH.
Qed.

Lemma after_tasks_agree (r1 r2 : outcome unit * world) err :
  agree r1 r2 -> agree (after_tasks r1 err) (after_tasks r2 err).
Proof.
  destruct r1 as [o1 w1], r2 as [o2 w2]. unfold agree. simpl.
  intros (Ho & Ht & Hc). subst o2. destruct o1; simpl; repeat split; assumption.
Qed.

Lemma meta_tasks_good Join data_root good rest :
  meta_tasks Join data_root (with_path good ++ rest)
  = (tasks_under Join data_root good ++ fst (meta_tasks Join data_root rest),
     snd (meta_tasks Join data_root rest)).
Proof.
  induction good as [|[rel lastmod] good IH].
  - simpl. destruct (meta_tasks Join data_root rest); reflexivity.
  - change (with_path ((rel, lastmod) :: good) ++ rest)
      with ((inr (Some rel), lastmod) :: (with_path good ++ rest)).
    cbn [meta_tasks]. rewrite IH. reflexivity.
Qed.

(** C6 (as amended): the items for which IndexFile returns an error
    (the decoder's, an unsupported shape, a missing field) are the same in
    every state, and such an item leaves the table and the budget as they
    were.  In the file-list pipeline it does not end the pipeline and does
    not change what happens to the other items: the pipeline ends as it
    does over the list without the failing items, with the same result,
    table and budget.  The pipeline drops the error of the item: what it
    returns, when the list could be read and it returns, is nil.  The
    meta-file pipeline over a meta file whose rows can all be read and
    have a path column is the file-list pipeline over the paths joined to
    the data root; at the first row that cannot be read or has no path
    column the loop ends: no goroutine is started for a later row, and the
    error IndexMetaFile returns there, without waiting for the goroutines
    started before, is that row's.  In the directory pipeline a call of the
    callback for a failing item counts the item, counts it as an error,
    logs the failure and hands the error to the crawler. *)
Theorem failing_items_are_isolated (Join : string -> string -> string) client
        (tasks : list task) (w : world) :
  (forall t w0,
     (fails client t = true <->
      exists err, fst (IndexFile client (fst t) (snd t) w0) = Ret (Some err)) /\
     (fails client t = true ->
      tbl (snd (IndexFile client (fst t) (snd t) w0)) = tbl w0 /\
      conns (snd (IndexFile client (fst t) (snd t) w0)) = conns w0)) /\
  agree (IndexFileList client (inr tasks) w)
        (IndexFileList client (inr (filter (fun t => negb (fails client t)) tasks)) w) /\
  (forall res w', IndexFileList client (inr tasks) w = (Ret res, w') -> res = None) /\
  (forall data_root good,
     IndexMetaFile Join client data_root (inr (with_path good)) w
     = Finished (IndexFileList client (inr (tasks_under Join data_root good)) w)) /\
  (forall data_root good bad stamp rest err,
     row_error bad = Some err ->
     IndexMetaFile Join client data_root (inr (with_path good ++ (bad, stamp) :: rest)) w
     = Abandoned err (tasks_under Join data_root good)) /\
  (forall t c w0, fails client t = true ->
     exists err w',
       IndexFile client (fst t) (snd t) w0 = (Ret (Some err), w') /\
       let msg := ("failed to index " ++ fst t ++ ", because " ++ err)%string in
       cb client t c w0
       = (Ret (Some msg),
          ({| t_count := t_count c + 1; t_ok := t_ok c; t_errs := t_errs c + 1 |},
           say [LogFailedToIndex msg] w'))).
Proof.
  split.
  { intros t w0. split; [split|].
    - intros F. destruct (fails_IndexFile client t w0 F) as (err & He & _). eauto.
    - intros (err & He). now apply (IndexFile_error_fails _ _ _ He).
    - intros F. destruct (fails_IndexFile client t w0 F) as (err & _ & Ht & Hc).
      split; assumption. }
  split; [apply after_tasks_agree, run_tasks_without_failing|].
  split; [|split; [|split]].
  - intros res w'. unfold IndexFileList, after_tasks.
    destruct (run_tasks client tasks w) as [[[]| | |] w1]; intros H; inversion H.
    reflexivity.
  - intros data_root good. unfold IndexMetaFile, IndexFileList.
    rewrite <- (app_nil_r (with_path good)), meta_tasks_good. simpl.
    rewrite app_nil_r. reflexivity.
  - intros data_root good bad stamp rest err Hb. unfold IndexMetaFile.
    rewrite meta_tasks_good.
    destruct bad as [e|[rel|]]; simpl in Hb; inversion Hb; subst; simpl;
      rewrite app_nil_r; reflexivity.
  - intros t c w0 F.
    destruct (fails_IndexFile client t w0 F) as (err & Ho & _).
    unfold cb.
    destruct (IndexFile client (fst t) (snd t) w0) as [o w1]. simpl in Ho. subst o.
    exists err, w1. split; reflexivity.
Qed.

End WithCollaborators.

#[local] Existing Instance Sample.numbers.
#[local] Existing Instance Sample.collaborators.

(** A list of four files of which the second and the third fail; the
    same files as the rows of a meta file read under an empty data root,
    and that meta file with a row without path in the third place. *)
Lemma failing_items_are_isolated_witness :
  let good := [("101.geojson", Sample.stamp1); ("104.geojson", Sample.stamp1);
               ("103.geojson", Sample.stamp1); ("102.geojson", Sample.stamp2)] in
  let join := fun root rel : string =>
                if String.eqb root EmptyString then rel else (root ++ "/" ++ rel)%string in
  fails Sample.client ("104.geojson", Sample.stamp1) = true /\
  agree (IndexFileList Sample.client (inr good) Sample.w0)
        (IndexFileList Sample.client
           (inr [("101.geojson", Sample.stamp1); ("102.geojson", Sample.stamp2)])
           Sample.w0) /\
  IndexMetaFile join Sample.client EmptyString (inr (with_path good)) Sample.w0
  = Finished (IndexFileList Sample.client (inr good) Sample.w0) /\
  IndexMetaFile join Sample.client EmptyString
    (inr (with_path (firstn 2 good) ++ (inr None, Sample.stamp1) :: with_path (skipn 2 good)))
    Sample.w0
  = Abandoned "missing 'path' column in meta file" (firstn 2 good) /\
  fst (IndexFile Sample.client "104.geojson" Sample.stamp1 Sample.w0)
  = Ret (Some "can't find centroid") /\
  cb Sample.client ("104.geojson", Sample.stamp1)
     {| t_count := 0; t_ok := 0; t_errs := 0 |} Sample.w0
  = (Ret (Some "failed to index 104.geojson, because can't find centroid"),
     ({| t_count := 1; t_ok := 0; t_errs := 1 |},
      say [LogFailedToIndex "failed to index 104.geojson, because can't find centroid"]
          Sample.w0)).
Proof.
  intros good join.
  assert (F : fails Sample.client ("104.geojson", Sample.stamp1) = true) by reflexivity.
  assert (B : row_error (inr None) = Some "missing 'path' column in meta file")
    by reflexivity.
  destruct (@failing_items_are_isolated Sample.numbers Sample.collaborators
              join Sample.client good Sample.w0)
    as (_ & Hlist & _ & Hmeta & Hbad & Hcb).
  split; [exact F|]. split; [exact Hlist|].
  split; [exact (Hmeta EmptyString good)|].
  split; [exact (Hbad EmptyString (firstn 2 good) (inr None) Sample.stamp1
                      (with_path (skipn 2 good)) _ B)|].
  destruct (Hcb ("104.geojson", Sample.stamp1)
                {| t_count := 0; t_ok := 0; t_errs := 0 |} Sample.w0 F)
    as (err' & w' & Hf & Hc).
  split; [reflexivity|]. rewrite Hc.
  assert (E : (err', w') = ("can't find centroid", Sample.w0)).
  { assert (E0 : (Ret (Some err'), w')
                 = (Ret (Some "can't find centroid") : outcome (option error), Sample.w0))
      by (rewrite <- Hf; reflexivity).
    now inversion E0. }
  inversion E; subst. reflexivity.
Defined.

(** A meta file whose third row has no path column: a goroutine was
    started for each of the two rows before it, none for the row after it,
    and the error is that of the row. *)
Example meta_file_with_a_bad_row :
  let join := fun root rel : string =>
                if String.eqb root EmptyString then rel else (root ++ "/" ++ rel)%string in
  IndexMetaFile join Sample.client "data"
    (inr [(inr (Some "101.geojson"), Sample.stamp1); (inr (Some "102.geojson"), Sample.stamp1);
          (inr None, Sample.stamp1); (inr (Some "103.geojson"), Sample.stamp1)])
    Sample.w0
  = Abandoned "missing 'path' column in meta file"
              [("data/101.geojson", Sample.stamp1); ("data/102.geojson", Sample.stamp1)].
Proof. reflexivity. Qed.

(** C6, the claim as stated fails: the file-list pipeline over one item,
    a polygon without label or geom: coordinates.  IndexFile returns the
    error of the missing centroid; the pipeline returns nil and leaves the
    state, log included, exactly as it found it: the failure is neither
    logged nor counted, and nothing tells this run from a run over an
    empty list. *)
Lemma file_list_failure_leaves_no_trace :
  fst (IndexFile Sample.client "104.geojson" Sample.stamp1 Sample.w0)
    = Ret (Some "can't find centroid") /\
  IndexFileList Sample.client (inr [("104.geojson", Sample.stamp1)]) Sample.w0
    = (Ret None, Sample.w0) /\
  IndexFileList Sample.client (inr [("104.geojson", Sample.stamp1)]) Sample.w0
    = IndexFileList Sample.client (inr []) Sample.w0 /\
  failures_logged
    (logs (snd (IndexFileList Sample.client (inr [("104.geojson", Sample.stamp1)])
                              Sample.w0))) = 0%nat.
Proof. repeat split. Qed.

(** A list of four files of which the second and the third fail (no
    centroid, a LineString): the pipeline returns nil, the two others are
    stored, the budget is whole. *)
Example file_list_with_failures :
  let run := IndexFileList Sample.client
               (inr [("101.geojson", Sample.stamp1); ("104.geojson", Sample.stamp1);
                     ("103.geojson", Sample.stamp1); ("102.geojson", Sample.stamp2)])
               Sample.w0 in
  fst run = Ret None /\
  List.length (tbl (snd run)) = 2%nat /\
  (exists r, rows_of 101 (tbl (snd run)) = [r] /\ r c_lastmod = VText Sample.stamp1) /\
  (exists r, rows_of 102 (tbl (snd run)) = [r] /\ r c_lastmod = VText Sample.stamp2) /\
  conns (snd run) = 10%nat /\
  logs (snd run) = [LogGeomTypeIs "LineString"].
Proof.
  repeat split; try (eexists; split; reflexivity).
Qed.

End BulkFacts.

(** ** The offsets of [FetchIntersectsAsync] as pages *)
Module PagingLaws.
Import Paging.

(** The offsets the loop visits from [offset] on: those between [offset]
    and [count] at a whole number of steps from [offset]. *)
Lemma offsets_from_In fuel : forall offset count limit,
  1 <= limit -> 0 <= offset -> count + limit <= int_max ->
  count - offset < Z.of_nat fuel ->
  forall o, In o (offsets_from fuel offset count limit) <->
            (offset <= o <= count /\ (limit | o - offset)).
Proof.
  induction fuel as [|k IH]; intros offset count limit Hl Ho Hmax Hf o.
  - simpl. split; [tauto|]. intros [H _]. lia.
  - cbn [offsets_from]. destruct (Z.leb_spec offset count) as [Hle|Hgt].
    + unfold int_add. rewrite int_wrap_small by (unfold int_min; lia).
      cbn [In]. rewrite IH by lia. split.
      * intros [<-|[Hr [z Hz]]].
        -- split; [lia|]. exists 0. lia.
        -- split; [lia|]. exists (z + 1). lia.
      * intros [Hr [z Hz]].
        destruct (Z.eq_dec o offset) as [->|Hne]; [now left|right].
        assert (1 <= z) by nia.
        split; [nia|]. exists (z - 1). lia.
    + split; [intros []|]. intros [H _]. lia.
Qed.

Lemma offsets_from_NoDup fuel : forall offset count limit,
  1 <= limit -> 0 <= offset -> count + limit <= int_max ->
  count - offset < Z.of_nat fuel ->
  NoDup (offsets_from fuel offset count limit).
Proof.
  induction fuel as [|k IH]; intros offset count limit Hl Ho Hmax Hf.
  - constructor.
  - cbn [offsets_from]. destruct (Z.leb_spec offset count) as [Hle|Hgt]; [|constructor].
    unfold int_add. rewrite int_wrap_small by (unfold int_min; lia).
    constructor; [|apply IH; lia].
    intros Hin. apply offsets_from_In in Hin; lia.
Qed.

(** X1: for a page size [P >= 1] and an expected count [N >= 0], the
    offsets for which FetchIntersectsAsync starts a goroutine are the
    multiples of P from 0 to N, each once; so every row position below N
    lies in the page [offset, offset + P) of exactly one goroutine. *)
Theorem pages_cover_each_row_once (N P : Z) :
  1 <= P -> 0 <= N -> N + P <= int_max ->
  (forall o, In o (offsets N P) <-> (0 <= o <= N /\ (P | o))) /\
  NoDup (offsets N P) /\
  (forall i, 0 <= i < N ->
     exists o, In o (offsets N P) /\ o <= i < o + P /\
               forall o', In o' (offsets N P) -> o' <= i < o' + P -> o' = o).
Proof.
  intros HP HN Hmax.
  assert (Hin : forall o, In o (offsets N P) <-> (0 <= o <= N /\ (P | o))).
  { intros o. unfold offsets. rewrite offsets_from_In by lia.
    now rewrite Z.sub_0_r. }
  split; [exact Hin|]. split; [apply offsets_from_NoDup; lia|].
  intros i Hi. exists (i / P * P).
  pose proof (Z.div_mod i P ltac:(lia)) as E.
  pose proof (Z.mod_pos_bound i P ltac:(lia)) as B.
  assert (0 <= i / P) by (apply Z.div_pos; lia).
  split; [|split].
  - apply Hin. split; [nia|]. exists (i / P). reflexivity.
  - nia.
  - intros o' Ho' Hr. apply Hin in Ho' as [_ [z ->]].
    assert (z = i / P) by (apply Z.div_unique with (r := i - z * P); lia).
    now subst.
Qed.

(** The default page size and 2500 expected rows. *)
Lemma pages_cover_each_row_once_witness :
  In 2000 (offsets 2500 1000) /\ NoDup (offsets 2500 1000).
Proof.
  assert (H1 : 1 <= 1000) by lia.
  assert (H2 : 0 <= 2500) by lia.
  assert (H3 : 2500 + 1000 <= int_max) by (unfold int_max; lia).
  destruct (pages_cover_each_row_once H1 H2 H3) as (Ha & Hb & _).
  split; [|exact Hb]. apply Ha. split; [lia|]. exists 2. reflexivity.
Defined.

End PagingLaws.

(** ** [IndexFeature]: outcomes, frame and order *)
Module IndexLaws.
Import Table Index TableFacts IndexFacts.

Section WithCollaborators.
Context {JN : JsonNumber} {CO : Collaborators}.

(** The shape of the statement for prepared values with a centroid. *)
Definition shape_of (p : prepared) : write_shape :=
  if nonempty (p_str_geom p) then GeomAndCentroid else CentroidOnly.

(** The geometry dispatch returns, or panics in the bbox branch. *)
Lemma geometry_filter_outcome client f :
  match geometry_filter client f with
  | Ret _ => True
  | Panics => Geometry client = "bbox"
  | Blocks | Exits _ => False
  end.
Proof.
  unfold geometry_filter.
  destruct (String.eqb_spec (Geometry client) EmptyString); [exact I|].
  destruct (String.eqb_spec (Geometry client) "bbox") as [E|E].
  - destruct (bbox f) as [|[a|] [|[b|] [|[c|] [|[d|] rest]]]]; auto.
  - destruct (String.eqb (Geometry client) "centroid"); exact I.
Qed.

Lemma prepare_outcome client f lastmod :
  match prepare client f lastmod with
  | Ret _ => True
  | Panics => Geometry client = "bbox"
  | Blocks | Exits _ => False
  end.
Proof.
  unfold prepare. pose proof (geometry_filter_outcome client f) as H.
  destruct (geometry_filter client f) as [[l0 [e|[sg c0]]]| | |]; auto.
  destruct (derive_centroid f c0); auto.
  destruct (GetPlacetypeByName (Placetype f)); auto.
  destruct (wof_repo f) as [repo|]; auto.
  destruct (String.eqb repo EmptyString); auto.
  destruct (marshal_meta _); auto.
  destruct (HashGeomFromFeature _); auto.
Qed.

(** The three ways the write ends. *)
Lemma write_outcome p w :
  p_str_centroid p <> EmptyString ->
  (conns w = O /\ write p w = (Blocks, w)) \/
  (exists n err, conns w = S n /\ accepted (shape_of p) p = false /\
     write p w = (Exits 1, {| conns := n; tbl := tbl w;
                              logs := logs w ++ [LogExecError err;
                                LogExecSql (upsert_sql (p_str_geom p) (p_str_centroid p))] |})) \/
  (exists n, conns w = S n /\ accepted (shape_of p) p = true /\
     write p w = (Ret None,
                  {| conns := S n;
                     tbl := upsert_rows (VInt (p_wofid p)) (new_row (shape_of p) p)
                                        (updated (shape_of p) p) (tbl w);
                     logs := logs w |})).
Proof.
  intros Hc. unfold write, upsert_sql.
  rewrite (select_shape_with_centroid (p_str_geom p) Hc). fold (shape_of p).
  destruct (conns w) as [|n]; [left; split; reflexivity|right].
  cbn [Budget.dbconn option_map exec_sql].
  destruct (Exec geojson_ok _ _ _) as [e|t'] eqn:Ex.
  - left. exists n, e. split; [reflexivity|]. split; [|reflexivity].
    destruct (accepted (shape_of p) p) eqn:A; [|reflexivity]. exfalso.
    unfold shape_of, accepted, Exec in *.
    destruct (nonempty (p_str_geom p)); cbn in Ex, A.
    + apply andb_prop in A as [A1 A2]. rewrite A1, A2 in Ex. cbn in Ex.
      destruct (existsb _ (tbl w)); discriminate.
    + rewrite A in Ex. cbn in Ex. destruct (existsb _ (tbl w)); discriminate.
  - right. exists n. apply Exec_shape in Ex as (_ & Ha & ->).
    split; [reflexivity|]. split; [exact Ha|]. reflexivity.
Qed.

(** What [IndexFeature] does, told apart by what it found before the
    write. *)
Inductive verdict : Type :=
| Skipped                                   (* id 0 *)
| Refused (l : list log_line) (err : error) (* an error while preparing *)
| Panicked                                  (* the bbox branch *)
| Ready (l : list log_line) (p : prepared). (* values to write *)

Definition judge (client : PgisClient) (f : WOFFeature) (lastmod : string) : verdict :=
  if Index.Id f =? 0 then Skipped
  else match prepare client f lastmod with
       | Ret (l, inl err) => Refused l err
       | Ret (l, inr p) => Ready l p
       | _ => Panicked
       end.

Lemma IndexFeature_judged client f lastmod w :
  match judge client f lastmod with
  | Skipped => IndexFeature client f lastmod w = (Ret None, say [LogSkippingEarth] w)
  | Refused l err => IndexFeature client f lastmod w = (Ret (Some err), say l w)
  | Panicked => IndexFeature client f lastmod w = (Panics, w) /\ Geometry client = "bbox"
  | Ready l p =>
      Index.Id f <> 0 /\ p_wofid p = Index.Id f /\ p_str_centroid p <> EmptyString /\
      IndexFeature client f lastmod w
      = if Debug client then (Ret None, say l w) else write p (say l w)
  end.
Proof.
  unfold judge, IndexFeature.
  destruct (Z.eqb_spec (Index.Id f) 0) as [E|E]; [reflexivity|].
  pose proof (prepare_outcome client f lastmod) as Ho.
  destruct (prepare client f lastmod) as [[l [e|p]]| | |] eqn:Ep;
    try reflexivity; try contradiction; [|split; [reflexivity|exact Ho]].
  split; [exact E|].
  split; [now apply prepare_inv in Ep as (? & ? & _ & _ & _ & ? & _)|].
  split; [exact (prepare_centroid_nonempty _ _ _ Ep)|reflexivity].
Qed.

(** X2: the budget after IndexFeature, by the way the call ends.  When
    it returns, with nil or with an error, the budget is what it was: the
    token taken for the write is given back by the deferred send.  It
    waits for ever only for a token, that is with an empty budget, outside
    a dry run, on a feature that is not skipped, and then nothing is
    written.  It ends the process only with exit code 1, the token still
    taken and the table as it was.  It panics only with the bbox filter,
    before anything is logged or written. *)
Theorem budget_by_outcome client f lastmod w :
  match IndexFeature client f lastmod w with
  | (Ret _, w') => conns w' = conns w
  | (Blocks, w') =>
      conns w = O /\ Debug client = false /\ Index.Id f <> 0 /\ tbl w' = tbl w
  | (Exits code, w') => code = 1 /\ conns w = S (conns w') /\ tbl w' = tbl w
  | (Panics, w') => Geometry client = "bbox" /\ w' = w
  end.
Proof.
  pose proof (IndexFeature_judged client f lastmod w) as H.
  destruct (judge client f lastmod) as [|l err| |l p].
  - rewrite H. reflexivity.
  - rewrite H. reflexivity.
  - destruct H as [-> Hg]. split; [exact Hg|reflexivity].
  - destruct H as (Hid & _ & Hc & ->).
    destruct (Debug client) eqn:Hd; [reflexivity|].
    destruct (@write_outcome p (say l w) Hc)
      as [[H0 ->]|[(n & err & Hn & _ & ->)|(n & Hn & _ & ->)]]; simpl in *.
    + repeat split; assumption.
    + repeat split; assumption.
    + symmetry. exact Hn.
Qed.

Lemma judge_Refused client f lastmod l err :
  judge client f lastmod = Refused l err ->
  Index.Id f <> 0 /\ prepare client f lastmod = Ret (l, inl err).
Proof.
  unfold judge. destruct (Z.eqb_spec (Index.Id f) 0) as [E|E]; [discriminate|].
  destruct (prepare client f lastmod) as [[l' [e|p]]| | |]; try discriminate.
  intros H. inversion H. split; [exact E|reflexivity].
Qed.

Lemma judge_Ready client f lastmod l p :
  judge client f lastmod = Ready l p ->
  Index.Id f <> 0 /\ prepare client f lastmod = Ret (l, inr p).
Proof.
  unfold judge. destruct (Z.eqb_spec (Index.Id f) 0) as [E|E]; [discriminate|].
  destruct (prepare client f lastmod) as [[l' [e|p']]| | |]; try discriminate.
  intros H. inversion H. split; [exact E|reflexivity].
Qed.

Lemma returned_error_inv client f lastmod w err w' :
  IndexFeature client f lastmod w = (Ret (Some err), w') ->
  Index.Id f <> 0 /\ exists l, prepare client f lastmod = Ret (l, inl err).
Proof.
  intros Hrun.
  pose proof (IndexFeature_judged client f lastmod w) as H.
  destruct (judge client f lastmod) as [|l e| |l p] eqn:J.
  - rewrite H in Hrun. discriminate.
  - rewrite H in Hrun. inversion Hrun; subst.
    apply judge_Refused in J as [Hid Hp]. eauto.
  - destruct H as [E _]. rewrite E in Hrun. discriminate.
  - destruct H as (_ & _ & Hc & E). rewrite E in Hrun.
    destruct (Debug client); [discriminate|].
    destruct (@write_outcome p (say l w) Hc)
      as [[_ E']|[(n & e & _ & _ & E')|(n & _ & _ & E')]];
      rewrite E' in Hrun; discriminate.
Qed.

(** X3: an error IndexFeature returns was found while preparing the
    row: it does not depend on the table, the budget or the log, so the
    same call fails alike in every state; the table and the budget are
    left as they were.  An error of the statement itself is never
    returned. *)
Theorem returned_error_is_stateless client f lastmod w err w' :
  IndexFeature client f lastmod w = (Ret (Some err), w') ->
  tbl w' = tbl w /\ conns w' = conns w /\
  Index.Id f <> 0 /\
  (exists l, prepare client f lastmod = Ret (l, inl err) /\ w' = say l w) /\
  forall v, exists v',
    IndexFeature client f lastmod v = (Ret (Some err), v') /\
    tbl v' = tbl v /\ conns v' = conns v.
Proof.
  intros Hrun.
  pose proof (IndexFeature_judged client f lastmod) as H.
  destruct (judge client f lastmod) as [|l e| |l p] eqn:J.
  - rewrite (H w) in Hrun. discriminate.
  - rewrite (H w) in Hrun. inversion Hrun; subst; clear Hrun. simpl.
    apply judge_Refused in J as [Hid Hp].
    split; [reflexivity|]. split; [reflexivity|]. split; [exact Hid|]. split.
    + exists l. split; [exact Hp|reflexivity].
    + intros v. exists (say l v). rewrite (H v). repeat split.
  - destruct (H w) as [E _]. rewrite E in Hrun. discriminate.
  - destruct (H w) as (_ & _ & Hc & E). rewrite E in Hrun.
    destruct (Debug client); [discriminate|].
    destruct (@write_outcome p (say l w) Hc)
      as [[_ E']|[(n & e & _ & _ & E')|(n & _ & _ & E')]];
      rewrite E' in Hrun; discriminate.
Qed.

(** X4: a statement the store rejects ends the process.  For a feature
    that is prepared without error, outside a dry run and with a token in
    the budget: when the store refuses one of the geometry texts,
    IndexFeature logs the error and the statement and calls os.Exit(1);
    the table is as it was and the token it took is not given back (no
    deferred call runs); otherwise it returns nil with the budget as it
    was. *)
Theorem rejected_statement_ends_process client f lastmod w l p n :
  Index.Id f <> 0 -> Debug client = false ->
  prepare client f lastmod = Ret (l, inr p) -> conns w = S n ->
  if accepted (shape_of p) p
  then exists w', IndexFeature client f lastmod w = (Ret None, w') /\
                  conns w' = S n /\ logs w' = logs w ++ l
  else exists err,
         IndexFeature client f lastmod w
         = (Exits 1,
            {| conns := n; tbl := tbl w;
               logs := (logs w ++ l) ++
                       [LogExecError err;
                        LogExecSql (upsert_sql (p_str_geom p) (p_str_centroid p))] |}).
Proof.
  intros Hid Hd Hp Hn.
  pose proof (prepare_centroid_nonempty _ _ _ Hp) as Hc.
  unfold IndexFeature. destruct (Z.eqb_spec (Index.Id f) 0) as [E|_]; [contradiction|].
  rewrite Hp, Hd.
  destruct (@write_outcome p (say l w) Hc)
    as [[H0 _]|[(m & err & Hm & Ha & ->)|(m & Hm & Ha & ->)]]; simpl in *.
  - congruence.
  - rewrite Ha. exists err. repeat f_equal. congruence.
  - rewrite Ha. eexists. split; [reflexivity|]. simpl. split; [congruence|reflexivity].
Qed.

(** *** What a write does to the rows of an id *)

Lemma filter_map_upd k (upd : row -> row) (t : table) :
  (forall r, upd r c_id = r c_id) ->
  filter (has_id k) (map (fun r => if has_id k r then upd r else r) t)
  = map upd (filter (has_id k) t).
Proof.
  intros Hu. induction t as [|r t IH]; simpl; [reflexivity|].
  destruct (has_id k r) eqn:Hr.
  - rewrite (has_id_upd k upd Hu), Hr. simpl. now f_equal.
  - rewrite Hr. exact IH.
Qed.

Lemma filter_nil_existsb (g : row -> bool) (t : table) :
  filter g t = [] -> existsb g t = false.
Proof.
  induction t as [|r t IH]; simpl; [reflexivity|].
  destruct (g r); [discriminate|]. exact IH.
Qed.

(** The rows of every id after an upsert, from the rows of that id
    before. *)
Lemma rows_of_upsert_rows k j new upd t :
  new c_id = VInt k -> (forall r, upd r c_id = r c_id) ->
  rows_of j (upsert_rows (VInt k) new upd t)
  = if j =? k
    then match rows_of k t with [] => [new] | r :: rs => map upd (r :: rs) end
    else rows_of j t.
Proof.
  intros Hn Hu. destruct (Z.eqb_spec j k) as [->|Hne].
  - unfold rows_of, upsert_rows.
    destruct (existsb (has_id (VInt k)) t) eqn:E.
    + rewrite filter_map_upd by exact Hu.
      destruct (filter (has_id (VInt k)) t) eqn:F; [|reflexivity].
      apply filter_nil_existsb in F. congruence.
    + rewrite (filter_absent _ t E), filter_app, (filter_absent _ t E). simpl.
      unfold has_id. rewrite Hn.
      assert (value_eqb (VInt k) (VInt k) = true) as -> by (now apply value_eqb_eq).
      reflexivity.
  - unfold rows_of. apply upsert_rows_other; [exact Hn|exact Hu|congruence].
Qed.

Lemma upsert_rows_length k new upd (t : table) :
  (List.length t <= List.length (upsert_rows k new upd t) <= S (List.length t))%nat.
Proof.
  unfold upsert_rows. destruct (existsb (has_id k) t).
  - rewrite length_map. lia.
  - rewrite length_app. simpl. lia.
Qed.

(** The values written by a call that writes. *)
Definition writes (client : PgisClient) (f : WOFFeature) (lastmod : string)
  : option prepared :=
  match judge client f lastmod with
  | Ready _ p => if Debug client then None else Some p
  | _ => None
  end.

Definition written (p : prepared) (t : table) : table :=
  upsert_rows (VInt (p_wofid p)) (new_row (shape_of p) p) (updated (shape_of p) p) t.

Lemma writes_id client f lastmod p :
  writes client f lastmod = Some p -> p_wofid p = Index.Id f.
Proof.
  unfold writes. destruct (judge client f lastmod) as [|? ?| |l q] eqn:J; try discriminate.
  destruct (Debug client); [discriminate|]. intros H. inversion H; subst.
  apply judge_Ready in J as [_ Hp].
  now apply prepare_inv in Hp as (? & ? & _ & _ & _ & ? & _).
Qed.

(** The table after [IndexFeature], whatever the way it ends. *)
Lemma IndexFeature_table client f lastmod w :
  tbl (snd (IndexFeature client f lastmod w)) = tbl w \/
  exists p, writes client f lastmod = Some p /\ p_wofid p = Index.Id f /\
            fst (IndexFeature client f lastmod w) = Ret None /\
            tbl (snd (IndexFeature client f lastmod w)) = written p (tbl w).
Proof.
  pose proof (IndexFeature_judged client f lastmod w) as H. unfold writes.
  destruct (judge client f lastmod) as [|l err| |l p].
  - rewrite H. now left.
  - rewrite H. now left.
  - destruct H as [-> _]. now left.
  - destruct H as (_ & Hw & Hc & ->).
    destruct (Debug client); [now left|].
    destruct (@write_outcome p (say l w) Hc)
      as [[_ ->]|[(n & err & _ & _ & ->)|(n & _ & _ & ->)]]; simpl;
      [now left|now left|].
    right. exists p. repeat split. exact Hw.
Qed.

(** A call that returned returns the same in every state with as many
    tokens. *)
Lemma IndexFeature_replay client f lastmod w r w' :
  IndexFeature client f lastmod w = (Ret r, w') ->
  conns w' = conns w /\
  tbl w' = match writes client f lastmod with
           | Some p => written p (tbl w)
           | None => tbl w
           end /\
  forall v, conns v = conns w ->
    exists v', IndexFeature client f lastmod v = (Ret r, v').
Proof.
  intros Hrun.
  pose proof (IndexFeature_judged client f lastmod) as H. unfold writes.
  destruct (judge client f lastmod) as [|l err| |l p].
  - rewrite (H w) in Hrun. inversion Hrun; subst. repeat split.
    intros v _. rewrite (H v). eauto.
  - rewrite (H w) in Hrun. inversion Hrun; subst. repeat split.
    intros v _. rewrite (H v). eauto.
  - destruct (H w) as [E _]. rewrite E in Hrun. discriminate.
  - destruct (H w) as (_ & _ & Hc & E). rewrite E in Hrun.
    destruct (Debug client) eqn:Hd.
    + inversion Hrun; subst. repeat split.
      intros v _. destruct (H v) as (_ & _ & _ & ->). eauto.
    + destruct (@write_outcome p (say l w) Hc)
        as [[_ E']|[(n & e & _ & _ & E')|(n & Hn & Ha & E')]];
        rewrite E' in Hrun; try discriminate.
      inversion Hrun; subst; clear Hrun. simpl in *.
      split; [congruence|]. split; [reflexivity|].
      intros v Hv. destruct (H v) as (_ & _ & _ & ->).
      destruct (@write_outcome p (say l v) Hc)
        as [[H0 _]|[(m & e & _ & Ha' & _)|(m & _ & _ & ->)]]; simpl in *;
        [congruence|congruence|eauto].
Qed.

Lemma written_keyed p t : keyed t -> keyed (written p t).
Proof. apply upsert_keyed; [apply new_row_id|apply updated_id]. Qed.

Lemma rows_of_written p j t :
  rows_of j (written p t)
  = if j =? p_wofid p
    then match rows_of (p_wofid p) t with
         | [] => [new_row (shape_of p) p]
         | r :: rs => map (updated (shape_of p) p) (r :: rs)
         end
    else rows_of j t.
Proof. apply rows_of_upsert_rows; [apply new_row_id|apply updated_id]. Qed.

(** X5: whatever the way it ends, IndexFeature keeps the primary key
    (a table without two rows of one id stays so), leaves the rows of
    every other id as they were, removes no row and adds at most one. *)
Theorem keys_and_other_rows_kept client f lastmod w :
  let w' := snd (IndexFeature client f lastmod w) in
  (keyed (tbl w) -> keyed (tbl w')) /\
  (forall k, k <> Index.Id f -> rows_of k (tbl w') = rows_of k (tbl w)) /\
  (List.length (tbl w) <= List.length (tbl w') <= S (List.length (tbl w)))%nat /\
  (forall k, rows_of k (tbl w) <> [] -> rows_of k (tbl w') <> []).
Proof.
  intros w'. subst w'.
  destruct (IndexFeature_table client f lastmod w) as [->|(p & _ & Hid & _ & ->)].
  - repeat split; auto; lia.
  - split; [apply written_keyed|]. split; [|split].
    + intros k Hk. rewrite rows_of_written, Hid.
      destruct (Z.eqb_spec k (Index.Id f)); [contradiction|reflexivity].
    + apply upsert_rows_length.
    + intros k Hk. rewrite rows_of_written.
      destruct (Z.eqb_spec k (p_wofid p)) as [->|_]; [|exact Hk].
      destruct (rows_of (p_wofid p) (tbl w)); [contradiction|discriminate].
Qed.

(** X6: two calls of IndexFeature on features with different ids take
    effect in either order alike: when the calls return one after the
    other, they return the same results in the other order, and the two
    orders leave the same rows under every id and the same budget.  (The
    order of the rows in the table and of the lines in the log may
    differ.) *)
Theorem distinct_ids_commute ca cb fa fb la lb w wa wab ra rb :
  Index.Id fa <> Index.Id fb ->
  IndexFeature ca fa la w = (Ret ra, wa) ->
  IndexFeature cb fb lb wa = (Ret rb, wab) ->
  exists wb wba,
    IndexFeature cb fb lb w = (Ret rb, wb) /\
    IndexFeature ca fa la wb = (Ret ra, wba) /\
    conns wba = conns wab /\
    forall k, rows_of k (tbl wba) = rows_of k (tbl wab).
Proof.
  intros Hne Ha Hb.
  destruct (IndexFeature_replay _ _ _ _ Ha) as (Ca & Ta & Ra).
  destruct (IndexFeature_replay _ _ _ _ Hb) as (Cb & Tb & Rb).
  destruct (Rb w (eq_sym Ca)) as (wb & Hb').
  destruct (IndexFeature_replay _ _ _ _ Hb') as (Cb' & Tb' & _).
  destruct (Ra wb Cb') as (wba & Ha').
  destruct (IndexFeature_replay _ _ _ _ Ha') as (Ca' & Ta' & _).
  exists wb, wba. split; [exact Hb'|]. split; [exact Ha'|].
  split; [congruence|].
  intros k. rewrite Ta', Tb', Tb, Ta.
  destruct (writes ca fa la) as [pa|] eqn:Wa, (writes cb fb lb) as [pb|] eqn:Wb;
    try reflexivity.
  rewrite !rows_of_written, (writes_id _ _ _ Wa), (writes_id _ _ _ Wb).
  destruct (Z.eqb_spec k (Index.Id fa)) as [Ka|Ka];
    destruct (Z.eqb_spec k (Index.Id fb)) as [Kb|Kb]; try congruence.
  - subst k. destruct (Z.eqb_spec (Index.Id fa) (Index.Id fb)); [contradiction|reflexivity].
  - subst k. destruct (Z.eqb_spec (Index.Id fb) (Index.Id fa)); [congruence|reflexivity].
Qed.

(** *** The geometry filters *)



(** X8: the bbox filter reads the first four children of the bbox
    member as floats without a check: on a feature whose bbox has fewer
    than four children, or one of the first four not a number,
    IndexFeature panics, in a dry run too, before anything is logged,
    written or taken from the budget; and a value of client.Geometry that
    is none of the three filters is an error for every feature that is not
    skipped. *)
Theorem geometry_filter_edges client f lastmod w :
  Index.Id f <> 0 ->
  (Geometry client = "bbox" ->
   (forall a b c d rest, bbox f <> Some a :: Some b :: Some c :: Some d :: rest) ->
   IndexFeature client f lastmod w = (Panics, w)) /\
  (Geometry client <> EmptyString -> Geometry client <> "bbox" ->
   Geometry client <> "centroid" ->
   exists w', IndexFeature client f lastmod w = (Ret (Some "unknown geometry filter"), w') /\
              tbl w' = tbl w /\ conns w' = conns w /\ logs w' = logs w).
Proof.
  intros Hid. unfold IndexFeature.
  destruct (Z.eqb_spec (Index.Id f) 0) as [E|_]; [contradiction|]. split.
  - intros Hg Hb. unfold prepare, geometry_filter. rewrite Hg. cbn.
    destruct (bbox f) as [|[a|] [|[b|] [|[c|] [|[d|] rest]]]]; try reflexivity.
    exfalso. eapply Hb. reflexivity.
  - intros H1 H2 H3. unfold prepare, geometry_filter.
    destruct (String.eqb_spec (Geometry client) EmptyString); [contradiction|].
    destruct (String.eqb_spec (Geometry client) "bbox"); [contradiction|].
    destruct (String.eqb_spec (Geometry client) "centroid"); [contradiction|].
    eexists. split; [reflexivity|]. simpl. repeat split. apply app_nil_r.
Qed.

(** *** The values prepared *)

Lemma prepare_fields client f lastmod l p :
  prepare client f lastmod = Ret (l, inr p) ->
  exists l0 repo,
    wof_repo f = Some repo /\ repo <> EmptyString /\
    p_parent p = match wof_parent_id f with Some x => x | None => -1 end /\
    p_is_deprecated p = (if Deprecated f then 1 else 0) /\
    p_is_superseded p = (if Superseded f then 1 else 0) /\
    marshal_meta {| meta_Name := Name f;
                    meta_Country := match wof_country f with
                                    | Some c => c | None => "XX" end;
                    meta_Repo := repo; meta_Hierarchy := Hierarchy f |}
    = inr (p_str_meta p) /\
    HashGeomFromFeature (Dumps f) = inr (p_geom_hash p) /\
    l = l0 ++ match wof_parent_id f with
              | Some _ => []
              | None => [LogFailedParent (Itoa (Index.Id f) ++ "#" ++ repo)%string]
              end
           ++ match wof_country f with
              | Some _ => []
              | None => [LogFailedCountry (Itoa (Index.Id f) ++ "#meta")%string]
              end
           ++ verbose_line client p.
Proof.
  unfold prepare.
  destruct (geometry_filter client f) as [[l0 [e|[sg c0]]]| | |]; try discriminate.
  destruct (derive_centroid f c0) as [e|sc]; try discriminate.
  destruct (GetPlacetypeByName (Placetype f)) as [e|ptid]; try discriminate.
  destruct (wof_repo f) as [repo|]; try discriminate.
  destruct (String.eqb_spec repo EmptyString) as [|Hr]; try discriminate.
  destruct (marshal_meta _) as [e|str_meta] eqn:Em; try discriminate.
  destruct (HashGeomFromFeature _) as [e|h] eqn:Eh; try discriminate.
  intros H. inversion H; subst; clear H. cbn.
  exists l0, repo. repeat split; auto.
Qed.

(** X9: the defaults for missing properties.  A feature without a
    wof:parent_id is stored with parent_id -1, and a feature without a
    wof:country with the country XX in its meta text; each default is
    logged, and neither is an error. *)
Theorem missing_parent_and_country_defaults client f lastmod w w' :
  Debug client = false -> Index.Id f <> 0 -> keyed (tbl w) ->
  IndexFeature client f lastmod w = (Ret None, w') ->
  exists r repo,
    rows_of (Index.Id f) (tbl w') = [r] /\ wof_repo f = Some repo /\
    (wof_parent_id f = None ->
       r c_parent_id = VInt (-1) /\
       In (LogFailedParent (Itoa (Index.Id f) ++ "#" ++ repo)%string) (logs w')) /\
    (wof_country f = None ->
       (exists m, marshal_meta {| meta_Name := Name f; meta_Country := "XX";
                                  meta_Repo := repo; meta_Hierarchy := Hierarchy f |}
                  = inr m /\ r c_meta = VText m) /\
       In (LogFailedCountry (Itoa (Index.Id f) ++ "#meta")%string) (logs w')).
Proof.
  intros Hd Hid K Hrun.
  destruct (@IndexFeature_written _ _ client f lastmod w w' Hd Hid K Hrun)
    as (l & p & sh & r & Hp & _ & _ & Hr & Hh & _).
  destruct (prepare_fields _ _ _ Hp)
    as (l0 & repo & Hrepo & _ & Hpar & _ & _ & Hmeta & _ & Hl).
  assert (Hlogs : logs w' = logs w ++ l).
  { unfold IndexFeature in Hrun.
    destruct (Z.eqb_spec (Index.Id f) 0) as [|_]; [contradiction|].
    rewrite Hp, Hd in Hrun.
    destruct (@write_outcome p (say l w) (prepare_centroid_nonempty _ _ _ Hp))
      as [[_ E']|[(n & e & _ & _ & E')|(n & _ & _ & E')]];
      rewrite E' in Hrun; try discriminate.
    inversion Hrun; subst. reflexivity. }
  destruct Hh as (_ & Hparent & _ & _ & _ & Hm & _).
  exists r, repo. split; [exact Hr|]. split; [exact Hrepo|]. split.
  - intros Hnone. rewrite Hnone in Hpar, Hl. split; [congruence|].
    rewrite Hlogs, Hl. apply in_or_app. right. apply in_or_app. right.
    apply in_or_app. left. now left.
  - intros Hnone. rewrite Hnone in Hmeta, Hl. split; [eauto|].
    rewrite Hlogs, Hl. apply in_or_app. right. apply in_or_app. right.
    apply in_or_app. right. apply in_or_app. left. now left.
Qed.

(** X10: what a nil from IndexFeature presupposes.  For a feature that
    is not skipped, nil is returned only when client.Geometry is one of
    the three filters, the placetype is known, wof:repo is there and not
    empty, the hash could be made, and, unless the feature
    is a Point read with the default filter, the label or the geom:
    coordinates are both numbers. *)
Theorem nil_requires_wellformed client f lastmod w w' :
  Index.Id f <> 0 ->
  IndexFeature client f lastmod w = (Ret None, w') ->
  (Geometry client = EmptyString \/ Geometry client = "bbox" \/
   Geometry client = "centroid") /\
  (exists ptid, GetPlacetypeByName (Placetype f) = inr ptid) /\
  (exists repo, wof_repo f = Some repo /\ repo <> EmptyString) /\
  (exists h, HashGeomFromFeature (Dumps f) = inr h) /\
  ((Geometry client = EmptyString /\ geometry_type f = "Point") \/
   (exists lat lon, (lbl_latitude f = Some lat /\ lbl_longitude f = Some lon) \/
                    (geom_latitude f = Some lat /\ geom_longitude f = Some lon))).
Proof.
  intros Hid Hrun.
  assert (Hp : exists l p, prepare client f lastmod = Ret (l, inr p)).
  { pose proof (IndexFeature_judged client f lastmod w) as H.
    destruct (judge client f lastmod) as [|l0 e| |l p] eqn:J.
    - unfold judge in J. destruct (Z.eqb_spec (Index.Id f) 0); [contradiction|].
      destruct (prepare client f lastmod) as [[? [?|?]]| | |]; discriminate.
    - rewrite H in Hrun. discriminate.
    - destruct H as [E _]. rewrite E in Hrun. discriminate.
    - apply judge_Ready in J as [_ Hp]. eauto. }
  destruct Hp as (l & p & Hp).
  destruct (prepare_fields _ _ _ Hp) as (_ & repo & Hrepo & Hne & _ & _ & _ & _ & Hh & _).
  destruct (prepare_inv _ _ _ Hp) as (l0 & c0 & Hf & Hd & Hpt & _).
  assert (Hfilter : Geometry client = EmptyString \/ Geometry client = "bbox" \/
                    Geometry client = "centroid").
  { unfold geometry_filter in Hf.
    destruct (String.eqb_spec (Geometry client) EmptyString); [now left|].
    destruct (String.eqb_spec (Geometry client) "bbox"); [now right; left|].
    destruct (String.eqb_spec (Geometry client) "centroid"); [now right; right|].
    discriminate. }
  split; [exact Hfilter|]. split; [eauto|]. split; [eauto|]. split; [eauto|].
  destruct (String.eqb_spec c0 EmptyString) as [->|Hc0].
  - right. apply derive_centroid_from_coordinates in Hd as (lon & lat & _ & Hfrom).
    eauto.
  - left. unfold geometry_filter in Hf.
    destruct (String.eqb_spec (Geometry client) EmptyString) as [Hg|Hg].
    + split; [exact Hg|]. unfold default_geometry in Hf.
      destruct (String.eqb (geometry_type f) "MultiPolygon");
        [inversion Hf; congruence|].
      destruct (String.eqb (geometry_type f) "Polygon");
        [inversion Hf; congruence|].
      destruct (String.eqb_spec (geometry_type f) "Point"); [assumption|discriminate].
    + exfalso. destruct (String.eqb (Geometry client) "bbox").
      * destruct (bbox f) as [|[a|] [|[b|] [|[c|] [|[d|] rest]]]]; try discriminate.
        inversion Hf; congruence.
      * destruct (String.eqb (Geometry client) "centroid"); inversion Hf; congruence.
Qed.

(** *** The Verbose toggle *)

Definition with_verbose (v : bool) (client : PgisClient) : PgisClient :=
  {| Geometry := Geometry client; Debug := Debug client; Verbose := v |}.

Lemma prepare_verbose client f lastmod :
  match prepare (with_verbose false client) f lastmod,
        prepare (with_verbose true client) f lastmod with
  | Ret (l, inl e), Ret (l', inl e') => l' = l /\ e' = e
  | Ret (l, inr p), Ret (l', inr p') =>
      p' = p /\ l' = l ++ verbose_line (with_verbose true client) p
  | Panics, Panics => True
  | _, _ => False
  end.
Proof.
  unfold prepare.
  change (geometry_filter (with_verbose true client) f)
    with (geometry_filter (with_verbose false client) f).
  destruct (geometry_filter (with_verbose false client) f)
    as [[l0 [e|[sg c0]]]| | |] eqn:G; auto.
  - destruct (derive_centroid f c0); auto.
    destruct (GetPlacetypeByName (Placetype f)); auto.
    destruct (wof_repo f) as [repo|]; auto.
    destruct (String.eqb repo EmptyString); auto.
    destruct (marshal_meta _); auto.
    destruct (HashGeomFromFeature _); auto.
    split; [reflexivity|]. unfold verbose_line at 1. cbn [with_verbose Verbose].
    rewrite app_nil_r, <- !app_assoc. reflexivity.
  - pose proof (geometry_filter_outcome (with_verbose false client) f) as H.
    now rewrite G in H.
  - pose proof (geometry_filter_outcome (with_verbose false client) f) as H.
    now rewrite G in H.
Qed.

Lemma write_reads_no_log p w1 w2 :
  tbl w1 = tbl w2 -> conns w1 = conns w2 ->
  fst (write p w1) = fst (write p w2) /\
  tbl (snd (write p w1)) = tbl (snd (write p w2)) /\
  conns (snd (write p w1)) = conns (snd (write p w2)).
Proof.
  intros Ht Hc. unfold write. rewrite Ht, Hc.
  destruct (Budget.dbconn (conns w2)); try (repeat split; assumption).
  destruct (exec_sql _ _ _); repeat split.
Qed.

(** X26: the Verbose toggle changes the log and nothing else.  With and
    without it IndexFeature ends the same way and leaves the same table
    and budget; for a feature that is prepared without error the one
    difference is the line logged before the write, in which, with the
    default filter, the geometry is elided while the statement carries
    it. *)
Theorem verbose_only_logs client f lastmod (w : world) :
  let loud := IndexFeature (with_verbose true client) f lastmod w in
  let quiet := IndexFeature (with_verbose false client) f lastmod w in
  fst loud = fst quiet /\ tbl (snd loud) = tbl (snd quiet) /\
  conns (snd loud) = conns (snd quiet) /\
  (forall l p,
     prepare (with_verbose false client) f lastmod = Ret (l, inr p) ->
     prepare (with_verbose true client) f lastmod
     = Ret (l ++ [LogInsert (p_wofid p) (p_parent p) (p_ptid p) (p_is_superseded p)
                    (p_is_deprecated p) (p_str_meta p) (p_geom_hash p) (p_lastmod p)
                    (if String.eqb (Geometry client) EmptyString
                     then "ST_GeomFromGeoJSON('...')" else st_from (p_str_geom p))
                    (st_from (p_str_centroid p))], inr p)).
Proof.
  intros loud quiet. subst loud quiet.
  pose proof (prepare_verbose client f lastmod) as H. unfold IndexFeature.
  destruct (prepare (with_verbose false client) f lastmod) as [[l [e|p]]| | |];
    destruct (prepare (with_verbose true client) f lastmod) as [[l' [e'|p']]| | |];
    try contradiction.
  - destruct H as [-> ->].
    destruct (Index.Id f =? 0); repeat split; intros; discriminate.
  - destruct H as [-> ->]. cbn [with_verbose Debug].
    destruct (Index.Id f =? 0); [repeat split; intros l0 p0 E; now inversion E|].
    destruct (Debug client).
    + repeat split. intros l0 p0 E. now inversion E.
    + destruct (@write_reads_no_log p
                  (say (l ++ verbose_line (with_verbose true client) p) w) (say l w)
                  eq_refl eq_refl) as (H1 & H2 & H3).
      repeat split; try assumption. intros l0 p0 E. now inversion E.
  - destruct (Index.Id f =? 0); repeat split; intros; discriminate.
Qed.

End WithCollaborators.

(** The sample line string fails in the empty state, and in any other. *)
Lemma returned_error_is_stateless_witness :
  exists w',
    @IndexFeature Sample.numbers Sample.collaborators
      Sample.client Sample.a_line Sample.stamp1
      {| conns := 0; tbl := [new_row CentroidOnly
                               Sample.geometry_only_values]; logs := [] |}
    = (Ret (Some "DO SOMETHING HERE"), w') /\
    List.length (tbl w') = 1%nat.
Proof.
  assert (H : @IndexFeature Sample.numbers Sample.collaborators
                Sample.client Sample.a_line Sample.stamp1 Sample.w0
              = (Ret (Some "DO SOMETHING HERE"),
                 say [LogGeomTypeIs "LineString"] Sample.w0)) by reflexivity.
  destruct (@returned_error_is_stateless Sample.numbers Sample.collaborators _ _ _ _ _ _ H) as (_ & _ & _ & _ & Hall).
  destruct (Hall {| conns := 0;
                    tbl := [new_row CentroidOnly
                              Sample.geometry_only_values];
                    logs := [] |}) as (v' & Hv & Ht & _).
  exists v'. split; [exact Hv|]. rewrite Ht. reflexivity.
Defined.

(** The sample point, whose centroid is the text the strict store
    refuses. *)
Lemma rejected_statement_ends_process_witness :
  exists err w',
    @IndexFeature Sample.numbers Fixtures.strict
      Sample.client Sample.a_point Sample.stamp1 Sample.w0 = (Exits 1, w') /\
    conns w' = 9%nat /\ tbl w' = [] /\
    exists sql, logs w' = [LogExecError err; LogExecSql sql].
Proof.
  assert (H1 : Index.Id Sample.a_point <> 0) by (simpl; lia).
  assert (H2 : Debug Sample.client = false) by reflexivity.
  pose proof (fun l p H3 =>
                @rejected_statement_ends_process Sample.numbers Fixtures.strict
                  Sample.client Sample.a_point Sample.stamp1 Sample.w0 l p 9
                  H1 H2 H3 eq_refl) as H.
  specialize (H _ _ eq_refl). cbn in H. destruct H as [err H].
  exists err. eexists. split; [exact H|]. cbn.
  split; [reflexivity|]. split; [reflexivity|]. eexists. reflexivity.
Defined.

(** The sample point and the sample polygon, in the two orders. *)
Lemma distinct_ids_commute_witness :
  let run (f : WOFFeature) (w : world) :=
    @IndexFeature Sample.numbers Sample.collaborators Sample.client f Sample.stamp1 w in
  exists wb wba,
    run Sample.a_polygon Sample.w0 = (Ret None, wb) /\
    run Sample.a_point wb = (Ret None, wba) /\
    forall k, rows_of k (tbl wba)
              = rows_of k (tbl (snd (run Sample.a_polygon (snd (run Sample.a_point Sample.w0))))).
Proof.
  intros run.
  assert (H1 : Index.Id Sample.a_point <> Index.Id Sample.a_polygon) by (simpl; lia).
  assert (H2 : run Sample.a_point Sample.w0
               = (Ret None, snd (run Sample.a_point Sample.w0))) by reflexivity.
  assert (H3 : run Sample.a_polygon (snd (run Sample.a_point Sample.w0))
               = (Ret None, snd (run Sample.a_polygon (snd (run Sample.a_point Sample.w0)))))
    by reflexivity.
  destruct (@distinct_ids_commute Sample.numbers Sample.collaborators _ _ _ _ _ _ _ _ _ _ _ H1 H2 H3) as (wb & wba & Hb & Ha & _ & Hrows).
  exists wb, wba. split; [exact Hb|]. split; [exact Ha|exact Hrows].
Defined.


(** A bbox of two numbers, and a filter that does not exist. *)
Lemma geometry_filter_edges_witness :
  @IndexFeature Sample.numbers Sample.collaborators
    Fixtures.by_bbox Fixtures.boxless Sample.stamp1 Sample.w0 = (Panics, Sample.w0) /\
  fst (@IndexFeature Sample.numbers Sample.collaborators
         Fixtures.by_tiles Sample.a_polygon Sample.stamp1 Sample.w0)
  = Ret (Some "unknown geometry filter").
Proof.
  assert (H1 : Index.Id Fixtures.boxless <> 0) by (simpl; lia).
  assert (H2 : Index.Id Sample.a_polygon <> 0) by (simpl; lia).
  split.
  - apply (proj1 (@geometry_filter_edges Sample.numbers Sample.collaborators
                    Fixtures.by_bbox Fixtures.boxless Sample.stamp1 Sample.w0 H1));
      [reflexivity|]. intros a b c d rest. simpl. discriminate.
  - assert (N1 : Geometry Fixtures.by_tiles <> EmptyString) by (simpl; discriminate).
    assert (N2 : Geometry Fixtures.by_tiles <> "bbox") by (simpl; discriminate).
    assert (N3 : Geometry Fixtures.by_tiles <> "centroid") by (simpl; discriminate).
    destruct (proj2 (@geometry_filter_edges Sample.numbers Sample.collaborators
                       Fixtures.by_tiles Sample.a_polygon Sample.stamp1 Sample.w0 H2)
                    N1 N2 N3) as (w' & Hw & _).
    rewrite Hw. reflexivity.
Defined.

(** The sample point without parent and country. *)
Lemma missing_parent_and_country_defaults_witness :
  let w' := snd (@IndexFeature Sample.numbers Fixtures.strict
                   Sample.client Fixtures.orphan Sample.stamp1 Sample.w0) in
  exists r, rows_of 105 (tbl w') = [r] /\
            r c_parent_id = VInt (-1) /\ r c_meta = VText "Nowhere/XX" /\
            List.length (logs w') = 2%nat.
Proof.
  intros w'.
  assert (H1 : Debug Sample.client = false) by reflexivity.
  assert (H2 : Index.Id Fixtures.orphan <> 0) by (simpl; lia).
  assert (H3 : keyed (tbl Sample.w0)) by constructor.
  assert (H4 : @IndexFeature Sample.numbers Fixtures.strict
                 Sample.client Fixtures.orphan Sample.stamp1 Sample.w0 = (Ret None, w'))
    by reflexivity.
  destruct (@missing_parent_and_country_defaults Sample.numbers Fixtures.strict _ _ _ _ _ H1 H2 H3 H4)
    as (r & repo & Hr & _ & Hpar & Hcountry).
  exists r. split; [exact Hr|].
  destruct (Hpar eq_refl) as [Hp _].
  destruct (Hcountry eq_refl) as [(m & Hm & Hrm) _].
  split; [exact Hp|]. split; [|reflexivity].
  rewrite Hrm. simpl in Hm. inversion Hm.
  inversion Hr. subst r. simpl in H0. reflexivity.
Defined.

(** The sample polygon, indexed with the default filter. *)
Lemma nil_requires_wellformed_witness :
  (exists repo, wof_repo Sample.a_polygon = Some repo /\ repo <> EmptyString) /\
  (exists ptid, @GetPlacetypeByName Sample.numbers Sample.collaborators
                  (Placetype Sample.a_polygon) = inr ptid).
Proof.
  assert (H1 : Index.Id Sample.a_polygon <> 0) by (simpl; lia).
  assert (H2 : @IndexFeature Sample.numbers Sample.collaborators
                 Sample.client Sample.a_polygon Sample.stamp1 Sample.w0
               = (Ret None, snd (@IndexFeature Sample.numbers Sample.collaborators
                                   Sample.client Sample.a_polygon Sample.stamp1 Sample.w0)))
    by reflexivity.
  destruct (@nil_requires_wellformed Sample.numbers Sample.collaborators _ _ _ _ _ H1 H2) as (_ & Hpt & Hrepo & _).
  split; [exact Hrepo|exact Hpt].
Defined.

End IndexLaws.

(** ** [IntersectsFeature]: tokens and throttle slots *)
Module IntersectsLaws.
Import Query Intersects IntersectsFacts.

Section Laws.
Context {ST : Store}.
Variable str_geom : string.
Variable opts : PgisIntersectsOptions.

Ltac fields :=
  cbn [conns main vars counters throttle pages of_geom of_centroid get put
       count_offer main_recv main_local main_offer after_if count_recv page_recv] in *.

(** *** The tokens of [client.conns] *)

(** Whether a count goroutine has taken its token. *)
Definition took (pc : count_pc) : nat :=
  match pc with CDbconn => 0 | _ => 1 end.

(** Whether the main goroutine has taken one in [FetchIntersectsAsync]. *)
Definition fetch_took (pc : main_pc) : nat :=
  match pc with MFetchWait _ _ | MFetchDefer _ => 1 | _ => 0 end.

(** Of [cn] tokens at the call, those not in the channel were taken by
    the goroutines, and none was put back. *)
Definition ledger (cn : nat) (s : config) : Prop :=
  (conns s + took (of_geom (counters s)) + took (of_centroid (counters s))
   + fetch_took (main s) = cn)%nat /\
  match main s with
  | MCountLoop _ => True
  | MReturn None _ =>
      (1 <= took (of_geom (counters s)) + took (of_centroid (counters s)))%nat
  | _ => of_geom (counters s) = CExit /\ of_centroid (counters s) = CExit
  end.

Lemma ledger_init g cn : ledger cn (init (Some g) cn).
Proof. unfold ledger. simpl. split; [lia|exact I]. Qed.

Lemma took_offer p pc m pc' :
  count_offer p pc = Some (m, pc') ->
  took pc = 1%nat /\ took pc' = 1%nat /\ (m = OnDone \/ pc' = CDeferDone).
Proof.
  destruct pc; simpl; intros H; inversion H; subst; auto.
Qed.

Lemma ledger_step cn s s' :
  inv str_geom opts s -> ledger cn s -> step str_geom opts s s' -> ledger cn s'.
Proof.
  intros (_ & _ & HI) [HL HM] Hs. destruct s as [c mn v [cg cc] th pgs].
  unfold ledger, quiet in *. fields. subst cn.
  inversion Hs; subst; fields; clear Hs.
  - (* a count goroutine takes its token *)
    match goal with H : CountIntersects _ _ _ _ = _ |- _ =>
      apply CountIntersects_inv in H as (-> & _ & Hlive & _) end.
    assert (Ht : took (count_result r) = 1%nat).
    { destruct r as [c0 [e0|]]; reflexivity. }
    destruct p; fields;
      match goal with H : _ = CDbconn |- _ => rewrite H in * end;
      rewrite Ht; simpl in *;
      (split; [lia|]); destruct mn as [| | | | | |[rs|] e]; auto;
      try (destruct HM; discriminate); lia.
  - (* a count goroutine sends *)
    destruct p; fields;
      match goal with H : count_offer _ ?c = Some _ |- _ =>
        destruct c; simpl in H; try discriminate; inversion H; subst; clear H end;
      destruct mn; fields; try discriminate;
      try (destruct HI as (_ & -> & _); discriminate);
      try match goal with H : (if ?b then _ else _) = Some _ |- _ =>
            destruct b; [|discriminate] end;
      try discriminate;
      try match goal with H : Some _ = Some _ |- _ => inversion H; subst; clear H end;
      simpl in *; try (split; [lia| first [exact I | lia | assumption]]).
  - (* the main goroutine alone *)
    destruct mn; fields; try discriminate.
    + destruct (Z.ltb_spec 0 n); [discriminate|].
      match goal with H : Some _ = Some _ |- _ => inversion H; subst; clear H end.
      destruct HI as (_ & Hn & _).
      assert (cg = CExit /\ cc = CExit) as [-> ->].
      { destruct cg, cc; simpl in Hn; try lia; split; reflexivity. }
      simpl in *. split; [lia|split; reflexivity].
    + destruct (0 <? get p (count v));
        match goal with H : Some _ = Some _ |- _ => inversion H; subst; clear H end;
        [|destruct p]; simpl in *; (split; [lia|assumption]).
    + destruct (0 <? i); [discriminate|].
      match goal with H : Some _ = Some _ |- _ => inversion H; subst; clear H end.
      simpl in *. split; [lia|assumption].
    + destruct (0 <? f); [discriminate|].
      match goal with H : Some _ = Some _ |- _ => inversion H; subst; clear H end.
      simpl in *. split; [lia|assumption].
  - (* FetchIntersectsAsync takes its token *)
    match goal with H : mn = _ |- _ => subst mn end.
    unfold Budget.dbconn in *. destruct c as [|k]; [discriminate|].
    match goal with H : Ret _ = Ret _ |- _ => inversion H; subst; clear H end.
    simpl in *. split; [lia|assumption].
  - split; [reflexivity|exact HM].
  - (* a page goroutine sends *)
    destruct mn; fields; try discriminate.
    + destruct HI as ((Hp & _) & _).
      exfalso. rewrite Hp in *. eapply app_cons_not_nil; eassumption.
    + destruct (0 <? i); [|discriminate].
      destruct m; try discriminate.
      match goal with H : (if ?b then _ else _) = Some _ |- _ =>
        destruct b; [|discriminate] end.
      match goal with H : Some _ = Some _ |- _ => inversion H; subst; clear H end.
      simpl in *. split; [lia|assumption].
    + destruct HI as (_ & -> & _). discriminate.
  - discriminate.
  - discriminate.
  - split; [reflexivity|exact HM].
Qed.

Lemma ledger_reaches g cn s :
  reaches str_geom opts (init (Some g) cn) s -> inv str_geom opts s /\ ledger cn s.
Proof.
  intros HR. induction HR as [|s' s'' Hs HR IH].
  - split; [apply inv_init|apply ledger_init].
  - destruct IH as [HI HL]. split; [eapply inv_step; eauto|eapply ledger_step; eauto].
Qed.

(** X12: the tokens of one call of IntersectsFeature.  No step of any
    goroutine puts a token into client.conns.  In every configuration of a
    call that found [cn] tokens, between none and three are missing: one
    for each count goroutine past dbconn and one for the call of
    FetchIntersectsAsync.  When the call returns the empty list exactly two
    are missing, when it returns a count error one or two; they are never
    given back. *)
Theorem tokens_are_spent_not_returned (g : string) (cn : nat) (s : config) :
  reaches str_geom opts (init (Some g) cn) s ->
  (conns s + took (of_geom (counters s)) + took (of_centroid (counters s))
   + fetch_took (main s) = cn)%nat /\
  (conns s <= cn <= conns s + 3)%nat /\
  (forall rs e, main s = MReturn (Some rs) e -> cn = (conns s + 2)%nat) /\
  (forall e, main s = MReturn None e -> (conns s + 1 <= cn <= conns s + 2)%nat) /\
  (forall s', step str_geom opts s s' -> (conns s' <= conns s)%nat).
Proof.
  intros HR. destruct (ledger_reaches HR) as [HI [HL HM]].
  split; [exact HL|].
  assert (B1 : (took (of_geom (counters s)) <= 1)%nat)
    by (destruct (of_geom (counters s)); simpl; lia).
  assert (B2 : (took (of_centroid (counters s)) <= 1)%nat)
    by (destruct (of_centroid (counters s)); simpl; lia).
  assert (B3 : (fetch_took (main s) <= 1)%nat)
    by (destruct (main s); simpl; lia).
  split; [lia|]. split; [|split].
  - intros rs e Hm. rewrite Hm in HM, HL. destruct HM as [E1 E2].
    rewrite E1, E2 in HL. simpl in HL. lia.
  - intros e Hm. rewrite Hm in HM, HL. simpl in HL. lia.
  - intros s' Hs. inversion Hs; subst; simpl; try lia.
    + match goal with H : CountIntersects _ _ _ _ = _ |- _ =>
        apply CountIntersects_inv in H as (-> & _) end. lia.
    + unfold Budget.dbconn in *. destruct (conns s); [discriminate|].
      match goal with H : Ret _ = Ret _ |- _ => inversion H; subst; clear H end. lia.
Qed.

(** *** The slots of [throttle_ch] *)

(** Whether a page goroutine holds a slot: from its receive on
    [throttle_ch] to the deferred send that puts the slot back. *)
Definition holds_slot (pc : page_pc) : nat :=
  match pc with PThrottle | PExit => 0 | _ => 1 end.

Fixpoint in_flight (p : partition) (l : list page) : nat :=
  match l with
  | [] => 0
  | pg :: rest =>
      ((if partition_eqb (pg_part pg) p then holds_slot (pg_pc pg) else 0)
       + in_flight p rest)%nat
  end.

Lemma in_flight_app p l1 l2 :
  in_flight p (l1 ++ l2) = (in_flight p l1 + in_flight p l2)%nat.
Proof. induction l1 as [|a l1 IH]; simpl; [reflexivity|]. rewrite IH. lia. Qed.

Lemma in_flight_other p q l :
  Forall (fun pg => pg_part pg = p) l -> q <> p -> in_flight q l = O.
Proof.
  intros HF Hne. induction HF as [|pg l Hpg HF IH]; simpl; [reflexivity|].
  rewrite IH, Hpg. destruct p, q; simpl; congruence.
Qed.

Lemma spawn_fresh p c l :
  Forall (fun pg => pg_part pg = p) (spawn p c l) /\ in_flight p (spawn p c l) = O.
Proof.
  unfold spawn. induction (Paging.offsets c l) as [|o os [IH1 IH2]]; simpl.
  - split; [constructor|reflexivity].
  - split; [constructor; [reflexivity|exact IH1]|].
    rewrite IH2. destruct p; reflexivity.
Qed.

Lemma partition_eqb_refl p : partition_eqb p p = true.
Proof. destruct p; reflexivity. Qed.

(** Inside a call of [FetchIntersectsAsync] for [p] the slots held and
    the slots in the channel add up to NumProcesses; outside there is no
    page goroutine. *)
Definition throttled (s : config) : Prop :=
  match main s with
  | MFetchWait p _ | MFetchDefer p =>
      (in_flight p (pages s) + get p (throttle s) = Z.to_nat (NumProcesses opts))%nat /\
      Forall (fun pg => pg_part pg = p) (pages s)
  | _ => pages s = []
  end.

Lemma throttled_init g cn : throttled (init g cn).
Proof. destruct g; reflexivity. Qed.

Lemma holds_scan rs : holds_slot (scan rs) = 1%nat.
Proof. destruct rs as [|[e|r] rest]; reflexivity. Qed.

Lemma holds_page_query pg : holds_slot (page_query str_geom opts pg) = 1%nat.
Proof.
  unfold page_query. destruct (QueryPage _ _ _ _ _); [reflexivity|apply holds_scan].
Qed.

Lemma holds_offer p pc m pc' :
  page_offer p pc = Some (m, pc') ->
  holds_slot pc = 1%nat /\ holds_slot pc' = 1%nat.
Proof.
  destruct pc; simpl; intros H; inversion H; subst;
    rewrite ?holds_scan; repeat split; eauto.
Qed.

Lemma Forall_middle (P : page -> Prop) l1 pg pg' l2 :
  Forall P (l1 ++ pg :: l2) -> P pg' -> Forall P (l1 ++ pg' :: l2).
Proof.
  intros HF Hp. apply Forall_app in HF as [H1 H2]. inversion H2; subst.
  apply Forall_app. split; [exact H1|]. constructor; assumption.
Qed.

Lemma Forall_at (P : page -> Prop) l1 pg l2 : Forall P (l1 ++ pg :: l2) -> P pg.
Proof. intros HF. apply Forall_app in HF as [_ H2]. now inversion H2. Qed.

Ltac nopages :=
  exfalso; subst;
  match goal with
  | H : _ ++ _ :: _ = [] |- _ => symmetry in H; exact (app_cons_not_nil _ _ _ H)
  | H : [] = _ ++ _ :: _ |- _ => exact (app_cons_not_nil _ _ _ H)
  end.

Lemma throttled_step s s' : throttled s -> step str_geom opts s s' -> throttled s'.
Proof.
  intros HT Hs. destruct s as [c mn v [cg cc] th pgs]. unfold throttled in *. fields.
  inversion Hs; subst; fields; clear Hs.
  - first [exact HT | reflexivity].
  - (* a count goroutine sends *)
    destruct mn; fields; try discriminate.
    + destruct (0 <? n); [|discriminate].
      destruct m; try discriminate;
        match goal with H : Some _ = Some _ |- _ => inversion H; subst; clear H end;
        first [exact HT | reflexivity].
    + destruct (0 <? i); [|discriminate].
      destruct p; fields;
        match goal with H : count_offer _ ?x = Some _ |- _ =>
          destruct x; simpl in H; try discriminate; inversion H; subst; clear H end;
        discriminate.
    + destruct (0 <? f); [|discriminate].
      destruct m; try discriminate;
        match goal with H : Some _ = Some _ |- _ => inversion H; subst; clear H end;
        first [exact HT | reflexivity].
  - (* the main goroutine alone *)
    destruct mn; fields; try discriminate.
    + destruct (0 <? n); [discriminate|].
      match goal with H : Some _ = Some _ |- _ => inversion H; subst; clear H end.
      first [exact HT | reflexivity].
    + destruct (0 <? get p (count v));
        match goal with H : Some _ = Some _ |- _ => inversion H; subst; clear H end;
        [|destruct p]; first [exact HT | reflexivity].
    + destruct (0 <? i); [discriminate|].
      match goal with H : Some _ = Some _ |- _ => inversion H; subst; clear H end.
      first [exact HT | reflexivity].
    + destruct (0 <? f); [discriminate|].
      match goal with H : Some _ = Some _ |- _ => inversion H; subst; clear H end.
      first [exact HT | reflexivity].
  - (* the slots are made *)
    match goal with H : mn = _ |- _ => subst mn end. subst pgs. simpl.
    destruct (spawn_fresh p (get p (count v)) (PerPage opts)) as [HF Hz].
    rewrite Hz. split; [|exact HF]. destruct p; reflexivity.
  - (* a page goroutine takes a slot *)
    destruct mn; cbn in HT;
      try solve [nopages].
    all: destruct HT as [HB HF]; try subst pgs; pose proof (Forall_at _ _ _ HF) as Hp; cbv beta in Hp; subst p;
      (split; [|eapply Forall_middle; [exact HF|reflexivity]]);
      rewrite in_flight_app in *; simpl in *; rewrite partition_eqb_refl in *;
      rewrite holds_page_query;
      match goal with H : pg_pc _ = PThrottle |- _ => rewrite H in HB end;
      match goal with H : get _ _ = S _ |- _ => rewrite H in HB end;
      simpl in HB; destruct (pg_part pg); simpl in *; lia.
  - (* a page goroutine sends *)
    match goal with H : page_offer _ _ = _ |- _ =>
      pose proof (holds_offer _ _ H) as (T1 & T2) end.
    destruct mn; fields; try discriminate; cbn in HT;
      try solve [nopages].
    destruct (0 <? i); [|discriminate].
    destruct m; try discriminate.
    match goal with H : (if ?b then _ else _) = Some _ |- _ =>
      destruct b; [|discriminate] end.
    match goal with H : Some _ = Some _ |- _ => inversion H; subst; clear H end.
    destruct HT as [HB HF]. try subst pgs. pose proof (Forall_at _ _ _ HF) as Hp. cbv beta in Hp.
    split; [|eapply Forall_middle; [exact HF|exact Hp]].
    rewrite in_flight_app in *. simpl in *. rewrite T1 in HB. rewrite T2. exact HB.
  - discriminate.
  - discriminate.
  - (* a page goroutine puts its slot back *)
    destruct mn; cbn in HT;
      try solve [nopages].
    all: destruct HT as [HB HF]; try subst pgs; pose proof (Forall_at _ _ _ HF) as Hp; cbv beta in Hp; subst p;
      (split; [|eapply Forall_middle; [exact HF|reflexivity]]);
      rewrite in_flight_app in *; simpl in *; rewrite partition_eqb_refl in *;
      match goal with H : pg_pc _ = PDeferThrottle |- _ => rewrite H in HB end;
      simpl in HB; destruct (pg_part pg); simpl in *; lia.
Qed.

Lemma throttled_reaches g cn s :
  reaches str_geom opts (init g cn) s -> throttled s.
Proof.
  intros HR. induction HR as [|s' s'' Hs HR IH].
  - apply throttled_init.
  - eapply throttled_step; eauto.
Qed.

(** X13: the throttle of FetchIntersectsAsync.  In every configuration
    of a call of IntersectsFeature, the page goroutines of a partition that
    are between taking a slot from throttle_ch and putting it back (running
    their query, sending a row or an error, or at the deferred sends) are
    at most NumProcesses; inside the call for a partition the slots held and
    the slots left in the channel add up to NumProcesses. *)
Theorem throttle_bounds_page_queries (g : option string) (cn : nat) (s : config) :
  reaches str_geom opts (init g cn) s ->
  (forall p, (in_flight p (pages s) <= Z.to_nat (NumProcesses opts))%nat) /\
  (forall p i, main s = MFetchWait p i ->
     (in_flight p (pages s) + get p (throttle s) = Z.to_nat (NumProcesses opts))%nat).
Proof.
  intros HR. pose proof (@throttled_reaches g cn s HR) as HT. unfold throttled in HT. split.
  - intros p. destruct (main s) as [n|q|q|q i|q|f|rs e]; try (rewrite HT; simpl; lia).
    + destruct HT as [HB HF]. destruct (partition_eqb q p) eqn:E.
      * destruct q, p; try discriminate; lia.
      * rewrite (in_flight_other HF); [lia|]. destruct q, p; discriminate.
    + destruct HT as [HB HF]. destruct (partition_eqb q p) eqn:E.
      * destruct q, p; try discriminate; lia.
      * rewrite (in_flight_other HF); [lia|]. destruct q, p; discriminate.
  - intros p i Hm. rewrite Hm in HT. apply HT.
Qed.

End Laws.

(** Nothing matches and the budget holds two tokens: the call returns the
    empty list and leaves none. *)
Definition returned_empty : config :=
  {| conns := 0; main := MReturn (Some []) None; vars := zero_regs;
     counters := {| of_geom := CExit; of_centroid := CExit |};
     throttle := {| of_geom := O; of_centroid := O |}; pages := [] |}.

Lemma no_match_run_returns :
  @reaches Sample.no_match "{geometry}" NewDefaultPgisIntersectsOptions
    (init (Some "{geometry}") 2) returned_empty.
Proof.
  unfold init.
  eapply reaches_first;
    [eapply step_count_query with (p := ByGeom); reflexivity | cbn].
  eapply reaches_first;
    [eapply step_count_query with (p := ByCentroid); reflexivity | cbn].
  eapply reaches_first;
    [eapply step_count_send with (p := ByGeom); reflexivity | cbn].
  eapply reaches_first;
    [eapply step_count_send with (p := ByCentroid); reflexivity | cbn].
  eapply reaches_first;
    [eapply step_count_send with (p := ByGeom); reflexivity | cbn].
  eapply reaches_first;
    [eapply step_count_send with (p := ByCentroid); reflexivity | cbn].
  eapply reaches_first; [eapply step_main_local; reflexivity | cbn].
  eapply reaches_first; [eapply step_main_local; reflexivity | cbn].
  eapply reaches_first; [eapply step_main_local; reflexivity | cbn].
  eapply reaches_first; [eapply step_main_local; reflexivity | cbn].
  apply rtn1_refl.
Qed.

Lemma tokens_are_spent_not_returned_witness :
  @reaches Sample.no_match "{geometry}" NewDefaultPgisIntersectsOptions
    (init (Some "{geometry}") 2) returned_empty /\
  2%nat = (conns returned_empty + 2)%nat.
Proof.
  pose proof no_match_run_returns as HR.
  destruct (@tokens_are_spent_not_returned Sample.no_match "{geometry}"
              NewDefaultPgisIntersectsOptions "{geometry}" 2 returned_empty HR)
    as (_ & _ & Hret & _).
  split; [exact HR|]. exact (Hret [] None eq_refl).
Defined.

(** One matching row: where the call hangs, one page goroutine holds a
    slot and three slots are left. *)
Lemma throttle_bounds_page_queries_witness :
  (in_flight ByGeom (pages stuck) <= 4)%nat /\
  (in_flight ByGeom (pages stuck) + get ByGeom (throttle stuck) = 4)%nat.
Proof.
  destruct one_match_run_gets_stuck as [HR _].
  destruct (@throttle_bounds_page_queries Sample.one_match "{geometry}"
              NewDefaultPgisIntersectsOptions (Some "{geometry}") 10 stuck HR)
    as [Hle Heq].
  split; [exact (Hle ByGeom)|exact (Heq ByGeom 1 eq_refl)].
Defined.

End IntersectsLaws.

(** ** The bulk pipelines: what a run keeps, and the order of its tasks *)
Module BulkLaws.
Import Table Index Bulk TableFacts IndexFacts IndexLaws.

Section WithCollaborators.
Context {JN : JsonNumber} {CO : Collaborators}.

(** The values a task writes, when it writes. *)
Definition file_writes (client : PgisClient) (t : task) : option prepared :=
  match UnmarshalFile (fst t) with
  | inl _ => None
  | inr f => writes client f (snd t)
  end.

Definition apply_writes (o : option prepared) (t : table) : table :=
  match o with
  | Some p => written p t
  | None => t
  end.

(** Two tables with the same rows under every id. *)
Definition same_rows (t1 t2 : table) : Prop :=
  forall k, rows_of k t1 = rows_of k t2.

(** The ids of the features a list of tasks decodes to. *)
Definition ids (tasks : list task) : list Z :=
  flat_map (fun t => match UnmarshalFile (fst t) with
                     | inl _ => []
                     | inr f => [Index.Id f]
                     end) tasks.

Lemma IndexFile_replay client t w r w' :
  IndexFile client (fst t) (snd t) w = (Ret r, w') ->
  conns w' = conns w /\
  tbl w' = apply_writes (file_writes client t) (tbl w) /\
  forall v, conns v = conns w ->
    exists v', IndexFile client (fst t) (snd t) v = (Ret r, v').
Proof.
  unfold IndexFile, file_writes. destruct (UnmarshalFile (fst t)) as [e|f].
  - intros H. inversion H; subst. repeat split. eauto.
  - apply IndexFeature_replay.
Qed.

Lemma file_writes_id client t p :
  file_writes client t = Some p -> In (p_wofid p) (ids [t]).
Proof.
  unfold file_writes, ids. simpl. destruct (UnmarshalFile (fst t)) as [e|f]; [discriminate|].
  intros H. apply writes_id in H. left. now symmetry.
Qed.

Lemma apply_writes_keyed o t : keyed t -> keyed (apply_writes o t).
Proof. destruct o; simpl; [apply written_keyed|auto]. Qed.

Lemma apply_writes_same_rows o t1 t2 :
  same_rows t1 t2 -> same_rows (apply_writes o t1) (apply_writes o t2).
Proof.
  intros H k. destruct o as [p|]; simpl; [|apply H].
  rewrite !rows_of_written, !H. reflexivity.
Qed.

Lemma apply_writes_present o t k :
  rows_of k t <> [] -> rows_of k (apply_writes o t) <> [].
Proof.
  intros H. destruct o as [p|]; simpl; [|exact H].
  rewrite rows_of_written. destruct (Z.eqb_spec k (p_wofid p)) as [->|_]; [|exact H].
  destruct (rows_of (p_wofid p) t); [contradiction|discriminate].
Qed.

Lemma apply_writes_commute o1 o2 t :
  (forall p1 p2, o1 = Some p1 -> o2 = Some p2 -> p_wofid p1 <> p_wofid p2) ->
  same_rows (apply_writes o1 (apply_writes o2 t)) (apply_writes o2 (apply_writes o1 t)).
Proof.
  intros Hne k. destruct o1 as [p1|], o2 as [p2|]; simpl; try reflexivity.
  specialize (Hne p1 p2 eq_refl eq_refl).
  rewrite !rows_of_written.
  destruct (Z.eqb_spec k (p_wofid p1)) as [K1|K1];
    destruct (Z.eqb_spec k (p_wofid p2)) as [K2|K2]; try congruence.
  - destruct (Z.eqb_spec (p_wofid p1) (p_wofid p2)); [contradiction|reflexivity].
  - destruct (Z.eqb_spec (p_wofid p2) (p_wofid p1)); [congruence|reflexivity].
Qed.

(** A run of tasks that returns. *)
Lemma run_tasks_Ret client tasks : forall w w',
  run_tasks client tasks w = (Ret tt, w') ->
  conns w' = conns w /\
  (keyed (tbl w) -> keyed (tbl w')) /\
  (forall k, rows_of k (tbl w) <> [] -> rows_of k (tbl w') <> []).
Proof.
  induction tasks as [|t rest IH]; intros w w' H; simpl in H.
  - inversion H; subst. repeat split; auto.
  - destruct t as [path lastmod].
    destruct (IndexFile client path lastmod w) as [[r| | |] w1] eqn:E; try discriminate.
    destruct (@IndexFile_replay client (path, lastmod) w r w1 E) as (Hc & Ht & _).
    destruct (IH _ _ H) as (Hc' & Hk & Hp).
    split; [congruence|]. split.
    + intros K. apply Hk. rewrite Ht. now apply apply_writes_keyed.
    + intros k Hne. apply Hp. rewrite Ht. now apply apply_writes_present.
Qed.

(** X14: a run of IndexFileList that returns leaves the budget as it
    found it, keeps the primary key of the table, and loses the rows of
    no id. *)
Theorem file_list_keeps_key_and_budget client file (w : world) r w' :
  IndexFileList client file w = (Ret r, w') ->
  conns w' = conns w /\
  (keyed (tbl w) -> keyed (tbl w')) /\
  (forall k, rows_of k (tbl w) <> [] -> rows_of k (tbl w') <> []).
Proof.
  destruct file as [err|tasks]; intros H; simpl in H.
  - inversion H; subst. repeat split; auto.
  - unfold after_tasks in H.
    destruct (run_tasks client tasks w) as [[[]| | |] w1] eqn:E; try discriminate.
    inversion H; subst. now apply (run_tasks_Ret _ _ _ E).
Qed.

(** *** The order of the tasks *)

Lemma run_tasks_same_rows client tasks : forall w v w',
  conns v = conns w -> same_rows (tbl v) (tbl w) ->
  run_tasks client tasks w = (Ret tt, w') ->
  exists v', run_tasks client tasks v = (Ret tt, v') /\
             conns v' = conns w' /\ same_rows (tbl v') (tbl w').
Proof.
  induction tasks as [|t rest IH]; intros w v w' Hc Hs H.
  - simpl in H. inversion H; subst. exists v. repeat split; assumption.
  - destruct t as [path lastmod]. cbn [run_tasks] in *.
    destruct (IndexFile client path lastmod w) as [[r| | |] w1] eqn:E; try discriminate.
    destruct (@IndexFile_replay client (path, lastmod) w r w1 E) as (Hc1 & Ht1 & Hre).
    destruct (Hre v Hc) as (v1 & Ev). cbn [fst snd] in Ev. rewrite Ev.
    destruct (@IndexFile_replay client (path, lastmod) v r v1 Ev) as (Hc2 & Ht2 & _).
    apply (IH w1 v1 w'); [congruence| |exact H].
    rewrite Ht1, Ht2. now apply apply_writes_same_rows.
Qed.

Lemma NoDup_app_apart (l1 l2 : list Z) a :
  NoDup (l1 ++ l2) -> In a l1 -> ~ In a l2.
Proof.
  induction l1 as [|b l1 IH]; simpl; [tauto|].
  intros ND [->|Hin] Hin2.
  - inversion ND; subst. apply H1. apply in_or_app. now right.
  - inversion ND; subst. now apply IH.
Qed.

Lemma ids_cons t rest : ids (t :: rest) = ids [t] ++ ids rest.
Proof. unfold ids. simpl. now rewrite app_nil_r. Qed.

Lemma IndexFile_swap client x y w wy wyx rx ry :
  (forall a b, In a (ids [x]) -> In b (ids [y]) -> a <> b) ->
  IndexFile client (fst y) (snd y) w = (Ret ry, wy) ->
  IndexFile client (fst x) (snd x) wy = (Ret rx, wyx) ->
  exists wx wxy,
    IndexFile client (fst x) (snd x) w = (Ret rx, wx) /\
    IndexFile client (fst y) (snd y) wx = (Ret ry, wxy) /\
    conns wxy = conns wyx /\ same_rows (tbl wxy) (tbl wyx).
Proof.
  intros Hne Ey Ex.
  destruct (IndexFile_replay _ _ _ Ey) as (Cy & Ty & Ry).
  destruct (IndexFile_replay _ _ _ Ex) as (Cx & Tx & Rx).
  destruct (Rx w (eq_sym Cy)) as (wx & Ex').
  destruct (IndexFile_replay _ _ _ Ex') as (Cx' & Tx' & _).
  destruct (Ry wx Cx') as (wxy & Ey').
  destruct (IndexFile_replay _ _ _ Ey') as (Cy' & Ty' & _).
  exists wx, wxy. split; [exact Ex'|]. split; [exact Ey'|].
  split; [congruence|].
  rewrite Ty', Tx', Tx, Ty. apply apply_writes_commute.
  intros p1 p2 H1 H2 E.
  apply (Hne (p_wofid p2) (p_wofid p1));
    [eapply file_writes_id; exact H2 | eapply file_writes_id; exact H1 | now symmetry].
Qed.

(** X17: the order of the tasks of a bulk run does not matter.  When
    the features the tasks decode to have different ids and the run
    returns with the tasks taking effect in one order, it returns with
    them taking effect in any other order, with the same budget and the
    same rows under every id.  (The goroutines of a pipeline write in an
    order the scheduler picks.) *)
Theorem task_order_is_immaterial client tasks tasks' (w w1 : world) :
  Permutation tasks tasks' -> NoDup (ids tasks) ->
  run_tasks client tasks w = (Ret tt, w1) ->
  exists w2, run_tasks client tasks' w = (Ret tt, w2) /\
             conns w2 = conns w1 /\ same_rows (tbl w2) (tbl w1).
Proof.
  intros HP. revert w w1.
  induction HP as [|x l l' HP IH|x y l|l l' l'' HP1 IH1 HP2 IH2]; intros w w1 ND H.
  - exists w1. split; [exact H|]. split; [reflexivity|intros k; reflexivity].
  - rewrite ids_cons in ND. apply NoDup_app_remove_l in ND.
    destruct x as [path lastmod]. cbn [run_tasks] in *.
    destruct (IndexFile client path lastmod w) as [[r| | |] wx]; try discriminate.
    now apply IH.
  - destruct x as [px lx], y as [py ly]. cbn [run_tasks] in *.
    destruct (IndexFile client py ly w) as [[ry| | |] wy] eqn:Ey; try discriminate.
    destruct (IndexFile client px lx wy) as [[rx| | |] wyx] eqn:Ex; try discriminate.
    assert (Hne : forall a b, In a (ids [(px, lx)]) -> In b (ids [(py, ly)]) -> a <> b).
    { intros a b Ha Hb ->.
      rewrite (ids_cons (py, ly)), (ids_cons (px, lx)) in ND.
      apply (@NoDup_app_apart _ _ b ND Hb). apply in_or_app. now left. }
    destruct (@IndexFile_swap client (px, lx) (py, ly) w wy wyx rx ry Hne Ey Ex)
      as (wx & wxy & Ex' & Ey' & Hc & Hs).
    cbn [fst snd] in Ex', Ey'. rewrite Ex', Ey'.
    now apply (run_tasks_same_rows client l wyx wxy).
  - destruct (IH1 w w1 ND H) as (w2 & H2 & C2 & S2).
    assert (ND' : NoDup (ids l')).
    { eapply Permutation_NoDup; [|exact ND]. unfold ids.
      now apply Permutation_flat_map. }
    destruct (IH2 w w2 ND' H2) as (w3 & H3 & C3 & S3).
    exists w3. split; [exact H3|]. split; [congruence|].
    intros k. now rewrite S3, S2.
Qed.

End WithCollaborators.

#[local] Existing Instance Sample.numbers.
#[local] Existing Instance Sample.collaborators.

(** The sample point and polygon in a list. *)
Lemma file_list_keeps_key_and_budget_witness :
  conns (snd (IndexFileList Sample.client
                (inr [("101.geojson", Sample.stamp1); ("102.geojson", Sample.stamp1)])
                Sample.w0)) = 10%nat /\
  keyed (tbl (snd (IndexFileList Sample.client
                     (inr [("101.geojson", Sample.stamp1); ("102.geojson", Sample.stamp1)])
                     Sample.w0))).
Proof.
  destruct (@file_list_keeps_key_and_budget Sample.numbers Sample.collaborators
              Sample.client
              (inr [("101.geojson", Sample.stamp1); ("102.geojson", Sample.stamp1)])
              Sample.w0 None _ eq_refl) as (Hc & Hk & _).
  split; [exact Hc|]. apply Hk. constructor.
Defined.

(** The sample point and polygon, in the two orders. *)
Lemma task_order_is_immaterial_witness :
  exists w2,
    run_tasks Sample.client
      [("102.geojson", Sample.stamp1); ("101.geojson", Sample.stamp1)] Sample.w0
    = (Ret tt, w2) /\
    same_rows (tbl w2)
      (tbl (snd (run_tasks Sample.client
                   [("101.geojson", Sample.stamp1); ("102.geojson", Sample.stamp1)]
                   Sample.w0))).
Proof.
  assert (HP : Permutation [("101.geojson", Sample.stamp1); ("102.geojson", Sample.stamp1)]
                           [("102.geojson", Sample.stamp1); ("101.geojson", Sample.stamp1)])
    by apply perm_swap.
  assert (ND : NoDup (ids [("101.geojson", Sample.stamp1); ("102.geojson", Sample.stamp1)])).
  { unfold ids. simpl. repeat constructor; simpl; intuition lia. }
  destruct (@task_order_is_immaterial Sample.numbers Sample.collaborators Sample.client
              _ _ Sample.w0 _ HP ND eq_refl) as (w2 & H2 & _ & S2).
  exists w2. split; [exact H2|exact S2].
Defined.

End BulkLaws.

(** ** [Prune] *)
Module PruneFacts.
Import Table Prune TableFacts.

Section WithFiles.
Context {FS : Files}.
Variable procs : nat.
Variable data_root : string.

(** A row the cursor can scan. *)
Definition scans (r : row) : bool :=
  match Scan r with inr _ => true | inl _ => false end.

(** A row whose file is reported missing. *)
Definition gone (r : row) : bool :=
  match Scan r with
  | inr (wofid, str_meta) =>
      match missing data_root wofid str_meta with Some _ => true | None => false end
  | inl _ => false
  end.

(** The paths reported for a list of rows, and the paths in a log. *)
Definition missing_paths (rows : list row) : list string :=
  flat_map (fun r => match Scan r with
                     | inr (wofid, str_meta) =>
                         match missing data_root wofid str_meta with
                         | Some p => [p]
                         | None => []
                         end
                     | inl _ => []
                     end) rows.

Definition reported (l : list line) : list string :=
  flat_map (fun x => match x with LogNotExist p => [p] | LogPage _ _ _ => [] end) l.

Lemma reported_app l1 l2 : reported (l1 ++ l2) = reported l1 ++ reported l2.
Proof. unfold reported. apply flat_map_app. Qed.

(** *** One goroutine *)

Lemma check_conns delete k m w :
  conns (snd (check data_root delete k m w)) = conns w.
Proof.
  unfold check. destruct (missing data_root k m); [|reflexivity].
  destruct delete; [|reflexivity]. destruct w as [[|c] t o]; reflexivity.
Qed.

Lemma check_tbl delete k m w :
  tbl (snd (check data_root delete k m w)) = tbl w \/
  (delete = true /\ missing data_root k m <> None /\
   tbl (snd (check data_root delete k m w)) = Delete k (tbl w)).
Proof.
  unfold check. destruct (missing data_root k m) eqn:M; [|now left].
  destruct delete; [|now left]. destruct w as [[|c] t o]; simpl; [now left|].
  right. repeat split. discriminate.
Qed.

(** *** Invariants of the two loops *)

Lemma scan_page_conns delete rows : forall b w,
  conns (snd (scan_page procs data_root delete rows b w)) = conns w.
Proof.
  induction rows as [|r rest IH]; intros b w; simpl.
  - destruct (Nat.eqb b 0); reflexivity.
  - destruct (Scan r) as [e|[k m]]; [reflexivity|].
    destruct (Nat.leb procs b); [reflexivity|].
    pose proof (check_conns delete k m w) as Hc.
    destruct (check data_root delete k m w) as [[[]| | |] w1]; simpl in Hc;
      try exact Hc; rewrite IH; exact Hc.
Qed.


Lemma scan_page_tbl (I : table -> Prop) delete rows :
  (forall r k m t, In r rows -> Scan r = inr (k, m) ->
     delete = true -> missing data_root k m <> None -> I t -> I (Delete k t)) ->
  forall b w, I (tbl w) -> I (tbl (snd (scan_page procs data_root delete rows b w))).
Proof.
  induction rows as [|r rest IH]; intros Hd b w HI; simpl.
  - destruct (Nat.eqb b 0); exact HI.
  - destruct (Scan r) as [e|[k m]] eqn:HS; [exact HI|].
    destruct (Nat.leb procs b); [exact HI|].
    assert (HI' : I (tbl (snd (check data_root delete k m w)))).
    { destruct (check_tbl delete k m w) as [->|(Hdel & Hm & ->)]; [exact HI|].
      apply (Hd r k m); auto. now left. }
    assert (Hd' : forall r0 k0 m0 t, In r0 rest -> Scan r0 = inr (k0, m0) ->
                    delete = true -> missing data_root k0 m0 <> None ->
                    I t -> I (Delete k0 t)).
    { intros r0 k0 m0 t Hin. apply Hd. now right. }
    destruct (check data_root delete k m w) as [[[]| | |] w1]; simpl in HI';
      try exact HI'; now apply IH.
Qed.

Lemma page_of_incl offset (t : table) : incl (page_of offset t) t.
Proof.
  unfold page_of. intros r Hin.
  apply (In_nth _ _ r) in Hin as (n & Hn & Hr).
  rewrite <- Hr. clear Hr.
  assert (Hin : In (nth n (firstn (Z.to_nat limit) (skipn (Z.to_nat offset) t)) r)
                   (firstn (Z.to_nat limit) (skipn (Z.to_nat offset) t)))
    by (now apply nth_In).
  generalize dependent (nth n (firstn (Z.to_nat limit) (skipn (Z.to_nat offset) t)) r).
  intros x Hx.
  rewrite <- (firstn_skipn (Z.to_nat offset) t). apply in_or_app. right.
  rewrite <- (firstn_skipn (Z.to_nat limit) (skipn (Z.to_nat offset) t)).
  apply in_or_app. now left.
Qed.

Lemma pages_tbl (I : table -> Prop) (T : table) delete fuel :
  (forall t, I t -> incl t T) ->
  (forall r k m t, In r T -> Scan r = inr (k, m) ->
     delete = true -> missing data_root k m <> None -> I t -> I (Delete k t)) ->
  forall offset count w,
    I (tbl w) -> I (tbl (snd (pages procs data_root delete fuel offset count w))).
Proof.
  intros Hincl Hd. induction fuel as [|k IH]; intros offset count w HI; simpl; [exact HI|].
  destruct (offset <? count); [|exact HI].
  assert (HI' : I (tbl (snd (scan_page procs data_root delete
                               (page_of offset (tbl w)) 0
                               (log [LogPage offset limit count] w))))).
  { apply scan_page_tbl; [|exact HI].
    intros r k0 m t Hin. apply Hd. apply (Hincl _ HI). now apply (page_of_incl offset). }
  cbn [tbl log] in *.
  destruct (scan_page _ _ _ _ _ _) as [[[e|]| | |] w1]; simpl in HI'; try exact HI'.
  now apply IH.
Qed.

Lemma pages_S delete k offset count w :
  pages procs data_root delete (S k) offset count w
  = if offset <? count then
      match scan_page procs data_root delete (page_of offset (tbl w)) 0
                      (log [LogPage offset limit count] w) with
      | (Ret None, w') => pages procs data_root delete k (int_add offset limit) count w'
      | other => other
      end
    else (Ret None, w).
Proof. reflexivity. Qed.

(** The loop over the offsets ends within the fuel [Prune] gives it:
    more fuel unfolds no further iteration. *)
Lemma pages_fuel_enough delete fuel : forall offset count w,
  0 <= offset -> count + limit <= int_max ->
  (0 < fuel)%nat -> count - offset < Z.of_nat fuel ->
  pages procs data_root delete (S fuel) offset count w
  = pages procs data_root delete fuel offset count w.
Proof.
  induction fuel as [|k IH]; intros offset count w Ho Hmax Hk Hf; [lia|].
  rewrite (pages_S delete (S k)), (pages_S delete k).
  destruct (Z.ltb_spec offset count) as [Hlt|Hge]; [|reflexivity].
  destruct (scan_page _ _ _ _ _ _) as [[[e|]| | |] w1]; try reflexivity.
  assert (Hadd : int_add offset limit = offset + limit).
  { unfold int_add. apply int_wrap_small. unfold int_min, limit in *. lia. }
  rewrite Hadd. apply IH; unfold limit in *; lia.
Qed.

Lemma Prune_with_token delete n t o :
  Prune procs data_root delete {| conns := S n; tbl := t; out := o |}
  = pages procs data_root delete (S (Z.to_nat (count_rows t))) 0 (count_rows t)
          {| conns := n; tbl := t; out := o |}.
Proof. reflexivity. Qed.

(** *** The budget *)


(** *** What is deleted *)

(** An id under which the table has a row whose file is missing. *)
Definition condemned (T : table) (k : Z) : Prop :=
  exists r m, In r T /\ Scan r = inr (k, m) /\ missing data_root k m <> None.

Lemma Delete_incl k (t : table) : incl (Delete k t) t.
Proof. intros r Hin. apply filter_In in Hin. tauto. Qed.

(** X19: what Prune may delete.  Whatever the way it ends, the table
    afterwards holds rows of the table before and no other; without the
    delete flag it is the table before; and a row stays unless the table
    had, under the same id, a row that scans and whose file does not
    exist.  So a row whose meta text does not decode, whose path cannot be
    made, or whose file exists is deleted only together with such a row of
    the same id, and never from a table keyed by id. *)
Theorem prune_deletes_only_missing delete (w : state) :
  let w' := snd (Prune procs data_root delete w) in
  incl (tbl w') (tbl w) /\
  (delete = false -> tbl w' = tbl w) /\
  (forall r, In r (tbl w) ->
     (forall k, r c_id = VInt k -> ~ condemned (tbl w) k) -> In r (tbl w')) /\
  (keyed (tbl w) ->
   forall r k m, In r (tbl w) -> Scan r = inr (k, m) ->
                 missing data_root k m = None -> In r (tbl w')).
Proof.
  intros w'. subst w'. destruct w as [c T o]. cbn [tbl].
  set (I := fun t : table =>
              incl t T /\
              forall r, In r T -> (forall k, r c_id = VInt k -> ~ condemned T k) -> In r t).
  assert (HI : I (tbl (snd (Prune procs data_root delete
                              {| conns := c; tbl := T; out := o |})))).
  { destruct c as [|n].
    - split; [apply incl_refl|auto].
    - rewrite Prune_with_token. apply (@pages_tbl I T).
      + intros t [Hi _]. exact Hi.
      + intros r k m t Hin HS _ Hm [Hi Hk]. split.
        * intros x Hx. apply Hi. now apply (Delete_incl k).
        * intros x Hx Hs. apply filter_In. split; [now apply Hk|].
          apply negb_true_iff. apply value_eqb_neq. intros E.
          apply (Hs k E). exists r, m. auto.
      + split; [apply incl_refl|auto]. }
  destruct HI as [Hincl Hkeep].
  split; [exact Hincl|]. split; [|split].
  - intros ->. destruct c as [|n]; [reflexivity|].
    rewrite Prune_with_token. apply (@pages_tbl (fun t' => t' = T) T).
    + intros t' ->. apply incl_refl.
    + intros; discriminate.
    + reflexivity.
  - exact Hkeep.
  - intros K r k m Hin HS Hm. apply Hkeep; [exact Hin|].
    intros k' Hk' (r0 & m0 & Hin0 & HS0 & Hm0).
    assert (Hid : r c_id = VInt k).
    { unfold Scan in HS. destruct (r c_id); try discriminate.
      destruct (r c_meta); try discriminate. now inversion HS. }
    assert (Hid0 : r0 c_id = VInt k').
    { unfold Scan in HS0. destruct (r0 c_id); try discriminate.
      destruct (r0 c_meta); try discriminate. now inversion HS0. }
    assert (k' = k) by congruence. subst k'.
    assert (r0 = r).
    { unfold keyed in K.
      clear - K Hin Hin0 Hid Hid0. induction T as [|x t IH]; [contradiction|].
      simpl in K. inversion K as [|y l Hn K']; subst.
      destruct Hin as [->|Hin], Hin0 as [->|Hin0].
      - reflexivity.
      - exfalso. apply Hn. apply in_map_iff. exists r0. split; [congruence|exact Hin0].
      - exfalso. apply Hn. apply in_map_iff. exists r. split; [congruence|exact Hin].
      - now apply IH. }
    subst r0. rewrite HS in HS0. inversion HS0; subst. contradiction.
Qed.

(** *** A run without the delete flag *)

Lemma reported_paths l : reported (map LogNotExist l) = l.
Proof. induction l as [|p l IH]; simpl; [reflexivity|]. now f_equal. Qed.

Lemma missing_paths_app l1 l2 :
  missing_paths (l1 ++ l2) = missing_paths l1 ++ missing_paths l2.
Proof. unfold missing_paths. apply flat_map_app. Qed.

Lemma scans_id r : scans r = true -> exists k, r c_id = VInt k.
Proof.
  unfold scans, Scan. destruct (r c_id); try discriminate. eauto.
Qed.

Lemma count_rows_scans (t : table) :
  (forall r, In r t -> scans r = true) -> count_rows t = Z.of_nat (List.length t).
Proof.
  intros H. unfold count_rows. f_equal. f_equal.
  induction t as [|r t IH]; simpl; [reflexivity|].
  destruct (scans_id r (H r (or_introl eq_refl))) as [k ->]. simpl.
  f_equal. apply IH. intros x Hx. apply H. now right.
Qed.

Lemma scan_page_dry rows : forall w,
  (0 < procs)%nat -> (forall r, In r rows -> scans r = true) ->
  scan_page procs data_root false rows 0 w
  = (Ret None, log (map LogNotExist (missing_paths rows)) w).
Proof.
  intros w Hp. revert w. induction rows as [|r rest IH]; intros w Hs.
  - simpl. unfold log. simpl. rewrite app_nil_r. destruct w; reflexivity.
  - cbn [scan_page]. pose proof (Hs r (or_introl eq_refl)) as Hr.
    unfold scans in Hr. unfold missing_paths. cbn [flat_map].
    destruct (Scan r) as [e|[k m]]; [discriminate|].
    assert (Nat.leb procs 0 = false) as -> by (apply Nat.leb_gt; exact Hp).
    unfold check. fold (missing_paths rest).
    destruct (missing data_root k m) as [p|].
    + rewrite IH by (intros x Hx; apply Hs; now right).
      unfold log. cbn [conns tbl out map app]. now rewrite <- app_assoc.
    + rewrite IH by (intros x Hx; apply Hs; now right). reflexivity.
Qed.

Lemma pages_dry fuel : forall offset w,
  (0 < procs)%nat -> 0 <= offset ->
  (forall r, In r (tbl w) -> scans r = true) ->
  Z.of_nat (List.length (tbl w)) + limit <= int_max ->
  (0 < fuel)%nat -> Z.of_nat (List.length (tbl w)) - offset < Z.of_nat fuel ->
  exists l,
    pages procs data_root false fuel offset (Z.of_nat (List.length (tbl w))) w
    = (Ret None, log l w) /\
    reported l = missing_paths (skipn (Z.to_nat offset) (tbl w)).
Proof.
  induction fuel as [|k IH]; intros offset w Hp Ho Hs Hmax Hk Hf; [lia|].
  cbn [pages]. destruct (Z.ltb_spec offset (Z.of_nat (List.length (tbl w)))) as [Hlt|Hge].
  - cbn [tbl log]. rewrite scan_page_dry;
      [|exact Hp|intros r Hr; apply Hs; now apply (page_of_incl offset)].
    set (w1 := log (map LogNotExist (missing_paths (page_of offset (tbl w))))
                   (log [LogPage offset limit (Z.of_nat (List.length (tbl w)))] w)).
    assert (Hadd : int_add offset limit = offset + limit).
    { unfold int_add. apply int_wrap_small. unfold int_min, limit in *. lia. }
    rewrite Hadd.
    destruct (IH (offset + limit) w1 Hp) as (l & Hl & Hrep);
      try (unfold limit in *; subst w1; cbn [tbl log]; lia).
    { exact Hs. }
    subst w1. cbn [tbl log] in Hl, Hrep.
    exists ([LogPage offset limit (Z.of_nat (List.length (tbl w)))]
            ++ map LogNotExist (missing_paths (page_of offset (tbl w))) ++ l).
    split.
    + rewrite Hl. unfold log. cbn [conns tbl out]. f_equal. f_equal.
      now rewrite <- !app_assoc.
    + rewrite !reported_app, reported_paths, Hrep. cbn [reported flat_map app].
      rewrite <- missing_paths_app. f_equal. unfold page_of.
      rewrite Z2Nat.inj_add by (unfold limit; lia).
      rewrite Nat.add_comm, <- skipn_skipn. apply firstn_skipn.
  - exists []. split.
    + unfold log. rewrite app_nil_r. destruct w; reflexivity.
    + rewrite skipn_all2 by lia. reflexivity.
Qed.

(** X20: a run of Prune without the delete flag is a complete report.
    On a table whose rows all scan, with a token in the budget
    and GOMAXPROCS at least 1, it returns nil, leaves the table as it
    was, and has logged, once each and in some order, the path of every
    row whose file does not exist: the pages
    [offset, offset + 100000) for offset = 0, 100000, ... below the count
    cover every row once.  (The order of the lines of a page is the
    order in which its goroutines run.) *)
Theorem dry_prune_reports_every_missing_file (w : state) (n : nat) :
  (0 < procs)%nat -> conns w = S n ->
  (forall r, In r (tbl w) -> scans r = true) ->
  Z.of_nat (List.length (tbl w)) + limit <= int_max ->
  exists w' l,
    Prune procs data_root false w = (Ret None, w') /\
    tbl w' = tbl w /\ conns w' = n /\
    out w' = out w ++ l /\
    Permutation (reported l) (missing_paths (tbl w)).
Proof.
  intros Hp Hc Hs Hmax. destruct w as [c T o]. cbn [conns tbl out] in *. subst c.
  rewrite Prune_with_token, (count_rows_scans T Hs).
  destruct (@pages_dry (S (Z.to_nat (Z.of_nat (List.length T)))) 0
              {| conns := n; tbl := T; out := o |} Hp) as (l & Hl & Hrep);
    cbn [tbl]; try lia; try assumption.
  cbn [tbl] in Hl. rewrite Hl. eexists. exists l. split; [reflexivity|].
  cbn [tbl conns out log]. split; [reflexivity|]. split; [reflexivity|].
  split; [reflexivity|]. rewrite Hrep. apply Permutation_refl.
Qed.

(** *** A run with the delete flag *)

Lemma check_starved k m w :
  conns w = O ->
  tbl (snd (check data_root true k m w)) = tbl w /\
  fst (check data_root true k m w)
  = match missing data_root k m with Some _ => Blocks | None => Ret tt end.
Proof.
  intros Hc. unfold check. destruct (missing data_root k m); [|split; reflexivity].
  destruct w as [c t o]. cbn [conns] in Hc. subst c. split; reflexivity.
Qed.

Lemma scan_page_starved_tbl rows : forall b w,
  conns w = O -> tbl (snd (scan_page procs data_root true rows b w)) = tbl w.
Proof.
  induction rows as [|r rest IH]; intros b w Hc; cbn [scan_page].
  - destruct (Nat.eqb b 0); reflexivity.
  - destruct (Scan r) as [e|[k m]]; [reflexivity|].
    destruct (Nat.leb procs b); [reflexivity|].
    destruct (check_starved k m w Hc) as [Ht _].
    pose proof (check_conns true k m w) as Hc'. rewrite Hc in Hc'.
    destruct (check data_root true k m w) as [[[]| | |] w1]; cbn [fst snd] in *;
      try exact Ht; rewrite IH by exact Hc'; exact Ht.
Qed.

Lemma pages_starved_tbl fuel : forall offset count w,
  conns w = O -> tbl (snd (pages procs data_root true fuel offset count w)) = tbl w.
Proof.
  induction fuel as [|k IH]; intros offset count w Hc; cbn [pages]; [reflexivity|].
  destruct (offset <? count); [|reflexivity].
  pose proof (scan_page_starved_tbl (page_of offset (tbl w)) 0
                (log [LogPage offset limit count] w) Hc) as Ht.
  pose proof (scan_page_conns true (page_of offset (tbl w)) 0
                (log [LogPage offset limit count] w)) as Hc'.
  cbn [tbl conns log] in *.
  destruct (scan_page _ _ _ _ _ _) as [[[e|]| | |] w1]; cbn [fst snd] in *; try exact Ht.
  rewrite IH by congruence. exact Ht.
Qed.

Lemma scan_page_starved rows : forall b w,
  conns w = O -> (forall r, In r rows -> scans r = true) ->
  (0 < b)%nat \/ (exists r, In r rows /\ gone r = true) ->
  fst (scan_page procs data_root true rows b w) = Blocks.
Proof.
  induction rows as [|r rest IH]; intros b w Hc Hs Hb; cbn [scan_page].
  - destruct Hb as [Hb|(r & [] & _)]. destruct b; [lia|reflexivity].
  - pose proof (Hs r (or_introl eq_refl)) as Hr. unfold scans in Hr.
    destruct (Scan r) as [e|[k m]] eqn:HS; [discriminate|].
    destruct (Nat.leb procs b); [reflexivity|].
    destruct (check_starved k m w Hc) as [_ Ho].
    pose proof (check_conns true k m w) as Hc'. rewrite Hc in Hc'.
    destruct (check data_root true k m w) as [o w1]. cbn [fst snd] in *. subst o.
    destruct (missing data_root k m) as [p|] eqn:M.
    + apply IH; [exact Hc'|intros x Hx; apply Hs; now right|left; lia].
    + apply IH; [exact Hc'|intros x Hx; apply Hs; now right|].
      destruct Hb as [Hb|(x & [->|Hx] & Hg)]; [now left| |right; eauto].
      unfold gone in Hg. rewrite HS, M in Hg. discriminate.
Qed.

Lemma count_rows_pos (t : table) r :
  In r t -> scans r = true -> 0 < count_rows t.
Proof.
  intros Hin Hs. unfold count_rows.
  destruct (scans_id r Hs) as [k Hk].
  assert (Hf : In r (filter (fun r => negb (value_eqb (r c_id) VNull)) t)).
  { apply filter_In. split; [exact Hin|]. rewrite Hk. reflexivity. }
  destruct (filter (fun r => negb (value_eqb (r c_id) VNull)) t); [contradiction|].
  cbn [List.length]. lia.
Qed.

(** X21: Prune with the delete flag needs a second token.  On a client
    with one token, the call takes it and its deleting goroutines find
    none: nothing is ever deleted, and when the first page holds a row
    whose file does not exist (its rows all scanning) the call never
    returns: the goroutine of that row waits at dbconn, and with it
    wg.Wait() or the loop at the throttle. *)
Theorem prune_needs_a_second_token (w : state) :
  conns w = 1%nat ->
  tbl (snd (Prune procs data_root true w)) = tbl w /\
  ((forall r, In r (page_of 0 (tbl w)) -> scans r = true) ->
   (exists r, In r (page_of 0 (tbl w)) /\ gone r = true) ->
   fst (Prune procs data_root true w) = Blocks).
Proof.
  intros Hc. destruct w as [c T o]. cbn [conns tbl] in *. subst c.
  rewrite Prune_with_token. split; [now apply pages_starved_tbl|].
  intros Hs (r & Hin & Hg). cbn [pages].
  assert (Hpos : 0 < count_rows T).
  { apply (count_rows_pos T r); [now apply (page_of_incl 0)|now apply Hs]. }
  destruct (Z.ltb_spec 0 (count_rows T)) as [_|]; [|lia].
  cbn [tbl log].
  pose proof (@scan_page_starved (page_of 0 T) 0
                (log [LogPage 0 limit (count_rows T)] {| conns := 0; tbl := T; out := o |})
                eq_refl Hs (or_intror (ex_intro _ r (conj Hin Hg)))) as Hb.
  destruct (scan_page _ _ _ _ _ _) as [[[e|]| | |] w1]; cbn [fst] in *;
    try discriminate; reflexivity.
Qed.

(** The id a row scans to. *)
Definition id_of (r : row) : Z :=
  match r c_id with VInt k => k | _ => 0 end.

(** Whether a row shares its id with a row of [rows] whose file is
    missing. *)
Definition doomed (rows : list row) (x : row) : bool :=
  existsb (fun r => gone r && value_eqb (x c_id) (r c_id)) rows.

Definition sweep (t : table) (r : row) : table :=
  if gone r then Delete (id_of r) t else t.

Lemma Scan_id r k m : Scan r = inr (k, m) -> r c_id = VInt k /\ id_of r = k.
Proof.
  unfold Scan, id_of. destruct (r c_id); try discriminate.
  destruct (r c_meta); try discriminate. intros H. inversion H. split; reflexivity.
Qed.

Lemma missing_paths_cons r rest :
  missing_paths (r :: rest) = missing_paths [r] ++ missing_paths rest.
Proof. apply (missing_paths_app [r] rest). Qed.

Lemma scan_page_fed rows : forall w c,
  (0 < procs)%nat -> conns w = S c -> (forall r, In r rows -> scans r = true) ->
  scan_page procs data_root true rows 0 w
  = (Ret None, {| conns := S c; tbl := fold_left sweep rows (tbl w);
                  out := out w ++ map LogNotExist (missing_paths rows) |}).
Proof.
  intros w c Hp. revert w. induction rows as [|r rest IH]; intros w Hc Hs.
  - simpl. rewrite app_nil_r. destruct w; cbn [conns] in *; subst; reflexivity.
  - cbn [scan_page fold_left]. pose proof (Hs r (or_introl eq_refl)) as Hr.
    unfold scans in Hr. rewrite missing_paths_cons.
    unfold sweep at 2, gone, missing_paths at 1. cbn [flat_map].
    destruct (Scan r) as [e|[k m]] eqn:HS; [discriminate|].
    destruct (Scan_id r HS) as [_ ->].
    assert (Nat.leb procs 0 = false) as -> by (apply Nat.leb_gt; exact Hp).
    unfold check.
    destruct (missing data_root k m) as [p|].
    + destruct w as [c0 t o]. cbn [conns] in Hc. subst c0.
      cbn [log conns tbl out Budget.dbconn]. unfold Budget.release.
      rewrite (IH {| conns := S c; tbl := Delete k t; out := o ++ [LogNotExist p] |}
                  eq_refl) by (intros x Hx; apply Hs; now right).
      cbn [conns tbl out map app]. now rewrite <- app_assoc.
    + rewrite (IH _ Hc) by (intros x Hx; apply Hs; now right). reflexivity.
Qed.

Lemma filter_filter (f g : row -> bool) (t : table) :
  filter f (filter g t) = filter (fun x => g x && f x) t.
Proof.
  induction t as [|x t IH]; simpl; [reflexivity|].
  destruct (g x); simpl; [destruct (f x); now rewrite IH|exact IH].
Qed.

Lemma fold_sweep rows : forall t,
  (forall r, In r rows -> scans r = true) ->
  fold_left sweep rows t = filter (fun x => negb (doomed rows x)) t.
Proof.
  induction rows as [|r rest IH]; intros t Hs.
  - simpl. induction t as [|x t IHt]; simpl; [reflexivity|now f_equal].
  - cbn [fold_left]. rewrite IH by (intros x Hx; apply Hs; now right).
    destruct (scans_id r (Hs r (or_introl eq_refl))) as [k Hk].
    unfold sweep, doomed, id_of, Delete. cbn [existsb]. rewrite Hk.
    destruct (gone r).
    + rewrite filter_filter. apply filter_ext. intros x. unfold has_id.
      cbn [andb]. now rewrite negb_orb.
    + reflexivity.
Qed.

Lemma keyed_same_id (T : table) r r0 :
  keyed T -> In r T -> In r0 T -> r c_id = r0 c_id -> r0 = r.
Proof.
  unfold keyed. induction T as [|x t IH]; [contradiction|].
  simpl. intros K Hin Hin0 E. inversion K as [|y l Hn K']; subst.
  destruct Hin as [->|Hin], Hin0 as [->|Hin0].
  - reflexivity.
  - exfalso. apply Hn. apply in_map_iff. exists r0. split; [congruence|exact Hin0].
  - exfalso. apply Hn. apply in_map_iff. exists r. split; [congruence|exact Hin].
  - now apply IH.
Qed.

(** X22: Prune with the delete flag on a table of at most 100000 rows
    (one page), all scanning, with two tokens or more and GOMAXPROCS at
    least 1: it returns nil, leaves one token less, reports the missing
    files once each, in some order, and deletes exactly the rows that
    share their id with a row whose file is missing; on a table keyed by id
    these are exactly the rows whose own file is missing. *)
Theorem prune_deletes_every_missing_row (w : state) (n : nat) :
  (0 < procs)%nat -> conns w = S (S n) ->
  (forall r, In r (tbl w) -> scans r = true) ->
  Z.of_nat (List.length (tbl w)) <= limit ->
  exists w' l,
    Prune procs data_root true w = (Ret None, w') /\
    conns w' = S n /\
    tbl w' = filter (fun x => negb (doomed (tbl w) x)) (tbl w) /\
    (keyed (tbl w) -> tbl w' = filter (fun x => negb (gone x)) (tbl w)) /\
    out w' = out w ++ l /\
    Permutation (reported l) (missing_paths (tbl w)).
Proof.
  intros Hp Hc Hs Hlen. destruct w as [c T o]. cbn [conns tbl out] in *. subst c.
  rewrite Prune_with_token, (count_rows_scans T Hs).
  assert (Hpage : page_of 0 T = T).
  { unfold page_of. change (Z.to_nat 0) with O. cbn [skipn].
    apply firstn_all2. unfold limit in *. lia. }
  assert (Hkeyed : keyed T -> filter (fun x => negb (doomed T x)) T
                              = filter (fun x => negb (gone x)) T).
  { intros K. apply filter_ext_in. intros x Hx. f_equal. unfold doomed.
    destruct (gone x) eqn:G.
    - apply existsb_exists. exists x. rewrite G. split; [exact Hx|].
      apply value_eqb_eq. reflexivity.
    - destruct (existsb _ T) eqn:E; [|reflexivity].
      apply existsb_exists in E as (r & Hr & Hb).
      apply andb_prop in Hb as [Hg He]. apply value_eqb_eq in He.
      rewrite (@keyed_same_id T x r K Hx Hr He) in Hg. congruence. }
  destruct (Nat.eq_dec (List.length T) 0) as [E0|Hne].
  - apply length_zero_iff_nil in E0. subst T.
    eexists. exists []. split; [reflexivity|]. cbn. rewrite app_nil_r.
    repeat split. constructor.
  - assert (Hpos : 0 < Z.of_nat (List.length T)) by lia.
    destruct (Z.to_nat (Z.of_nat (List.length T))) as [|k] eqn:Ek; [lia|].
    cbn [pages]. destruct (Z.ltb_spec 0 (Z.of_nat (List.length T))) as [_|]; [|lia].
    cbn [tbl log]. rewrite Hpage.
    erewrite scan_page_fed; [|exact Hp|reflexivity|exact Hs].
    cbn [conns tbl out].
    assert (Hadd : int_add 0 limit = limit) by reflexivity.
    rewrite Hadd. destruct (Z.ltb_spec limit (Z.of_nat (List.length T))) as [|_]; [lia|].
    eexists.
    exists (LogPage 0 limit (Z.of_nat (List.length T)) :: map LogNotExist (missing_paths T)).
    split; [reflexivity|]. cbn [conns tbl out log].
    rewrite (fold_sweep T T Hs).
    split; [reflexivity|]. split; [reflexivity|]. split; [exact Hkeyed|].
    split; [now rewrite <- app_assoc|].
    change (LogPage 0 limit (Z.of_nat (List.length T)) :: map LogNotExist (missing_paths T))
      with ([LogPage 0 limit (Z.of_nat (List.length T))] ++ map LogNotExist (missing_paths T)).
    rewrite reported_app, reported_paths. apply Permutation_refl.
Qed.


Lemma pages_done fuel offset count w :
  (0 < fuel)%nat -> count <= offset ->
  pages procs data_root true fuel offset count w = (Ret None, w).
Proof.
  intros Hf Hle. destruct fuel as [|k]; [lia|]. cbn [pages].
  destruct (Z.ltb_spec offset count); [lia|reflexivity].
Qed.

(** X23: deleting shifts the pages.  The count is read once and the
    offsets 0, 100000, ... are applied to the table as the deletions of
    the earlier pages left it.  On a table keyed by id of 100001 rows that
    all scan and whose files are all missing, Prune with the delete flag
    (two tokens or more, GOMAXPROCS at least 1) deletes the first 100000
    rows, then asks for the rows from offset 100000 on, of which there is
    none, and returns nil: the last row is still in the table, although
    its file is missing. *)
Theorem deleting_a_page_hides_the_next (w : state) (n : nat) (A : list row) (b : row) :
  (0 < procs)%nat -> conns w = S (S n) ->
  tbl w = A ++ [b] -> Z.of_nat (List.length A) = limit -> keyed (A ++ [b]) ->
  (forall r, In r (A ++ [b]) -> scans r = true /\ gone r = true) ->
  exists w', Prune procs data_root true w = (Ret None, w') /\
             tbl w' = [b] /\ gone b = true /\ conns w' = S n.
Proof.
  intros Hp Hc Ht Hlen K Hall. destruct w as [c T o]. cbn [conns tbl] in *. subst c T.
  assert (Hs : forall r, In r (A ++ [b]) -> scans r = true) by (intros r Hr; now apply Hall).
  assert (HsA : forall r, In r A -> scans r = true).
  { intros r Hr. apply Hs. apply in_or_app. now left. }
  assert (Hb : gone b = true).
  { apply Hall. apply in_or_app. right. now left. }
  rewrite Prune_with_token, (count_rows_scans (A ++ [b]) Hs), length_app.
  cbn [List.length].
  assert (Hcount : Z.of_nat (List.length A + 1) = limit + 1) by lia.
  rewrite Hcount.
  assert (Hpage : page_of 0 (A ++ [b]) = A).
  { unfold page_of. change (Z.to_nat 0) with O. cbn [skipn].
    rewrite firstn_app.
    replace (Z.to_nat limit - List.length A)%nat with O by lia.
    cbn [firstn]. rewrite app_nil_r. apply firstn_all2. lia. }
  assert (Hleft : filter (fun x => negb (doomed A x)) (A ++ [b]) = [b]).
  { rewrite filter_app.
    assert (HA : filter (fun x => negb (doomed A x)) A = []).
    { assert (G : forall l, incl l A -> filter (fun x => negb (doomed A x)) l = []).
      { induction l as [|x l IHl]; intros Hi; [reflexivity|].
        cbn [filter].
        assert (Hd : doomed A x = true).
        { unfold doomed. apply existsb_exists. exists x.
          split; [apply Hi; now left|].
          rewrite (proj2 (Hall x (in_or_app _ _ _ (or_introl (Hi x (or_introl eq_refl)))))).
          apply value_eqb_eq. reflexivity. }
        rewrite Hd. cbn [negb]. apply IHl. intros y Hy. apply Hi. now right. }
      apply G. apply incl_refl. }
    rewrite HA. cbn [filter app].
    assert (Hd : doomed A b = false).
    { unfold doomed. destruct (existsb _ A) eqn:E; [|reflexivity]. exfalso.
      apply existsb_exists in E as (r & Hr & Hb').
      apply andb_prop in Hb' as [_ He]. apply value_eqb_eq in He.
      unfold keyed in K. rewrite map_app in K.
      assert (Hin : In (b c_id) (map (fun r : row => r c_id) A)).
      { apply in_map_iff. exists r. split; [now symmetry|exact Hr]. }
      clear - K Hin. induction (map (fun r : row => r c_id) A) as [|v l IH];
        [contradiction|].
      simpl in K. inversion K as [|y l' Hn K']; subst.
      destruct Hin as [->|Hin].
      - apply Hn. apply in_or_app. right. now left.
      - now apply IH. }
    rewrite Hd. reflexivity. }
  destruct (Z.to_nat (limit + 1)) as [|k] eqn:Ek; [unfold limit in Ek; lia|].
  cbn [pages]. destruct (Z.ltb_spec 0 (limit + 1)) as [_|]; [|unfold limit in *; lia].
  cbn [tbl log]. rewrite Hpage.
  erewrite scan_page_fed; [|exact Hp|reflexivity|exact HsA].
  cbn [conns tbl out log].
  rewrite (fold_sweep A (A ++ [b]) HsA), Hleft.
  assert (Hadd : int_add 0 limit = limit) by reflexivity.
  rewrite Hadd.
  destruct (Z.ltb_spec limit (limit + 1)) as [_|]; [|lia].
  cbn [tbl log].
  assert (Hnext : page_of limit [b] = []).
  { unfold page_of. rewrite skipn_all2; [apply firstn_nil|].
    cbn [List.length]. unfold limit. lia. }
  rewrite Hnext. cbn [scan_page Nat.eqb].
  assert (Hadd2 : int_add limit limit = 200000) by reflexivity.
  rewrite Hadd2, pages_done; [|unfold limit in Ek; lia|unfold limit; lia].
  eexists. split; [reflexivity|]. cbn [tbl conns]. repeat split. exact Hb.
Qed.

End WithFiles.

(** The sample table, in which the file of the second row is gone: the
    report without the delete flag. *)
Lemma dry_prune_reports_every_missing_file_witness :
  exists w' l,
    @Prune Fixtures.files 4 "/data" false {| conns := 1; tbl := Fixtures.stored; out := [] |}
    = (Ret None, w') /\
    tbl w' = Fixtures.stored /\ conns w' = O /\ out w' = l /\
    Permutation (reported l) ["/data/whosonfirst-data/data/102.geojson"].
Proof.
  assert (H1 : (0 < 4)%nat) by lia.
  assert (H2 : forall r, In r Fixtures.stored -> scans r = true).
  { intros r [<-|[<-|[]]]; reflexivity. }
  assert (H3 : Z.of_nat (List.length Fixtures.stored) + limit <= int_max).
  { unfold limit, int_max. simpl. lia. }
  destruct (@dry_prune_reports_every_missing_file Fixtures.files 4 "/data"
              {| conns := 1; tbl := Fixtures.stored; out := [] |} 0 H1 eq_refl H2 H3)
    as (w' & l & Hrun & Ht & Hc & Hout & Hrep).
  exists w', l. split; [exact Hrun|]. split; [exact Ht|]. split; [exact Hc|].
  split; [exact Hout|exact Hrep].
Defined.

(** The same table with one token: nothing is deleted, the call hangs. *)
Lemma prune_needs_a_second_token_witness :
  tbl (snd (@Prune Fixtures.files 4 "/data" true
              {| conns := 1; tbl := Fixtures.stored; out := [] |})) = Fixtures.stored /\
  fst (@Prune Fixtures.files 4 "/data" true
         {| conns := 1; tbl := Fixtures.stored; out := [] |}) = Blocks.
Proof.
  destruct (@prune_needs_a_second_token Fixtures.files 4 "/data"
              {| conns := 1; tbl := Fixtures.stored; out := [] |} eq_refl) as [Ht Hb].
  split; [exact Ht|]. apply Hb.
  - intros r Hr. apply (page_of_incl 0) in Hr. simpl in Hr.
    destruct Hr as [<-|[<-|[]]]; reflexivity.
  - exists (Fixtures.stored_row 102). split; [|reflexivity].
    unfold page_of. change (Z.to_nat 0) with O. cbn [skipn].
    rewrite firstn_all2 by (unfold limit; simpl; lia). right. now left.
Defined.

(** The same table with two tokens: the second row is deleted. *)
Lemma prune_deletes_every_missing_row_witness :
  exists w' l,
    @Prune Fixtures.files 4 "/data" true {| conns := 2; tbl := Fixtures.stored; out := [] |}
    = (Ret None, w') /\
    conns w' = 1%nat /\ tbl w' = [Fixtures.stored_row 101] /\ out w' = l /\
    Permutation (reported l) ["/data/whosonfirst-data/data/102.geojson"].
Proof.
  assert (H1 : (0 < 4)%nat) by lia.
  assert (H2 : forall r, In r Fixtures.stored -> scans r = true).
  { intros r [<-|[<-|[]]]; reflexivity. }
  assert (H3 : Z.of_nat (List.length Fixtures.stored) <= limit).
  { unfold limit. simpl. lia. }
  destruct (@prune_deletes_every_missing_row Fixtures.files 4 "/data"
              {| conns := 2; tbl := Fixtures.stored; out := [] |} 0 H1 eq_refl H2 H3)
    as (w' & l & Hrun & Hc & Ht & _ & Hout & Hrep).
  exists w', l. split; [exact Hrun|]. split; [exact Hc|].
  split; [rewrite Ht; reflexivity|]. split; [exact Hout|exact Hrep].
Defined.

Lemma full_page_ids :
  map (fun r : row => r c_id) Fixtures.full_page
  = map VInt (map Z.of_nat (seq 1 (Z.to_nat limit))).
Proof.
  unfold Fixtures.full_page. rewrite map_map. apply map_ext. reflexivity.
Qed.

Lemma full_page_rows r :
  In r (Fixtures.full_page ++ [Fixtures.stored_row 0]) ->
  exists k, r = Fixtures.stored_row k.
Proof.
  intros Hin. apply in_app_or in Hin as [Hin|[<-|[]]]; [|eauto].
  unfold Fixtures.full_page in Hin. apply in_map_iff in Hin as (k & <- & _). eauto.
Qed.

(** A full page of rows and one more, no file left: the last row stays. *)
Lemma deleting_a_page_hides_the_next_witness :
  exists w',
    @Prune Fixtures.no_files 4 "/data" true
      {| conns := 2; tbl := Fixtures.full_page ++ [Fixtures.stored_row 0]; out := [] |}
    = (Ret None, w') /\
    tbl w' = [Fixtures.stored_row 0] /\
    @gone Fixtures.no_files "/data" (Fixtures.stored_row 0) = true.
Proof.
  assert (H1 : (0 < 4)%nat) by lia.
  assert (H2 : Z.of_nat (List.length Fixtures.full_page) = limit).
  { unfold Fixtures.full_page. rewrite !length_map, length_seq. unfold limit. lia. }
  assert (H3 : keyed (Fixtures.full_page ++ [Fixtures.stored_row 0])).
  { unfold keyed. rewrite map_app, full_page_ids.
    change (map (fun r : row => r c_id) [Fixtures.stored_row 0]) with (map VInt [0]).
    rewrite <- map_app. apply Finite.Injective_map_NoDup.
    - intros x y E. now inversion E.
    - apply NoDup_app.
      + apply Finite.Injective_map_NoDup; [intros x y; apply Nat2Z.inj|apply seq_NoDup].
      + repeat constructor. simpl. tauto.
      + intros a Ha [<-|[]]. apply in_map_iff in Ha as (i & Hi & Hin).
        apply in_seq in Hin. lia. }
  assert (H4 : forall r, In r (Fixtures.full_page ++ [Fixtures.stored_row 0]) ->
                         scans r = true /\ @gone Fixtures.no_files "/data" r = true).
  { intros r Hr. destruct (@full_page_rows r Hr) as [k ->]. split; reflexivity. }
  destruct (@deleting_a_page_hides_the_next Fixtures.no_files 4 "/data"
              {| conns := 2; tbl := Fixtures.full_page ++ [Fixtures.stored_row 0];
                 out := [] |} 0 Fixtures.full_page (Fixtures.stored_row 0)
              H1 eq_refl eq_refl H2 H3 H4) as (w' & Hrun & Ht & Hg & _).
  exists w'. split; [exact Hrun|]. split; [exact Ht|exact Hg].
Defined.


End PruneFacts.

(** ** A client and its reads; the endpoint flag *)
Module ClientLaws.
Import Index Query Client.

(** A read of the client. *)
Inductive read : Set :=
| ReadById (id : Z)
| ReadCount (p : partition) (str_geom : string) (opts : PgisIntersectsOptions)
| ReadConnection.

Section Reads.
Context {ST : Store}.

(** One read on a budget of [n] tokens: whether it returns, and the
    budget after. *)
Definition perform (r : read) (n : nat) : outcome unit * nat :=
  match r with
  | ReadById id =>
      match GetById id n with
      | (Ret _, n') => (Ret tt, n')
      | (Blocks, n') => (Blocks, n')
      | (Panics, n') => (Panics, n')
      | (Exits c, n') => (Exits c, n')
      end
  | ReadCount p str_geom opts =>
      match CountIntersects p str_geom opts n with
      | (Ret _, n') => (Ret tt, n')
      | (Blocks, n') => (Blocks, n')
      | (Panics, n') => (Panics, n')
      | (Exits c, n') => (Exits c, n')
      end
  | ReadConnection =>
      match Connection n with
      | Ret n' => (Ret tt, n')
      | Blocks => (Blocks, n)
      | Panics => (Panics, n)
      | Exits c => (Exits c, n)
      end
  end.

(** Reads made one after the other by one caller. *)
Fixpoint session (reads : list read) (n : nat) : outcome unit * nat :=
  match reads with
  | [] => (Ret tt, n)
  | r :: rest =>
      match perform r n with
      | (Ret _, n') => session rest n'
      | other => other
      end
  end.

Lemma perform_spends r n :
  perform r (S n) = (Ret tt, n) /\ perform r O = (Blocks, O).
Proof.
  destruct r as [id|p g o|]; simpl.
  - split; reflexivity.
  - unfold CountIntersects. simpl. destruct (QueryCount p g o); split; reflexivity.
  - split; reflexivity.
Qed.

Lemma session_spends reads : forall n,
  ((List.length reads <= n)%nat ->
     session reads n = (Ret tt, (n - List.length reads)%nat)) /\
  ((n < List.length reads)%nat -> session reads n = (Blocks, O)).
Proof.
  induction reads as [|r rest IH]; intros n; cbn [session List.length].
  - split; [intros _; f_equal; lia|lia].
  - destruct n as [|n].
    + split; [lia|]. intros _. now rewrite (proj2 (perform_spends r O)).
    + rewrite (proj1 (perform_spends r n)). destruct (IH n) as [H1 H2]. split.
      * intros H. rewrite H1 by lia. reflexivity.
      * intros H. apply H2. lia.
Qed.

(** X24: the budget of a new client and its reads.  NewPgisClient
    returns a client only when the store could be opened and pinged and
    maxconns is not negative (a negative maxconns is a panic); the client
    has the default geometry filter, is no dry run, and holds maxconns
    tokens.  Every read (GetById, CountIntersects, Connection) costs one
    for good, whatever the store answers: a caller can make maxconns reads
    in all, and its next read waits for ever. *)
Theorem new_client_serves_maxconns_reads {D : Driver}
        host port user password dbname maxconns (m : made) (reads : list read) :
  NewPgisClient host port user password dbname maxconns = Ret (inl m) ->
  (0 <= maxconns /\ conns m = Z.to_nat maxconns /\
   Geometry (client m) = EmptyString /\ Debug (client m) = false /\
   dsn m = dsn_of host port user password dbname /\
   Open (dsn m) = None /\ Ping (dsn m) = None) /\
  ((Z.of_nat (List.length reads) <= maxconns ->
      session reads (conns m) = (Ret tt, (conns m - List.length reads)%nat)) /\
   (maxconns < Z.of_nat (List.length reads) ->
      session reads (conns m) = (Blocks, O))).
Proof.
  unfold NewPgisClient.
  destruct (Open (dsn_of host port user password dbname)) as [e|] eqn:EO; [discriminate|].
  destruct (Ping (dsn_of host port user password dbname)) as [e|] eqn:EP; [discriminate|].
  destruct (Z.ltb_spec maxconns 0) as [|Hm]; [discriminate|].
  intros H. inversion H; subst; clear H. cbn [client dsn conns Geometry Debug].
  split; [repeat split; assumption|].
  destruct (session_spends reads (Z.to_nat maxconns)) as [H1 H2].
  split; intros Hl; [apply H1|apply H2]; lia.
Qed.

End Reads.

(** A driver that accepts every data source name. *)
Definition any_dsn : Driver := {| Open := fun _ => None; Ping := fun _ => None |}.

(** A client with two tokens and three reads. *)
Lemma new_client_serves_maxconns_reads_witness :
  exists m,
    @NewPgisClient any_dsn "localhost" 5432 "postgres" EmptyString "whosonfirst" 2
    = Ret (inl m) /\
    dsn m = "host=localhost port=5432 user=postgres dbname=whosonfirst sslmode=disable" /\
    @session Sample.no_match [ReadById 101; ReadConnection] (conns m) = (Ret tt, O) /\
    @session Sample.no_match
      [ReadById 101; ReadCount ByGeom "{geometry}" NewDefaultPgisIntersectsOptions;
       ReadById 102] (conns m) = (Blocks, O).
Proof.
  eexists. split; [reflexivity|]. split; [reflexivity|].
  split.
  - apply (proj1 (proj2 (@new_client_serves_maxconns_reads Sample.no_match any_dsn
                           "localhost" 5432 "postgres" EmptyString "whosonfirst" 2 _
                           [ReadById 101; ReadConnection] eq_refl))).
    simpl. lia.
  - apply (proj2 (proj2 (@new_client_serves_maxconns_reads Sample.no_match any_dsn
                           "localhost" 5432 "postgres" EmptyString "whosonfirst" 2 _
                           [ReadById 101;
                            ReadCount ByGeom "{geometry}" NewDefaultPgisIntersectsOptions;
                            ReadById 102] eq_refl))).
    simpl. lia.
Defined.

End ClientLaws.

Module FlagsLaws.
Import Flags.

Lemma append_assoc (a b c : string) : ((a ++ b) ++ c = a ++ b ++ c)%string.
Proof. induction a as [|x a IH]; simpl; [reflexivity|]. now rewrite IH. Qed.

Lemma Join_snoc (e : list string) (v sep : string) :
  Join (e ++ [v]) sep
  = match e with
    | [] => v
    | _ :: _ => (Join e sep ++ sep ++ v)%string
    end.
Proof.
  induction e as [|s e IH]; [reflexivity|].
  destruct e as [|s' e].
  - reflexivity.
  - change (Join ((s :: s' :: e) ++ [v]) sep)
      with (s ++ sep ++ Join ((s' :: e) ++ [v]) sep)%string.
    rewrite IH.
    change (Join (s :: s' :: e) sep) with (s ++ sep ++ Join (s' :: e) sep)%string.
    rewrite !append_assoc. reflexivity.
Qed.

(** X25: the endpoint flag.  Set never fails and keeps every value given
    on the command line, in the order given, after those already there;
    String prints them one per line, a new value on a new line after the
    text printed before.  ToClients makes no client of them: its result is
    the empty list for every value of the flag. *)
Theorem endpoints_accumulate (e : Endpoints) (values : list string) (v : string) :
  fold_left (fun acc x => fst (Endpoints_Set acc x)) values e = e ++ values /\
  snd (Endpoints_Set e v) = None /\
  Endpoints_String (fst (Endpoints_Set e v))
  = match e with
    | [] => v
    | _ :: _ => (Endpoints_String e ++ newline ++ v)%string
    end /\
  Endpoints_ToClients (e ++ values) = ([], None).
Proof.
  split; [|split; [reflexivity|split; [apply Join_snoc|reflexivity]]].
  revert e. induction values as [|x values IH]; intros e; simpl.
  - now rewrite app_nil_r.
  - rewrite IH, <- app_assoc. reflexivity.
Qed.

End FlagsLaws.
